(** * ScrabbleGame: the session engine of the Scrabble server

    A shallow embedding of the [ScrabbleGame] class of the server part of
    [scrabble-frontend/src/App.js] (tile bag, racks, board, move validation,
    scoring, turn order and the public view), of the socket handlers that
    drive it, and of the handlers of the client that hold the tiles of the
    player, with the properties of each proved about it.

    Conventions of the embedding:
    - JavaScript numbers that hold coordinates, tile values and scores are
      [Z]; a sum or a product of tile values and scores is rounded as the
      arithmetic of doubles rounds it ([Number.plus], [Number.times]);
      lengths, loop counters over arrays and the turn index are [nat];
    - the board is the finite map of the cells that hold a tile; reading it
      follows JavaScript: a row index outside [0..14] makes [board[row]]
      undefined, and touching a property of it raises a TypeError; a column
      outside [0..14] that was never written reads [undefined] (which is
      [!== null]); a column inside reads [null] until a tile is written;
    - a method that only reads [this] is a function of the session into
      [outcome]; a method that assigns to [this] is a computation in the
      state-and-exception monad [M];
    - [Math.random()] is an explicit oracle argument. *)

From stdpp Require Import gmap strings pretty list sorting.
From Stdlib Require Import ZArith NArith DecimalString Ascii Lia.

Local Open Scope string_scope.
Local Open Scope list_scope.
Local Open Scope Z_scope.

(** ** Tiles, placements, players, session *)

Module Tile.
Record t : Type := mk { letter : string; value : Z; id : string }.
End Tile.

Module PlayedTile.
Record t : Type := mk { row : Z; col : Z; tile : Tile.t }.
End PlayedTile.

Module Player.
Record t : Type := mk {
  id : string;
  name : string;
  score : Z;
  tiles : list Tile.t;
  isHost : bool
}.
End Player.

#[global] Instance Tile_eq_dec : EqDecision Tile.t.
Proof. solve_decision. Defined.

#[global] Instance PlayedTile_eq_dec : EqDecision PlayedTile.t.
Proof. solve_decision. Defined.

#[global] Instance Player_eq_dec : EqDecision Player.t.
Proof. solve_decision. Defined.

Record ScrabbleGame : Type := mkGame {
  roomId : string;
  players : list Player.t;
  currentPlayerIndex : nat;
  board : gmap (Z * Z) Tile.t;
  tileBag : list Tile.t;
  gameStarted : bool;
  firstMoveMade : bool;
  hostId : option string
}.

(** ** Static tables *)

Definition TILE_DISTRIBUTION : list (string * nat) :=
  [("A", 9); ("B", 2); ("C", 2); ("D", 4); ("E", 12); ("F", 2); ("G", 3); ("H", 2);
   ("I", 9); ("J", 1); ("K", 1); ("L", 4); ("M", 2); ("N", 6); ("O", 8); ("P", 2);
   ("Q", 1); ("R", 6); ("S", 4); ("T", 6); ("U", 4); ("V", 2); ("W", 2); ("X", 1);
   ("Y", 2); ("Z", 1); ("_", 2)]%nat.

Definition TILE_VALUES : list (string * Z) :=
  [("A", 1); ("B", 3); ("C", 3); ("D", 2); ("E", 1); ("F", 4); ("G", 2); ("H", 4);
   ("I", 1); ("J", 8); ("K", 5); ("L", 1); ("M", 3); ("N", 1); ("O", 1); ("P", 3);
   ("Q", 10); ("R", 1); ("S", 1); ("T", 1); ("U", 1); ("V", 4); ("W", 4); ("X", 8);
   ("Y", 4); ("Z", 10); ("_", 0)].

Definition PREMIUM_SQUARES : list (string * list (Z * Z)) :=
  [("TW", [(0, 0); (0, 7); (0, 14); (7, 0); (7, 14); (14, 0); (14, 7); (14, 14)]);
   ("DW", [(1, 1); (2, 2); (3, 3); (4, 4); (1, 13); (2, 12); (3, 11); (4, 10);
           (13, 1); (12, 2); (11, 3); (10, 4); (13, 13); (12, 12); (11, 11); (10, 10); (7, 7)]);
   ("TL", [(1, 5); (1, 9); (5, 1); (5, 5); (5, 9); (5, 13); (9, 1); (9, 5); (9, 9); (9, 13);
           (13, 5); (13, 9)]);
   ("DL", [(0, 3); (0, 11); (2, 6); (2, 8); (3, 0); (3, 7); (3, 14); (6, 2); (6, 6); (6, 8);
           (6, 12); (7, 3); (7, 11); (8, 2); (8, 6); (8, 8); (8, 12); (11, 0); (11, 7);
           (11, 14); (12, 6); (12, 8); (14, 3); (14, 11)])].

(** [obj[key]] on a table written as an object literal. *)
Fixpoint table_get {V : Type} (tbl : list (string * V)) (key : string) : option V :=
  match tbl with
  | [] => None
  | (k, v) :: rest => if decide (k = key) then Some v else table_get rest key
  end.

(** ** Results of reading: a value, or a TypeError *)

Inductive outcome (A : Type) : Type :=
  | Returns (a : A)
  | Throws.
Arguments Returns {A} a.
Arguments Throws {A}.

#[global] Instance outcome_ret : MRet outcome := fun A a => Returns a.

#[global] Instance outcome_bind : MBind outcome := fun A B k m =>
  match m with
  | Returns a => k a
  | Throws => Throws
  end.

(** ** The board *)

Inductive cell : Type :=
  | Null
  | Undefined
  | Holds (t : Tile.t).

Definition on_axis (i : Z) : bool := (0 <=? i) && (i <? 15).

(** [this.board[r][c]] *)
Definition readCell (b : gmap (Z * Z) Tile.t) (r c : Z) : outcome cell :=
  if on_axis r then
    Returns (match b !! (r, c) with
             | Some t => Holds t
             | None => if on_axis c then Null else Undefined
             end)
  else Throws.

(** [x !== null] *)
Definition not_null (x : cell) : bool :=
  match x with
  | Null => false
  | _ => true
  end.

(** [x.value] for [x] read from the board *)
Definition cell_value (x : cell) : outcome Z :=
  match x with
  | Holds t => Returns (Tile.value t)
  | Null | Undefined => Throws
  end.

(** [new ScrabbleGame(..).board]: 15 rows of 15 [null]s. *)
Definition empty_board : gmap (Z * Z) Tile.t := ∅.

(** The two nested loops of [getPremiumSquare] over [PREMIUM_SQUARES]. *)
Fixpoint premium_lookup (tbl : list (string * list (Z * Z))) (row col : Z) : option string :=
  match tbl with
  | [] => None
  | (key, positions) :: rest =>
      if existsb (fun p => (p.1 =? row) && (p.2 =? col)) positions
      then Some key
      else premium_lookup rest row col
  end.

Definition getPremiumSquare (s : ScrabbleGame) (row col : Z) : outcome (option string) :=
  x ← readCell (board s) row col;
  if not_null x then Returns None
  else Returns (premium_lookup PREMIUM_SQUARES row col).

(** ** Computations that assign to [this] *)

Definition M (A : Type) : Type := ScrabbleGame -> outcome (A * ScrabbleGame).

#[global] Instance M_ret : MRet M := fun A a s => Returns (a, s).

#[global] Instance M_bind : MBind M := fun A B k m s =>
  match m s with
  | Returns (a, s') => k a s'
  | Throws => Throws
  end.

Definition get : M ScrabbleGame := fun s => Returns (s, s).

Definition modify (f : ScrabbleGame -> ScrabbleGame) : M unit := fun s => Returns (tt, f s).

Definition lift {A : Type} (o : outcome A) : M A := fun s =>
  match o with
  | Returns a => Returns (a, s)
  | Throws => Throws
  end.

Definition set_players (ps : list Player.t) (s : ScrabbleGame) : ScrabbleGame :=
  mkGame (roomId s) ps (currentPlayerIndex s) (board s) (tileBag s)
         (gameStarted s) (firstMoveMade s) (hostId s).

Definition set_currentPlayerIndex (i : nat) (s : ScrabbleGame) : ScrabbleGame :=
  mkGame (roomId s) (players s) i (board s) (tileBag s)
         (gameStarted s) (firstMoveMade s) (hostId s).

Definition set_board (b : gmap (Z * Z) Tile.t) (s : ScrabbleGame) : ScrabbleGame :=
  mkGame (roomId s) (players s) (currentPlayerIndex s) b (tileBag s)
         (gameStarted s) (firstMoveMade s) (hostId s).

Definition set_tileBag (bag : list Tile.t) (s : ScrabbleGame) : ScrabbleGame :=
  mkGame (roomId s) (players s) (currentPlayerIndex s) (board s) bag
         (gameStarted s) (firstMoveMade s) (hostId s).

Definition set_gameStarted (b : bool) (s : ScrabbleGame) : ScrabbleGame :=
  mkGame (roomId s) (players s) (currentPlayerIndex s) (board s) (tileBag s)
         b (firstMoveMade s) (hostId s).

Definition set_firstMoveMade (b : bool) (s : ScrabbleGame) : ScrabbleGame :=
  mkGame (roomId s) (players s) (currentPlayerIndex s) (board s) (tileBag s)
         (gameStarted s) b (hostId s).

Definition set_hostId (h : option string) (s : ScrabbleGame) : ScrabbleGame :=
  mkGame (roomId s) (players s) (currentPlayerIndex s) (board s) (tileBag s)
         (gameStarted s) (firstMoveMade s) h.

Definition set_tiles (ts : list Tile.t) (p : Player.t) : Player.t :=
  Player.mk (Player.id p) (Player.name p) (Player.score p) ts (Player.isHost p).

Definition set_score (n : Z) (p : Player.t) : Player.t :=
  Player.mk (Player.id p) (Player.name p) n (Player.tiles p) (Player.isHost p).

Definition set_isHost (b : bool) (p : Player.t) : Player.t :=
  Player.mk (Player.id p) (Player.name p) (Player.score p) (Player.tiles p) b.

(** A player object is shared between [this.players] and the local variable
    that names it; an assignment to one of its fields is the update of the
    list at the player's position. *)
Definition update_player (i : nat) (f : Player.t -> Player.t) : M unit :=
  modify (fun s => set_players (alter f i (players s)) s).

(** ** The random source

    The [k]-th call of [Math.random()] is the draw [rnd k]; [random_index]
    is [Math.floor(Math.random() * n)], any index below [n], and
    [random_text] the text a draw has when it is appended to a string. *)

Definition random_index (u n : nat) : nat := (u mod n)%nat.

Definition random_text (u : nat) : string := "0." +:+ pretty u.

(** ** Tile bag *)

(** [temp = a[i]; a[i] = a[j]; a[j] = temp]; the loop of [shuffle] only
    calls it with [j <= i < a.length]. *)
Definition swap {A : Type} (i j : nat) (a : list A) : list A :=
  match a !! i, a !! j with
  | Some temp, Some y => <[j := temp]> (<[i := y]> a)
  | _, _ => a
  end.

(** The loop [for (i = shuffled.length - 1; i > 0; i--)], at [i] with [k]
    draws already taken. *)
Fixpoint shuffle_from {A : Type} (rnd : nat -> nat) (k i : nat) (shuffled : list A) : list A :=
  match i with
  | O => shuffled
  | S i' =>
      let j := random_index (rnd k) (i + 1) in
      shuffle_from rnd (S k) i' (swap i j shuffled)
  end.

Definition shuffle {A : Type} (rnd : nat -> nat) (array : list A) : list A :=
  shuffle_from rnd 0 (length array - 1) array.

(** The inner loop of [initializeTileBag]: tiles [i .. i+n-1] of [letter],
    the first of them made with draw [k]. *)
Fixpoint mint (rnd : nat -> nat) (letter : string) (k i n : nat) : list Tile.t :=
  match n with
  | O => []
  | S n' =>
      Tile.mk letter (default 0 (table_get TILE_VALUES letter))
              (letter +:+ "-" +:+ pretty i +:+ "-" +:+ random_text (rnd k))
      :: mint rnd letter (S k) (S i) n'
  end.

(** The outer loop, over the keys of [TILE_DISTRIBUTION] in their order. *)
Fixpoint mint_all (rnd : nat -> nat) (k : nat) (dist : list (string * nat)) : list Tile.t :=
  match dist with
  | [] => []
  | (letter, count) :: rest => mint rnd letter k 0 count ++ mint_all rnd (k + count) rest
  end.

Definition unshuffled_bag (rnd : nat -> nat) : list Tile.t := mint_all rnd 0 TILE_DISTRIBUTION.

Definition initializeTileBag (rnd : nat -> nat) : list Tile.t :=
  let bag := unshuffled_bag rnd in
  shuffle (fun k => rnd (length bag + k)%nat) bag.

(** [new ScrabbleGame(roomId)] *)
Definition newGame (rnd : nat -> nat) (room : string) : ScrabbleGame :=
  mkGame room [] 0 empty_board (initializeTileBag rnd) false false None.

(** ** Players *)

(** [this.players.findIndex(p => p.id === socketId)]; [None] is [-1]. *)
Definition findIndex (socketId : string) (ps : list Player.t) : option nat :=
  fst <$> list_find (fun p => Player.id p = socketId) ps.

(** [this.players.find(p => p.id === playerId)], with the position of the
    object found. *)
Definition find_player (playerId : string) (ps : list Player.t) : option (nat * Player.t) :=
  list_find (fun p => Player.id p = playerId) ps.

(** [name || 'Player ' + n]: the default stands for an empty name. *)
Definition addPlayer (socketId name : string) : M bool :=
  s ← get;
  if decide (4 <= length (players s))%nat then mret false
  else
    let player :=
      Player.mk socketId
        (if decide (name = "") then "Player " +:+ pretty (length (players s) + 1)%nat else name)
        0 [] (bool_decide (length (players s) = 0%nat)) in
    _ ← (if Player.isHost player then modify (set_hostId (Some socketId)) else mret tt);
    _ ← modify (fun s => set_players (players s ++ [player]) s);
    mret true.

(** [removedPlayer] is [this.players[index]], there since [findIndex] found
    it. *)
Definition removePlayer (socketId : string) : M unit :=
  s ← get;
  match findIndex socketId (players s) with
  | None => mret tt
  | Some index =>
      match players s !! index with
      | None => mret tt
      | Some removedPlayer =>
          _ ← modify (fun s => set_tileBag (tileBag s ++ Player.tiles removedPlayer) s);
          _ ← modify (fun s => set_players (delete index (players s)) s);
          s1 ← get;
          _ ← (if Player.isHost removedPlayer && bool_decide (0 < length (players s1))%nat
               then
                 _ ← update_player 0 (set_isHost true);
                 s2 ← get;
                 modify (set_hostId (Player.id <$> players s2 !! 0%nat))
               else mret tt);
          s3 ← get;
          if decide (length (players s3) <= currentPlayerIndex s3)%nat
          then modify (set_currentPlayerIndex 0)
          else mret tt
      end
  end.

(** [player.tiles.push(this.tileBag.pop())] for the player at position [i].
    The loop of [dealTiles] runs at most [tileBag.length] times, so [pop]
    finds a tile. *)
Definition deal_one (i : nat) : M unit :=
  s ← get;
  match last (tileBag s) with
  | None => mret tt
  | Some t =>
      _ ← modify (set_tileBag (removelast (tileBag s)));
      update_player i (fun p => set_tiles (Player.tiles p ++ [t]) p)
  end.

Fixpoint deal_loop (i n : nat) : M unit :=
  match n with
  | O => mret tt
  | S n' => _ ← deal_one i; deal_loop i n'
  end.

Definition dealTiles (i count : nat) : M unit :=
  s ← get;
  deal_loop i (count `min` length (tileBag s)).

(** The loop of [startGame] over the players from position [i], [n] of
    them left. *)
Fixpoint deal_all (i n : nat) : M unit :=
  match n with
  | O => mret tt
  | S n' => _ ← dealTiles i 7; deal_all (S i) n'
  end.

Definition startGame : M bool :=
  s ← get;
  if gameStarted s || bool_decide (length (players s) < 2)%nat then mret false
  else
    _ ← modify (set_gameStarted true);
    _ ← deal_all 0 (length (players s));
    mret true.

Definition getCurrentPlayer (s : ScrabbleGame) : option Player.t :=
  players s !! currentPlayerIndex s.

(** [(i + 1) % n]; every caller has found a player in the list, so [n > 0]
    ([% 0] would give [NaN]). *)
Definition nextTurn : M unit :=
  modify (fun s => set_currentPlayerIndex
                     ((currentPlayerIndex s + 1) mod length (players s))%nat s).

(** ** Move validation *)

Inductive validation : Type :=
  | Valid
  | Invalid (error : string).

(** [a.sort((x, y) => x - y)] *)
Definition sort_numbers (a : list Z) : list Z := merge_sort Z.le a.

(** The indices of [for (i = lo; i <= hi; i++)]. *)
Definition from_to (lo hi : Z) : list Z := seqZ lo (hi - lo + 1).

(** The indices of the loop over the line of a move, from [sorted[0]] to
    [sorted[sorted.length - 1]]; the loop is only reached with a placement. *)
Definition span (coords : list Z) : list Z :=
  let sorted := sort_numbers coords in
  match head sorted, last sorted with
  | Some lo, Some hi => from_to lo hi
  | _, _ => []
  end.

Definition distinct (coords : list Z) : gset Z := list_to_set coords.

(** The contiguity loop of the row branch: [true] when it returns the
    error. *)
Fixpoint row_has_gap (s : ScrabbleGame) (playedTiles : list PlayedTile.t)
    (row : Z) (indices : list Z) : outcome bool :=
  match indices with
  | [] => Returns false
  | i :: rest =>
      let hasNewTile := existsb (fun pt => PlayedTile.col pt =? i) playedTiles in
      x ← readCell (board s) row i;
      let hasExistingTile := not_null x in
      if negb hasNewTile && negb hasExistingTile then Returns true
      else row_has_gap s playedTiles row rest
  end.

(** The contiguity loop of the column branch. *)
Fixpoint col_has_gap (s : ScrabbleGame) (playedTiles : list PlayedTile.t)
    (col : Z) (indices : list Z) : outcome bool :=
  match indices with
  | [] => Returns false
  | i :: rest =>
      let hasNewTile := existsb (fun pt => PlayedTile.row pt =? i) playedTiles in
      x ← readCell (board s) i col;
      let hasExistingTile := not_null x in
      if negb hasNewTile && negb hasExistingTile then Returns true
      else col_has_gap s playedTiles col rest
  end.

Definition neighbors (pt : PlayedTile.t) : list (Z * Z) :=
  [(PlayedTile.row pt - 1, PlayedTile.col pt);
   (PlayedTile.row pt + 1, PlayedTile.col pt);
   (PlayedTile.row pt, PlayedTile.col pt - 1);
   (PlayedTile.row pt, PlayedTile.col pt + 1)].

(** [r >= 0 && r < 15 && c >= 0 && c < 15 && this.board[r][c] !== null];
    the board is read only when the bounds hold. *)
Definition occupied_on_board (s : ScrabbleGame) (n : Z * Z) : bool :=
  on_axis n.1 && on_axis n.2 &&
  match readCell (board s) n.1 n.2 with
  | Returns x => not_null x
  | Throws => false
  end.

(** The two loops that set [connected]. *)
Definition connected (s : ScrabbleGame) (playedTiles : list PlayedTile.t) : bool :=
  existsb (fun pt => existsb (occupied_on_board s) (neighbors pt)) playedTiles.

Definition has_gap (s : ScrabbleGame) (playedTiles : list PlayedTile.t) : outcome bool :=
  match playedTiles with
  | [] => Returns false
  | first :: _ =>
      if decide (size (distinct (PlayedTile.row <$> playedTiles)) = 1%nat)
      then row_has_gap s playedTiles (PlayedTile.row first)
             (span (PlayedTile.col <$> playedTiles))
      else col_has_gap s playedTiles (PlayedTile.col first)
             (span (PlayedTile.row <$> playedTiles))
  end.

Definition validateMove (s : ScrabbleGame) (playedTiles : list PlayedTile.t)
    : outcome validation :=
  if decide (length playedTiles = 0%nat) then Returns (Invalid "No tiles played")
  else if negb (firstMoveMade s) &&
          negb (existsb (fun pt => (PlayedTile.row pt =? 7) && (PlayedTile.col pt =? 7))
                        playedTiles)
  then Returns (Invalid "First word must cross the center square")
  else
    let rows := distinct (PlayedTile.row <$> playedTiles) in
    let cols := distinct (PlayedTile.col <$> playedTiles) in
    if bool_decide (1 < size rows)%nat && bool_decide (1 < size cols)%nat
    then Returns (Invalid "Tiles must be in a single row or column")
    else
      gap ← has_gap s playedTiles;
      if gap : bool then Returns (Invalid "Tiles must be contiguous")
      else if firstMoveMade s && negb (connected s playedTiles)
      then Returns (Invalid "New tiles must connect to existing tiles")
      else Returns Valid.

(** ** Numbers

    A tile value and a score are JavaScript numbers that hold an integer.
    The sum and the product of two of them are the doubles nearest to the
    exact results: an integer of at most 53 significant bits is kept, a
    longer one is rounded to 53 significant bits, to the even one of two
    neighbours that are as near.  A result of magnitude 2^1024 or more is
    [Infinity] in JavaScript, which is no integer: the sessions of the
    model are those whose tile values are integers and whose scores stay
    below that magnitude. *)

Module Number.

Definition round (z : Z) : Z :=
  let m := Z.abs z in
  let e := Z.log2 m - 52 in
  if e <=? 0 then z
  else
    let q := Z.shiftr m e in
    let r := Z.land m (Z.ones e) in
    let half := Z.shiftl 1 (e - 1) in
    let q := if (half <? r) || ((r =? half) && Z.odd q) then q + 1 else q in
    Z.sgn z * Z.shiftl q e.

(** [a + b] *)
Definition plus (a b : Z) : Z := round (a + b).

(** [a * b] *)
Definition times (a b : Z) : Z := round (a * b).

End Number.

(** ** Scoring *)

(** One round of the first loop of [calculateScore], on
    [(totalScore, wordMultiplier)]. *)
Definition score_tile (s : ScrabbleGame) (acc : Z * Z) (pt : PlayedTile.t) : outcome (Z * Z) :=
  let '(totalScore, wordMultiplier) := acc in
  let tileScore := Tile.value (PlayedTile.tile pt) in
  premiumKey ← getPremiumSquare s (PlayedTile.row pt) (PlayedTile.col pt);
  let tileScore :=
    if decide (premiumKey = Some "DL") then Number.times tileScore 2 else tileScore in
  let tileScore :=
    if decide (premiumKey = Some "TL") then Number.times tileScore 3 else tileScore in
  let wordMultiplier :=
    if decide (premiumKey = Some "DW") then Number.times wordMultiplier 2 else wordMultiplier in
  let wordMultiplier :=
    if decide (premiumKey = Some "TW") then Number.times wordMultiplier 3 else wordMultiplier in
  Returns (Number.plus totalScore tileScore, wordMultiplier).

Fixpoint score_tiles (s : ScrabbleGame) (acc : Z * Z) (playedTiles : list PlayedTile.t)
    : outcome (Z * Z) :=
  match playedTiles with
  | [] => Returns acc
  | pt :: rest => acc' ← score_tile s acc pt; score_tiles s acc' rest
  end.

(** The loop of the row branch that adds the tiles already on the line. *)
Fixpoint add_row_line (s : ScrabbleGame) (playedTiles : list PlayedTile.t)
    (row : Z) (indices : list Z) (totalScore : Z) : outcome Z :=
  match indices with
  | [] => Returns totalScore
  | col :: rest =>
      x ← readCell (board s) row col;
      if not_null x && negb (existsb (fun pt => PlayedTile.col pt =? col) playedTiles)
      then v ← cell_value x; add_row_line s playedTiles row rest (Number.plus totalScore v)
      else add_row_line s playedTiles row rest totalScore
  end.

(** The loop of the column branch. *)
Fixpoint add_col_line (s : ScrabbleGame) (playedTiles : list PlayedTile.t)
    (col : Z) (indices : list Z) (totalScore : Z) : outcome Z :=
  match indices with
  | [] => Returns totalScore
  | row :: rest =>
      x ← readCell (board s) row col;
      if not_null x && negb (existsb (fun pt => PlayedTile.row pt =? row) playedTiles)
      then v ← cell_value x; add_col_line s playedTiles col rest (Number.plus totalScore v)
      else add_col_line s playedTiles col rest totalScore
  end.

Definition add_line (s : ScrabbleGame) (playedTiles : list PlayedTile.t) (totalScore : Z)
    : outcome Z :=
  match playedTiles with
  | [] => Returns totalScore
  | first :: _ =>
      if decide (size (distinct (PlayedTile.row <$> playedTiles)) = 1%nat)
      then add_row_line s playedTiles (PlayedTile.row first)
             (span (PlayedTile.col <$> playedTiles)) totalScore
      else add_col_line s playedTiles (PlayedTile.col first)
             (span (PlayedTile.row <$> playedTiles)) totalScore
  end.

Definition calculateScore (s : ScrabbleGame) (playedTiles : list PlayedTile.t) : outcome Z :=
  '(totalScore, wordMultiplier) ← score_tiles s (0, 1) playedTiles;
  totalScore ← add_line s playedTiles totalScore;
  let totalScore := Number.times totalScore wordMultiplier in
  let totalScore :=
    if decide (length playedTiles = 7%nat) then Number.plus totalScore 50 else totalScore in
  Returns totalScore.

(** ** Moves, passes, exchanges *)

Inductive result : Type :=
  | Success (score : option Z)
  | Failure (error : string).

(** [this.board[pt.row][pt.col] = pt.tile]: an assignment into a row that
    does not exist raises; a column outside [0..14] becomes a new property
    of the row. *)
Definition place_tile (pt : PlayedTile.t) : M unit := fun s =>
  if on_axis (PlayedTile.row pt)
  then Returns (tt, set_board (<[(PlayedTile.row pt, PlayedTile.col pt) := PlayedTile.tile pt]>
                                  (board s)) s)
  else Throws.

Fixpoint place_tiles (playedTiles : list PlayedTile.t) : M unit :=
  match playedTiles with
  | [] => mret tt
  | pt :: rest => _ ← place_tile pt; place_tiles rest
  end.

(** The guard that opens [playMove], [passTurn] and [exchangeTiles]:
    [!player || this.getCurrentPlayer().id !== playerId]. With a player
    found and no current player, [.id] raises. *)
Definition turn_guard (s : ScrabbleGame) (playerId : string)
    : outcome (option (nat * Player.t)) :=
  match find_player playerId (players s) with
  | None => Returns None
  | Some found =>
      match getCurrentPlayer s with
      | None => Throws
      | Some current =>
          Returns (if decide (Player.id current = playerId) then Some found else None)
      end
  end.

Definition playMove (playerId : string) (playedTiles : list PlayedTile.t) : M result :=
  s ← get;
  player ← lift (turn_guard s playerId);
  match player with
  | None => mret (Failure "Not your turn")
  | Some (i, _) =>
      v ← lift (validateMove s playedTiles);
      match v with
      | Invalid error => mret (Failure error)
      | Valid =>
          score ← lift (calculateScore s playedTiles);
          _ ← place_tiles playedTiles;
          _ ← update_player i (fun p => set_score (Number.plus (Player.score p) score) p);
          let playedTileIds : gset string :=
            list_to_set ((fun pt => Tile.id (PlayedTile.tile pt)) <$> playedTiles) in
          _ ← update_player i (fun p =>
                 set_tiles (filter (fun t => Tile.id t ∉ playedTileIds) (Player.tiles p)) p);
          _ ← dealTiles i (length playedTiles);
          _ ← modify (set_firstMoveMade true);
          _ ← nextTurn;
          mret (Success (Some score))
      end
  end.

Definition passTurn (playerId : string) : M result :=
  s ← get;
  player ← lift (turn_guard s playerId);
  match player with
  | None => mret (Failure "Not your turn")
  | Some _ =>
      _ ← nextTurn;
      mret (Success None)
  end.

Definition exchangeTiles (rnd : nat -> nat) (playerId : string) (tileIds : list string)
    : M result :=
  s ← get;
  player ← lift (turn_guard s playerId);
  match player with
  | None => mret (Failure "Not your turn")
  | Some (i, player) =>
      if decide (length (tileBag s) < length tileIds)%nat
      then mret (Failure "Not enough tiles in bag")
      else
        let exchangedTiles := filter (fun t => Tile.id t ∈ tileIds) (Player.tiles player) in
        _ ← update_player i (fun p =>
               set_tiles (filter (fun t => Tile.id t ∉ tileIds) (Player.tiles p)) p);
        _ ← modify (fun s => set_tileBag (tileBag s ++ exchangedTiles) s);
        _ ← modify (fun s => set_tileBag (shuffle rnd (tileBag s)) s);
        _ ← dealTiles i (length exchangedTiles);
        _ ← nextTurn;
        mret (Success None)
  end.

(** ** Views *)

Module PlayerSummary.
Record t : Type := mk {
  id : string;
  name : string;
  score : Z;
  tileCount : nat;
  isHost : bool
}.
End PlayerSummary.

Module GameState.
Record t : Type := mk {
  roomId : string;
  players : list PlayerSummary.t;
  currentPlayerIndex : nat;
  board : gmap (Z * Z) Tile.t;
  gameStarted : bool;
  tilesRemaining : nat;
  hostId : option string
}.
End GameState.

Definition summary (p : Player.t) : PlayerSummary.t :=
  PlayerSummary.mk (Player.id p) (Player.name p) (Player.score p)
                   (length (Player.tiles p)) (Player.isHost p).

Definition getGameState (s : ScrabbleGame) : GameState.t :=
  GameState.mk (roomId s) (summary <$> players s) (currentPlayerIndex s) (board s)
               (gameStarted s) (length (tileBag s)) (hostId s).

Definition getPlayerState (s : ScrabbleGame) (playerId : string) : option (list Tile.t) :=
  Player.tiles <$> (snd <$> find_player playerId (players s)).

(** * The socket handlers

    The handlers that the server registers on a connection.  Each runs
    against [gameRooms], the object that maps room ids to sessions, for the
    socket [socketId]; its result is the list of what it sends, in order,
    and the registry it leaves.  The payload of a message is taken with the
    types that the client gives it: ids, names and texts are strings, the
    placements a list.  An exception that a handler raises is [Throws]. *)

Module Server.

(** ** The registry *)

(** The own properties of [gameRooms], in the order in which [for ... in]
    visits them: the keys that are array indices in ascending order, then
    the other keys in the order of their creation. *)
Abbreviation rooms := (list (string * ScrabbleGame)).

(** The properties that [gameRooms], an object literal, inherits from
    [Object.prototype].  The value of each is a function or an object: it
    is truthy, it has none of the methods of a session, and reading
    [gameStarted] or [hostId] from it gives [undefined]. *)
Definition OBJECT_PROTOTYPE : list string :=
  ["constructor"; "__defineGetter__"; "__defineSetter__"; "hasOwnProperty";
   "__lookupGetter__"; "__lookupSetter__"; "isPrototypeOf"; "propertyIsEnumerable";
   "toString"; "valueOf"; "__proto__"; "toLocaleString"].

(** A key is an array index when it is the decimal text, without sign or
    leading zero, of an integer below 2^32 - 1. *)
Definition array_index (key : string) : option N :=
  match NilEmpty.uint_of_string key with
  | Some d =>
      let n := N.of_uint d in
      if String.eqb (pretty n) key && (n <? 4294967295)%N then Some n else None
  | None => None
  end.

Inductive property : Type :=
  | Own (game : ScrabbleGame)
  | Inherited
  | Missing.

Definition own (roomId : string) (gameRooms : rooms) : option ScrabbleGame :=
  (fun found => found.2.2) <$> list_find (fun entry => entry.1 = roomId) gameRooms.

(** [gameRooms[roomId]] *)
Definition read (roomId : string) (gameRooms : rooms) : property :=
  match own roomId gameRooms with
  | Some game => Own game
  | None => if bool_decide (roomId ∈ OBJECT_PROTOTYPE) then Inherited else Missing
  end.

(** Whether a new key [roomId] is visited before the entry [entry]. *)
Definition precedes (roomId : string) (entry : string * ScrabbleGame) : bool :=
  match array_index roomId, array_index entry.1 with
  | Some n, Some m => (n <? m)%N
  | Some _, None => true
  | None, _ => false
  end.

(** [gameRooms[roomId] = game], for a key that [gameRooms] does not have. *)
Fixpoint create (roomId : string) (game : ScrabbleGame) (gameRooms : rooms) : rooms :=
  match gameRooms with
  | [] => [(roomId, game)]
  | entry :: rest =>
      if precedes roomId entry then (roomId, game) :: entry :: rest
      else entry :: create roomId game rest
  end.

(** The registry once a method has changed the session under [roomId],
    which the registry holds by reference: the property keeps its place. *)
Definition store (roomId : string) (game : ScrabbleGame) (gameRooms : rooms) : rooms :=
  match list_find (fun entry : string * ScrabbleGame => entry.1 = roomId) gameRooms with
  | Some (i, _) => <[i := (roomId, game)]> gameRooms
  | None => gameRooms
  end.

(** ** What a handler sends *)

Module Event.
Inductive t : Type :=
  | roomJoined (roomId playerId : string) (gameState : GameState.t)
               (playerState : option (list Tile.t))
  | gameStateUpdate (gameState : GameState.t)
  | gameStarted (gameState : GameState.t)
  | playerState (state : option (list Tile.t))
  | moveCompleted (playerId : string) (score : option Z)
  | playerPassed (playerId : string)
  | chatMessage (playerName message : string) (timestamp : Z)
  | error (message : string).
End Event.

Inductive effect : Type :=
  (** [socket.join(roomId)] *)
  | Join (socketId roomId : string)
  (** [socket.emit(...)] *)
  | Emit (socketId : string) (event : Event.t)
  (** [io.to(room).emit(...)] *)
  | EmitTo (room : string) (event : Event.t).

Definition handler : Type := rooms -> outcome (list effect * rooms).

(** The loop that sends every player of [game] the state of that player:
    [io.to(player.id).emit('playerState', game.getPlayerState(player.id))]. *)
Definition player_states (game : ScrabbleGame) : list effect :=
  (fun player => EmitTo (Player.id player)
                   (Event.playerState (getPlayerState game (Player.id player))))
    <$> players game.

(** ** The handlers *)

(** What [createRoom] and [joinRoom] both do with the session found:
    [game.addPlayer] and the answer to its result. *)
Definition enter (socketId roomId playerName : string) (game : ScrabbleGame)
    (gameRooms : rooms) : outcome (list effect * rooms) :=
  '(success, game) ← addPlayer socketId playerName game;
  let gameRooms := store roomId game gameRooms in
  if success : bool
  then Returns ([Join socketId roomId;
                 Emit socketId (Event.roomJoined roomId socketId (getGameState game)
                                                 (getPlayerState game socketId));
                 EmitTo roomId (Event.gameStateUpdate (getGameState game))],
                gameRooms)
  else Returns ([Emit socketId (Event.error "Room is full")], gameRooms).

(** [rnd] gives the draws of the constructor of a new session. *)
Definition createRoom (rnd : nat -> nat) (socketId roomId playerName : string) : handler :=
  fun gameRooms =>
    let gameRooms :=
      match read roomId gameRooms with
      | Missing => create roomId (newGame rnd roomId) gameRooms
      | _ => gameRooms
      end in
    match read roomId gameRooms with
    | Own game => enter socketId roomId playerName game gameRooms
    | _ => Throws
    end.

Definition joinRoom (socketId roomId playerName : string) : handler :=
  fun gameRooms =>
    match read roomId gameRooms with
    | Missing => Returns ([Emit socketId (Event.error "Room not found")], gameRooms)
    | Inherited => Throws
    | Own game =>
        if gameStarted game
        then Returns ([Emit socketId (Event.error "Game already started")], gameRooms)
        else enter socketId roomId playerName game gameRooms
    end.

Definition startGame (socketId roomId : string) : handler :=
  fun gameRooms =>
    match read roomId gameRooms with
    | Missing => Returns ([], gameRooms)
    | Inherited =>
        Returns ([Emit socketId (Event.error "Only host can start the game")], gameRooms)
    | Own game =>
        if decide (hostId game ≠ Some socketId)
        then Returns ([Emit socketId (Event.error "Only host can start the game")], gameRooms)
        else
          '(started, game) ← startGame game;
          let gameRooms := store roomId game gameRooms in
          if started : bool
          then Returns (EmitTo roomId (Event.gameStarted (getGameState game))
                          :: player_states game,
                        gameRooms)
          else Returns ([], gameRooms)
    end.

Definition playMove (socketId roomId : string) (playedTiles : list PlayedTile.t) : handler :=
  fun gameRooms =>
    match read roomId gameRooms with
    | Missing => Returns ([], gameRooms)
    | Inherited => Throws
    | Own game =>
        '(result, game) ← playMove socketId playedTiles game;
        let gameRooms := store roomId game gameRooms in
        match result with
        | Success score =>
            Returns (EmitTo roomId (Event.gameStateUpdate (getGameState game))
                       :: player_states game
                       ++ [EmitTo roomId (Event.moveCompleted socketId score)],
                     gameRooms)
        | Failure error => Returns ([Emit socketId (Event.error error)], gameRooms)
        end
    end.

Definition passTurn (socketId roomId : string) : handler :=
  fun gameRooms =>
    match read roomId gameRooms with
    | Missing => Returns ([], gameRooms)
    | Inherited => Throws
    | Own game =>
        '(result, game) ← passTurn socketId game;
        let gameRooms := store roomId game gameRooms in
        match result with
        | Success _ =>
            Returns ([EmitTo roomId (Event.gameStateUpdate (getGameState game));
                      EmitTo roomId (Event.playerPassed socketId)],
                     gameRooms)
        | Failure error => Returns ([Emit socketId (Event.error error)], gameRooms)
        end
    end.

(** [rnd] gives the draws of the shuffle. *)
Definition exchangeTiles (rnd : nat -> nat) (socketId roomId : string)
    (tileIds : list string) : handler :=
  fun gameRooms =>
    match read roomId gameRooms with
    | Missing => Returns ([], gameRooms)
    | Inherited => Throws
    | Own game =>
        '(result, game) ← exchangeTiles rnd socketId tileIds game;
        let gameRooms := store roomId game gameRooms in
        match result with
        | Success _ =>
            Returns ([EmitTo roomId (Event.gameStateUpdate (getGameState game));
                      Emit socketId (Event.playerState (getPlayerState game socketId))],
                     gameRooms)
        | Failure error => Returns ([Emit socketId (Event.error error)], gameRooms)
        end
    end.

(** [now] is [Date.now()]. *)
Definition chatMessage (now : Z) (roomId message playerName : string) : handler :=
  fun gameRooms =>
    Returns ([EmitTo roomId (Event.chatMessage playerName message now)], gameRooms).

(** The loop of [disconnect] over the rooms still to visit: the result is
    what it sends and what is left of these rooms. *)
Fixpoint disconnect (socketId : string) (gameRooms : rooms) : outcome (list effect * rooms) :=
  match gameRooms with
  | [] => Returns ([], [])
  | (roomId, game) :: rest =>
      '(_, game) ← removePlayer socketId game;
      '(effects, rest) ← disconnect socketId rest;
      if decide (length (players game) = 0%nat)
      then Returns (effects, rest)
      else Returns (EmitTo roomId (Event.gameStateUpdate (getGameState game)) :: effects,
                    (roomId, game) :: rest)
  end.

(** ** Traffic *)

(** The messages that a socket sends, each with the payload that its
    handler reads and with what the handler takes from the environment. *)
Inductive message : Type :=
  | CreateRoom (rnd : nat -> nat) (roomId playerName : string)
  | JoinRoom (roomId playerName : string)
  | StartGame (roomId : string)
  | PlayMove (roomId : string) (playedTiles : list PlayedTile.t)
  | PassTurn (roomId : string)
  | ExchangeTiles (rnd : nat -> nat) (roomId : string) (tileIds : list string)
  | ChatMessage (now : Z) (roomId message playerName : string)
  | Disconnect.

Definition handle (socketId : string) (m : message) : handler :=
  match m with
  | CreateRoom rnd roomId playerName => createRoom rnd socketId roomId playerName
  | JoinRoom roomId playerName => joinRoom socketId roomId playerName
  | StartGame roomId => startGame socketId roomId
  | PlayMove roomId playedTiles => playMove socketId roomId playedTiles
  | PassTurn roomId => passTurn socketId roomId
  | ExchangeTiles rnd roomId tileIds => exchangeTiles rnd socketId roomId tileIds
  | ChatMessage now roomId message playerName => chatMessage now roomId message playerName
  | Disconnect => disconnect socketId
  end.

(** The messages of [traffic], each with the socket that sends it, handled
    in order. *)
Fixpoint serve (traffic : list (string * message)) (gameRooms : rooms)
    : outcome (list effect * rooms) :=
  match traffic with
  | [] => Returns ([], gameRooms)
  | (socketId, m) :: rest =>
      '(effects, gameRooms) ← handle socketId m gameRooms;
      '(later, gameRooms) ← serve rest gameRooms;
      Returns (effects ++ later, gameRooms)
  end.

End Server.

(** * The client: the tiles in hand

    The part of the state of the React component that holds the tiles of
    the player ([playerTiles], [boardPlacements], [draggedTile]) and the
    error shown, with the handlers that change it.  A handler runs against
    the state of the last render, and the updates it queues are applied in
    order before the next handler runs; so each handler is a function of
    the state.  What a handler emits on the socket is the message that the
    server's handler of the same name reads. *)

Module Client.

(** The premium squares as the client lists them. *)
Definition PREMIUM_SQUARES : list (string * list (Z * Z)) :=
  [("TW", [(0,0); (0,7); (0,14); (7,0); (7,14); (14,0); (14,7); (14,14)]);
   ("DW", [(1,1); (2,2); (3,3); (4,4); (1,13); (2,12); (3,11); (4,10);
           (13,1); (12,2); (11,3); (10,4); (13,13); (12,12); (11,11); (10,10); (7,7)]);
   ("TL", [(1,5); (1,9); (5,1); (5,5); (5,9); (5,13); (9,1); (9,5); (9,9); (9,13);
           (13,5); (13,9)]);
   ("DL", [(0,3); (0,11); (2,6); (2,8); (3,0); (3,7); (3,14); (6,2); (6,6); (6,8); (6,12);
           (7,3); (7,11); (8,2); (8,6); (8,8); (8,12); (11,0); (11,7); (11,14); (12,6);
           (12,8); (14,3); (14,11)])].

(** The loop over [Object.entries(PREMIUM_SQUARES)] with [positions.some]. *)
Fixpoint premium_in (table : list (string * list (Z * Z))) (row col : Z) : option string :=
  match table with
  | [] => None
  | (type, positions) :: rest =>
      if existsb (fun p : Z * Z => (p.1 =? row) && (p.2 =? col)) positions
      then Some type
      else premium_in rest row col
  end.

Definition getPremiumType (row col : Z) : option string :=
  premium_in PREMIUM_SQUARES row col.

(** The key of a square in [boardPlacements]: the template [row-col]. *)
Definition key (row col : Z) : string := pretty row +:+ "-" +:+ pretty col.

(** [boardPlacements] is the list of its properties in the order of their
    creation, which is the order of [Object.values]: no key of it is an
    array index.  [draggedTile] is the pair of [tile] and [source]. *)
Record t : Type := mk {
  playerTiles : list Tile.t;
  boardPlacements : list (string * PlayedTile.t);
  draggedTile : option (Tile.t * string);
  errorMessage : string
}.

Definition set_playerTiles (tiles : list Tile.t) (c : t) : t :=
  mk tiles (boardPlacements c) (draggedTile c) (errorMessage c).

Definition set_boardPlacements (placements : list (string * PlayedTile.t)) (c : t) : t :=
  mk (playerTiles c) placements (draggedTile c) (errorMessage c).

Definition set_draggedTile (dragged : option (Tile.t * string)) (c : t) : t :=
  mk (playerTiles c) (boardPlacements c) dragged (errorMessage c).

Definition set_errorMessage (message : string) (c : t) : t :=
  mk (playerTiles c) (boardPlacements c) (draggedTile c) message.

(** [placements[k]] *)
Definition placement (k : string) (placements : list (string * PlayedTile.t))
    : option PlayedTile.t :=
  (fun found => found.2.2) <$> list_find (fun entry => entry.1 = k) placements.

(** [{ ...placements, [k]: pt }]: a key that is there keeps its place. *)
Definition assign (k : string) (pt : PlayedTile.t) (placements : list (string * PlayedTile.t))
    : list (string * PlayedTile.t) :=
  match list_find (fun entry : string * PlayedTile.t => entry.1 = k) placements with
  | Some (i, _) => <[i := (k, pt)]> placements
  | None => placements ++ [(k, pt)]
  end.

(** [delete placements[k]] *)
Definition remove (k : string) (placements : list (string * PlayedTile.t))
    : list (string * PlayedTile.t) :=
  filter (fun entry => entry.1 ≠ k) placements.

(** [Object.values(boardPlacements)] *)
Definition values (placements : list (string * PlayedTile.t)) : list PlayedTile.t :=
  placements.*2.

(** Whether a cell of the board that the client holds is truthy. *)
Definition truthy (x : cell) : bool :=
  match x with
  | Holds _ => true
  | _ => false
  end.

Definition handleDragStart (tile : Tile.t) (source : string) (c : t) : t :=
  set_draggedTile (Some (tile, source)) c.

(** [board] is [gameState.board]; reading a row that it does not have
    raises. *)
Definition handleDropOnBoard (board : gmap (Z * Z) Tile.t) (row col : Z) (c : t) : outcome t :=
  match draggedTile c with
  | None => Returns c
  | Some (tile, source) =>
      let k := key row col in
      x ← readCell board row col;
      if truthy x || bool_decide (is_Some (placement k (boardPlacements c))) then Returns c
      else
        let c :=
          if decide (source = "rack")
          then set_playerTiles
                 (filter (fun t => Tile.id t ≠ Tile.id tile) (playerTiles c))
                 (set_boardPlacements
                    (assign k (PlayedTile.mk row col tile) (boardPlacements c)) c)
          else if decide (source = "board")
          then set_boardPlacements
                 (assign k (PlayedTile.mk row col tile) (remove source (boardPlacements c))) c
          else c in
        Returns (set_draggedTile None c)
  end.

Definition handleDropOnRack (c : t) : t :=
  match draggedTile c with
  | None => c
  | Some (tile, source) =>
      if decide (source = "rack") then c
      else set_draggedTile None
             (set_playerTiles (playerTiles c ++ [tile])
                (set_boardPlacements (remove source (boardPlacements c)) c))
  end.

(** [roomId] is [gameState.roomId]; the result holds what is emitted. *)
Definition playMove (roomId : string) (c : t) : t * option Server.message :=
  let playedTiles := values (boardPlacements c) in
  if decide (length playedTiles = 0%nat)
  then (set_errorMessage "Place at least one tile" c, None)
  else (set_boardPlacements [] c, Some (Server.PlayMove roomId playedTiles)).

Definition passTurn (roomId : string) (c : t) : t * option Server.message :=
  (set_boardPlacements []
     (set_playerTiles (playerTiles c ++ (PlayedTile.tile <$> values (boardPlacements c))) c),
   Some (Server.PassTurn roomId)).

Definition recallTiles (c : t) : t :=
  set_boardPlacements []
    (set_playerTiles (playerTiles c ++ (PlayedTile.tile <$> values (boardPlacements c))) c).

(** The listeners of the socket, on the part of the state that [t] holds:
    the other events change the state of the game and the chat only. *)
Definition on (event : Server.Event.t) (c : t) : t :=
  match event with
  | Server.Event.roomJoined _ _ _ (Some tiles) => set_playerTiles tiles c
  | Server.Event.playerState (Some tiles) => set_playerTiles tiles c
  | Server.Event.error message => set_errorMessage message c
  | _ => c
  end.

(** ** What reaches the client *)

(** The event that [e] brings to the socket [socketId], which has joined
    the rooms [joined]: [socket.emit] reaches the socket of the handler,
    [io.to(room).emit] reaches the sockets that are in the room, and every
    socket is in the room that has its own id as name. *)
Definition receives (socketId : string) (joined : list string) (e : Server.effect)
    : option Server.Event.t :=
  match e with
  | Server.Join _ _ => None
  | Server.Emit to event => if decide (to = socketId) then Some event else None
  | Server.EmitTo room event =>
      if decide (room = socketId ∨ room ∈ joined) then Some event else None
  end.

(** The listeners run on what arrives, in the order in which it was sent. *)
Definition deliver (socketId : string) (joined : list string) (effects : list Server.effect)
    (c : t) : t :=
  foldl (fun c e =>
           match receives socketId joined e with
           | Some event => on event c
           | None => c
           end)
        c effects.

(** ** Gestures *)

(** The drag of a tile of the rack, as the rack renders it. *)
Definition dragFromRack (tile : Tile.t) (c : t) : t := handleDragStart tile "rack" c.

(** The drag of the tile placed on the square (row, col), as the square
    renders it: nothing starts when the square has no placement. *)
Definition dragFromBoard (row col : Z) (c : t) : t :=
  match placement (key row col) (boardPlacements c) with
  | Some placedTile => handleDragStart (PlayedTile.tile placedTile) (key row col) c
  | None => c
  end.

End Client.

(** * Definitions used by the statements *)

(** ** Closed forms of the effects *)

(** The session after [n] rounds of [player.tiles.push(this.tileBag.pop())]
    for the player at position [i]: the last [n] tiles of the bag, taken
    from its end, follow the rack. *)
Definition dealt (i n : nat) (s : ScrabbleGame) : ScrabbleGame :=
  let bag := tileBag s in
  mkGame (roomId s)
         (alter (fun p => set_tiles (Player.tiles p ++ reverse (drop (length bag - n) bag)) p)
                i (players s))
         (currentPlayerIndex s) (board s)
         (take (length bag - n) bag)
         (gameStarted s) (firstMoveMade s) (hostId s).

(** The session after [nextTurn]. *)
Definition turn_advanced (s : ScrabbleGame) : ScrabbleGame :=
  set_currentPlayerIndex ((currentPlayerIndex s + 1) mod length (players s))%nat s.

(** The session after [dealTiles] for the player at position [i]. *)
Definition tiles_dealt (i count : nat) (s : ScrabbleGame) : ScrabbleGame :=
  dealt i (count `min` length (tileBag s)) s.

(** The board after the loop of [playMove] that writes the tiles. *)
Definition placed (playedTiles : list PlayedTile.t) (b : gmap (Z * Z) Tile.t)
    : gmap (Z * Z) Tile.t :=
  foldl (fun b pt => <[(PlayedTile.row pt, PlayedTile.col pt) := PlayedTile.tile pt]> b)
        b playedTiles.

Definition played_ids (playedTiles : list PlayedTile.t) : gset string :=
  list_to_set ((fun pt => Tile.id (PlayedTile.tile pt)) <$> playedTiles).

(** The session a successful [playMove] leaves, for the player at
    position [i] and the score [score]. *)
Definition moved (i : nat) (score : Z) (playedTiles : list PlayedTile.t) (s : ScrabbleGame)
    : ScrabbleGame :=
  let s1 := set_board (placed playedTiles (board s)) s in
  let s2 := set_players (alter (fun p => set_score (Number.plus (Player.score p) score) p) i
                                   (players s1)) s1 in
  let s3 := set_players
              (alter (fun p => set_tiles
                        (filter (fun t => Tile.id t ∉ played_ids playedTiles) (Player.tiles p)) p)
                     i (players s2)) s2 in
  let s4 := tiles_dealt i (length playedTiles) s3 in
  turn_advanced (set_firstMoveMade true s4).

(** The session a successful [exchangeTiles] leaves, for the player
    [player] found at position [i]. *)
Definition exchanged (rnd : nat -> nat) (i : nat) (player : Player.t) (tileIds : list string)
    (s : ScrabbleGame) : ScrabbleGame :=
  let exchangedTiles := filter (fun t => Tile.id t ∈ tileIds) (Player.tiles player) in
  let s1 := set_players
              (alter (fun p => set_tiles
                        (filter (fun t => Tile.id t ∉ tileIds) (Player.tiles p)) p)
                     i (players s)) s in
  let s2 := set_tileBag (tileBag s1 ++ exchangedTiles) s1 in
  let s3 := set_tileBag (shuffle rnd (tileBag s2)) s2 in
  let s4 := tiles_dealt i (length exchangedTiles) s3 in
  turn_advanced s4.

(** ** Requests *)

(** The operations of a session, as the socket handlers call them. *)
Inductive request : Type :=
  | AddPlayer (socketId name : string)
  | RemovePlayer (socketId : string)
  | StartGame
  | PlayMove (playerId : string) (playedTiles : list PlayedTile.t)
  | PassTurn (playerId : string)
  | ExchangeTiles (rnd : nat -> nat) (playerId : string) (tileIds : list string).

Definition perform (rq : request) : M unit :=
  match rq with
  | AddPlayer socketId name => _ ← addPlayer socketId name; mret tt
  | RemovePlayer socketId => removePlayer socketId
  | StartGame => _ ← startGame; mret tt
  | PlayMove playerId playedTiles => _ ← playMove playerId playedTiles; mret tt
  | PassTurn playerId => _ ← passTurn playerId; mret tt
  | ExchangeTiles rnd playerId tileIds => _ ← exchangeTiles rnd playerId tileIds; mret tt
  end.

Fixpoint perform_all (rqs : list request) : M unit :=
  match rqs with
  | [] => mret tt
  | rq :: rest => _ ← perform rq; perform_all rest
  end.

(** ** Turn order *)

(** The turn index names a player, or the list is empty and the index is
    at its start. *)
Definition turn_index_ok (s : ScrabbleGame) : Prop :=
  (currentPlayerIndex s < length (players s))%nat ∨
  (players s = [] ∧ currentPlayerIndex s = 0%nat).

(** The session after [removePlayer] took out the player at [index]. *)
Definition removed (index : nat) (removedPlayer : Player.t) (s : ScrabbleGame) : ScrabbleGame :=
  let ps := delete index (players s) in
  let promote := Player.isHost removedPlayer && bool_decide (0 < length ps)%nat in
  let ps' := if promote then alter (set_isHost true) 0%nat ps else ps in
  mkGame (roomId s) ps'
         (if decide (length ps' <= currentPlayerIndex s)%nat then 0%nat
          else currentPlayerIndex s)
         (board s)
         (tileBag s ++ Player.tiles removedPlayer)
         (gameStarted s) (firstMoveMade s)
         (if promote then Player.id <$> ps' !! 0%nat else hostId s).

(** ** Sessions used as instances *)

Definition sample_rnd : nat -> nat := fun k => (7 * k + 3)%nat.

(** The session after the requests [rqs], when none of them raises. *)
Definition after (rqs : list request) (s : ScrabbleGame) : ScrabbleGame :=
  match perform_all rqs s with
  | Returns (_, s') => s'
  | Throws => s
  end.

Definition three_in_lobby : ScrabbleGame :=
  after [AddPlayer "a" "Ann"; AddPlayer "b" "Bob"; AddPlayer "c" ""] (newGame sample_rnd "room").

Definition three_playing : ScrabbleGame := after [StartGame] three_in_lobby.

(** ** What the public view leaves out *)

(** Two players that differ at most in which tiles they hold. *)
Definition same_player_outside_rack (p q : Player.t) : Prop :=
  Player.id p = Player.id q ∧ Player.name p = Player.name q ∧
  Player.score p = Player.score q ∧ Player.isHost p = Player.isHost q ∧
  length (Player.tiles p) = length (Player.tiles q).

(** Two sessions that differ at most in which tiles the racks and the bag
    hold. *)
Definition same_outside_racks (s1 s2 : ScrabbleGame) : Prop :=
  roomId s1 = roomId s2 ∧
  Forall2 same_player_outside_rack (players s1) (players s2) ∧
  currentPlayerIndex s1 = currentPlayerIndex s2 ∧
  board s1 = board s2 ∧
  gameStarted s1 = gameStarted s2 ∧
  length (tileBag s1) = length (tileBag s2) ∧
  hostId s1 = hostId s2.

(** [three_playing] with every rack reversed and the bag reversed. *)
Definition racks_swapped : ScrabbleGame :=
  set_tileBag (reverse (tileBag three_playing))
    (set_players ((fun p => set_tiles (reverse (Player.tiles p)) p) <$> players three_playing)
                 three_playing).

(** ** Premium squares *)

(** The coordinates listed under a key of [PREMIUM_SQUARES]. *)
Definition premium_positions (key : string) : list (Z * Z) :=
  default [] (table_get PREMIUM_SQUARES key).

(** The center is kept out of the double-word list, and the premium of the
    center of an empty board is not the double word. *)
Definition center_outside_DW_table : Prop :=
  ((7, 7) ∉ premium_positions "DW") ∧
  getPremiumSquare (newGame sample_rnd "room") 7 7 ≠ Returns (Some "DW").

(** ** Reasons of a rejection *)

Definition validation_reasons : list string :=
  ["No tiles played";
   "First word must cross the center square";
   "Tiles must be in a single row or column";
   "Tiles must be contiguous";
   "New tiles must connect to existing tiles"].

Definition move_reasons : list string := "Not your turn" :: validation_reasons.

Definition exchange_reasons : list string := ["Not your turn"; "Not enough tiles in bag"].

(** ** Exchanges *)

(** The draws under which the loop of [shuffle] on [n] elements takes
    [j = i] in every round. *)
Definition still (n : nat) : nat -> nat := fun k => (n - 1 - k)%nat.

(** The tiles [exchangeTiles tileIds] takes from a rack, and those it
    leaves. *)
Definition returned (tileIds : list string) (rack : list Tile.t) : list Tile.t :=
  filter (fun t => Tile.id t ∈ tileIds) rack.

Definition kept (tileIds : list string) (rack : list Tile.t) : list Tile.t :=
  filter (fun t => Tile.id t ∉ tileIds) rack.

(** C5 as stated: after a successful exchange the rack holds none of the
    tiles that the exchange returned. *)
Definition exchange_never_redraws : Prop :=
  forall (rnd : nat -> nat) (s s' : ScrabbleGame) (playerId : string) (tileIds : list string)
         (i : nat) (p p' : Player.t),
    turn_guard s playerId = Returns (Some (i, p)) ->
    (length tileIds <= length (tileBag s))%nat ->
    exchangeTiles rnd playerId tileIds s = Returns (Success None, s') ->
    players s' !! i = Some p' ->
    forall t, t ∈ returned tileIds (Player.tiles p) -> t ∉ Player.tiles p'.

(** ** Tile conservation *)

(** What a tile shows: its letter and its value. *)
Definition face (t : Tile.t) : string * Z := (Tile.letter t, Tile.value t).

(** The 100 tiles of the English distribution, by letter, each with the
    value of its letter. *)
Definition canonical_distribution : list (string * Z) :=
  concat ((fun '(letter, count) =>
             replicate count (letter, default 0 (table_get TILE_VALUES letter)))
          <$> TILE_DISTRIBUTION).

Definition rack_tiles (ps : list Player.t) : list Tile.t := concat (Player.tiles <$> ps).

Definition board_tiles (b : gmap (Z * Z) Tile.t) : list Tile.t := (map_to_list b).*2.

(** Every tile of a session: bag, racks, board. *)
Definition all_tiles (s : ScrabbleGame) : list Tile.t :=
  tileBag s ++ rack_tiles (players s) ++ board_tiles (board s).

(** The tiles of the session are the canonical distribution, and no id
    occurs twice among them. *)
Definition conserved (s : ScrabbleGame) : Prop :=
  face <$> all_tiles s ≡ₚ canonical_distribution ∧
  NoDup (Tile.id <$> all_tiles s).

Definition cell_of (pt : PlayedTile.t) : Z * Z := (PlayedTile.row pt, PlayedTile.col pt).

(** The placed tiles are tiles of the mover's rack, each placed once, and
    they go onto cells of the board that are empty, one tile to a cell. *)
Definition drawn_onto_empty (s : ScrabbleGame) (playerId : string)
    (playedTiles : list PlayedTile.t) : Prop :=
  forall i p, find_player playerId (players s) = Some (i, p) ->
    (PlayedTile.tile <$> playedTiles) ⊆+ Player.tiles p ∧
    NoDup (cell_of <$> playedTiles) ∧
    Forall (fun pt => readCell (board s) (PlayedTile.row pt) (PlayedTile.col pt) = Returns Null)
           playedTiles.

Definition well_formed (s : ScrabbleGame) (rq : request) : Prop :=
  match rq with
  | PlayMove playerId playedTiles => drawn_onto_empty s playerId playedTiles
  | _ => True
  end.

(** Every [playMove] of the sequence is well formed in the session it is
    performed in. *)
Fixpoint all_well_formed (rqs : list request) (s : ScrabbleGame) : Prop :=
  match rqs with
  | [] => True
  | rq :: rest =>
      well_formed s rq ∧
      match perform rq s with
      | Returns (_, s') => all_well_formed rest s'
      | Throws => True
      end
  end.

(** A game of three: the first move of "a" on the center, an exchange by
    "b", the departure of "c", and a pass by "a". *)
Definition sample_game : list request :=
  [AddPlayer "a" "Ann"; AddPlayer "b" "Bob"; AddPlayer "c" ""; StartGame;
   PlayMove "a" [PlayedTile.mk 7 7 (Tile.mk "A" 1 "A-3-0.24");
                 PlayedTile.mk 7 8 (Tile.mk "E" 1 "E-0-0.122")];
   ExchangeTiles sample_rnd "b" ["A-8-0.59"];
   RemovePlayer "c";
   PassTurn "a"].

(** C1 as stated, for one move: every placed tile is a tile of the mover's
    rack and every target cell is empty, and the move keeps the tiles
    conserved. *)
Definition moves_from_rack_conserve : Prop :=
  forall (s s' : ScrabbleGame) (playerId : string) (playedTiles : list PlayedTile.t)
         (r : result),
    conserved s ->
    (forall i p, find_player playerId (players s) = Some (i, p) ->
       Forall (fun pt =>
                 PlayedTile.tile pt ∈ Player.tiles p ∧
                 readCell (board s) (PlayedTile.row pt) (PlayedTile.col pt) = Returns Null)
              playedTiles) ->
    playMove playerId playedTiles s = Returns (r, s') ->
    conserved s'.

(** ** The line of a move *)

(** The least and the greatest of a coordinate [x] and the coordinates [l]. *)
Definition least (x : Z) (l : list Z) : Z := foldr Z.min x l.
Definition greatest (x : Z) (l : list Z) : Z := foldr Z.max x l.

(** The inclusive range from the minimum to the maximum of [coords]. *)
Definition min_to_max (coords : list Z) : list Z :=
  match coords with
  | [] => []
  | x :: l => seqZ (least x l) (greatest x l - least x l + 1)
  end.

Definition rows_of (playedTiles : list PlayedTile.t) : gset Z :=
  list_to_set (PlayedTile.row <$> playedTiles).

Definition cols_of (playedTiles : list PlayedTile.t) : gset Z :=
  list_to_set (PlayedTile.col <$> playedTiles).

(** The cells of the line of the placements over the range from the least
    to the greatest placed coordinate: along the row when the placements
    have one row, else along the column. *)
Definition line_cells (playedTiles : list PlayedTile.t) : list (Z * Z) :=
  if decide (size (rows_of playedTiles) = 1%nat)
  then (fun c => (default 0 (head (PlayedTile.row <$> playedTiles)), c))
         <$> min_to_max (PlayedTile.col <$> playedTiles)
  else (fun r => (r, default 0 (head (PlayedTile.col <$> playedTiles))))
         <$> min_to_max (PlayedTile.row <$> playedTiles).

(** A placement lies on the 15 x 15 board. *)
Definition on_board (pt : PlayedTile.t) : Prop :=
  on_axis (PlayedTile.row pt) = true ∧ on_axis (PlayedTile.col pt) = true.

(** The cell (r, c) of the 15 x 15 board held a tile before the move. *)
Definition holds_tile (s : ScrabbleGame) (r c : Z) : bool :=
  on_axis r && on_axis c && bool_decide (is_Some (board s !! (r, c))).

(** The move places a tile at the cell (r, c). *)
Definition placed_at (playedTiles : list PlayedTile.t) (r c : Z) : bool :=
  existsb (fun pt => (PlayedTile.row pt =? r) && (PlayedTile.col pt =? c)) playedTiles.

(** ** Move validation, as the specification words it *)

(** Check 1: the placement set is not empty. *)
Definition check_nonempty (playedTiles : list PlayedTile.t) : bool :=
  negb (bool_decide (playedTiles = [])).

(** Check 2: before the opening move, the set contains (7,7). *)
Definition check_center (s : ScrabbleGame) (playedTiles : list PlayedTile.t) : bool :=
  firstMoveMade s || placed_at playedTiles 7 7.

(** Check 3: not both more than one row and more than one column. *)
Definition check_single_line (playedTiles : list PlayedTile.t) : bool :=
  negb (bool_decide (1 < size (rows_of playedTiles))%nat &&
        bool_decide (1 < size (cols_of playedTiles))%nat).

(** Check 4: every cell of the line from the least to the greatest placed
    coordinate is covered by a new placement or by a tile on the board. *)
Definition check_contiguous (s : ScrabbleGame) (playedTiles : list PlayedTile.t) : bool :=
  forallb (fun cell => placed_at playedTiles cell.1 cell.2 || holds_tile s cell.1 cell.2)
          (line_cells playedTiles).

(** The four cells next to (r, c). *)
Definition adjacent (r c : Z) : list (Z * Z) :=
  [(r - 1, c); (r + 1, c); (r, c - 1); (r, c + 1)].

(** Check 5: after the opening move, a placed tile is next to a tile on
    the board. *)
Definition check_connected (s : ScrabbleGame) (playedTiles : list PlayedTile.t) : bool :=
  negb (firstMoveMade s) ||
  existsb (fun pt => existsb (fun n => holds_tile s n.1 n.2)
                             (adjacent (PlayedTile.row pt) (PlayedTile.col pt)))
          playedTiles.

(** The checks in their order; the first that fails gives the reason. *)
Definition spec_validateMove (s : ScrabbleGame) (playedTiles : list PlayedTile.t) : validation :=
  if negb (check_nonempty playedTiles) then Invalid "No tiles played"
  else if negb (check_center s playedTiles)
  then Invalid "First word must cross the center square"
  else if negb (check_single_line playedTiles)
  then Invalid "Tiles must be in a single row or column"
  else if negb (check_contiguous s playedTiles) then Invalid "Tiles must be contiguous"
  else if negb (check_connected s playedTiles)
  then Invalid "New tiles must connect to existing tiles"
  else Valid.

(** C4 as stated: for every placement set, on the board or not, the
    verdict is that of the five checks. *)
Definition checks_every_placement_set : Prop :=
  forall (s : ScrabbleGame) (playedTiles : list PlayedTile.t),
    validateMove s playedTiles = Returns (spec_validateMove s playedTiles).

(** [three_playing] after an opening move of "a" along row 7, from the
    center to column 13. *)
Definition row_to_13 : ScrabbleGame :=
  after [PlayMove "a" ((fun c => PlayedTile.mk 7 c (Tile.mk "X" 8 ("fake-" +:+ pretty c)))
                         <$> seqZ 7 7)]
        three_playing.

(** Two tiles of row 7, on column 14 and past the edge on column 16. *)
Definition over_the_edge : list PlayedTile.t :=
  [PlayedTile.mk 7 14 (Tile.mk "A" 1 "A-8-0.59");
   PlayedTile.mk 7 16 (Tile.mk "E" 1 "E-9-0.66")].

(** ** The score, as the specification words it *)















(** ** Moves with tiles that are not in the rack *)

(** No id of a placed tile is the id of a tile of [rack]. *)
Definition foreign_to (rack : list Tile.t) (playedTiles : list PlayedTile.t) : Prop :=
  Forall (fun pt => Tile.id (PlayedTile.tile pt) ∉ (Tile.id <$> rack)) playedTiles.

(** Fifteen tiles that no bag holds, along row 7. *)
Definition foreign_row : list PlayedTile.t :=
  (fun c => PlayedTile.mk 7 c (Tile.mk "X" 8 ("fake-" +:+ pretty c))) <$> seqZ 0 15.

(** [three_playing] after six moves of [foreign_row], two by each player:
    each deals 15 tiles, the last the 4 that are left of the 79. *)
Definition bag_drained : ScrabbleGame :=
  after [PlayMove "a" foreign_row; PlayMove "b" foreign_row; PlayMove "c" foreign_row;
         PlayMove "a" foreign_row; PlayMove "b" foreign_row; PlayMove "c" foreign_row]
        three_playing.

(** C9 as stated: a valid move of the current player with tiles foreign to
    the rack leaves the rack strictly larger. *)
Definition foreign_move_grows_rack : Prop :=
  forall (s s' : ScrabbleGame) (playerId : string) (playedTiles : list PlayedTile.t)
         (i : nat) (p p' : Player.t) (r : result),
    turn_guard s playerId = Returns (Some (i, p)) ->
    Forall on_board playedTiles ->
    validateMove s playedTiles = Returns Valid ->
    foreign_to (Player.tiles p) playedTiles ->
    playMove playerId playedTiles s = Returns (r, s') ->
    players s' !! i = Some p' ->
    (length (Player.tiles p) < length (Player.tiles p'))%nat.

(** * Definitions used by the further statements *)

(** ** The roster *)

(** What [addPlayer] and [removePlayer] settle of a player: id and host
    flag. *)
Definition role (p : Player.t) : string * bool := (Player.id p, Player.isHost p).

(** The first player of the list is the host, no other player is, and
    [hostId] is the id of the first player. *)
Definition host_first (s : ScrabbleGame) : Prop :=
  match players s with
  | [] => True
  | p :: rest =>
      Player.isHost p = true ∧
      Forall (fun q => Player.isHost q = false) rest ∧
      hostId s = Some (Player.id p)
  end.

(** The session after [removePlayer socketId]. *)
Definition without (socketId : string) (s : ScrabbleGame) : ScrabbleGame :=
  match find_player socketId (players s) with
  | Some (index, removedPlayer) => removed index removedPlayer s
  | None => s
  end.

(** ** Dealing at the start *)

(** The tiles [startGame] deals to the player at position [k] from the bag
    [bag]: what the bag still holds of its tiles [7k .. 7k+6] counted from
    the end, the last tile first. *)
Definition share (bag : list Tile.t) (k : nat) : list Tile.t :=
  reverse (drop (length bag - 7 * (k + 1)) (take (length bag - 7 * k) bag)).

(** The session after the loop of [startGame] dealt to the players at
    positions [i .. i+n-1]. *)
Definition dealt_all (i n : nat) (s : ScrabbleGame) : ScrabbleGame :=
  mkGame (roomId s)
         (imap (fun k p => if decide (i <= k < i + n)%nat
                           then set_tiles (Player.tiles p ++ share (tileBag s) (k - i)) p
                           else p)
               (players s))
         (currentPlayerIndex s) (board s)
         (take (length (tileBag s) - 7 * n) (tileBag s))
         (gameStarted s) (firstMoveMade s) (hostId s).

(** ** The board after a move *)

(** The tile that the loop of [playMove] leaves at [cell]: that of the last
    placement on the cell. *)
Definition last_placed (playedTiles : list PlayedTile.t) (cell : Z * Z) : option Tile.t :=
  PlayedTile.tile <$> last (filter (fun pt => cell_of pt = cell) playedTiles).

(** ** What no operation undoes *)

(** [s'] has the room of [s], its flags when they are set, and a tile on
    every cell where [s] has one. *)
Definition not_undone (s s' : ScrabbleGame) : Prop :=
  roomId s' = roomId s ∧
  (gameStarted s = true -> gameStarted s' = true) ∧
  (firstMoveMade s = true -> firstMoveMade s' = true) ∧
  (forall cell, is_Some (board s !! cell) -> is_Some (board s' !! cell)).

(** ** Results under another session *)

(** The result of an operation, with [f] applied to the session it leaves. *)
Definition with_session {A : Type} (f : ScrabbleGame -> ScrabbleGame)
    (o : outcome (A * ScrabbleGame)) : outcome (A * ScrabbleGame) :=
  match o with
  | Returns (a, s) => Returns (a, f s)
  | Throws => Throws
  end.

(** ** Sample moves *)

(** Two tiles of the rack of "a" in [three_playing], on the center and next
    to it. *)
Definition opening_move : list PlayedTile.t :=
  [PlayedTile.mk 7 7 (Tile.mk "A" 1 "A-3-0.24");
   PlayedTile.mk 7 8 (Tile.mk "E" 1 "E-0-0.122")].

(** The same two tiles, both on the center. *)
Definition overlapping_move : list PlayedTile.t :=
  [PlayedTile.mk 7 7 (Tile.mk "A" 1 "A-3-0.24");
   PlayedTile.mk 7 7 (Tile.mk "E" 1 "E-0-0.122")].

(** ** Rounds of passes *)

(** [k] passes in a row, each by the player whose turn it is; without a
    current player nobody passes. *)
Fixpoint passes (k : nat) (s : ScrabbleGame) : outcome ScrabbleGame :=
  match k with
  | O => Returns s
  | S k =>
      match getCurrentPlayer s with
      | Some p => '(_, s) ← passTurn (Player.id p) s; passes k s
      | None => Returns s
      end
  end.

(** ** The registry in order *)

(** A session of the registry: it is filed under its own id, which is not a
    name that the registry inherits; it has from one to four players, the
    first of them the host and the only one, and its turn index names a
    player. *)
Definition room_ok (entry : string * ScrabbleGame) : Prop :=
  roomId entry.2 = entry.1 ∧ (entry.1 ∉ Server.OBJECT_PROTOTYPE) ∧
  (1 <= length (players (snd entry)) <= 4)%nat ∧
  host_first entry.2 ∧
  (currentPlayerIndex entry.2 < length (players entry.2))%nat.

Definition registry_ok (gameRooms : Server.rooms) : Prop :=
  NoDup gameRooms.*1 ∧ Forall room_ok gameRooms.

(** A lobby of two rooms, a move in the first, and the departure of the
    host of the second. *)
Definition sample_traffic : list (string * Server.message) :=
  [("a", Server.CreateRoom sample_rnd "room" "Ann");
   ("b", Server.JoinRoom "room" "Bob");
   ("c", Server.CreateRoom sample_rnd "7" "");
   ("d", Server.JoinRoom "7" "Dan");
   ("a", Server.StartGame "room");
   ("a", Server.PlayMove "room" opening_move);
   ("b", Server.ChatMessage 0 "room" "hello" "Bob");
   ("c", Server.Disconnect)].

(** ** To whom a rack is sent *)

(** The state of a player that an effect carries, with the socket or the
    room it is addressed to. *)
Definition rack_sent (e : Server.effect) : option (string * option (list Tile.t)) :=
  match e with
  | Server.Emit socketId (Server.Event.roomJoined _ _ _ state) => Some (socketId, state)
  | Server.Emit socketId (Server.Event.playerState state) => Some (socketId, state)
  | Server.EmitTo room (Server.Event.roomJoined _ _ _ state) => Some (room, state)
  | Server.EmitTo room (Server.Event.playerState state) => Some (room, state)
  | _ => None
  end.

(** The state that [e] carries is the state that a session of [gameRooms]
    gives for the id that [e] is addressed to; [e] goes to the socket
    [socketId] itself, or to the id of a player of that session. *)
Definition rack_to_owner (socketId : string) (gameRooms : Server.rooms) (e : Server.effect)
    : Prop :=
  forall address state,
    rack_sent e = Some (address, state) ->
    exists roomId game,
      (roomId, game) ∈ gameRooms ∧
      state = getPlayerState game address ∧
      (e = Server.Emit socketId
             (Server.Event.roomJoined roomId socketId (getGameState game) state) ∨
       e = Server.Emit socketId (Server.Event.playerState state) ∨
       e = Server.EmitTo address (Server.Event.playerState state) ∧
       address ∈ Player.id <$> players game).

(** ** Leaving every room *)

(** The rooms that [disconnect] leaves: each room without the first player
    of the socket, the rooms then empty dropped. *)
Definition vacated (socketId : string) (gameRooms : Server.rooms) : Server.rooms :=
  filter (fun entry => players entry.2 ≠ [])
         ((fun entry : string * ScrabbleGame => (entry.1, without socketId entry.2))
            <$> gameRooms).

(** ** The tiles in hand *)

(** The tiles that the client shows as the player's: the rack and the
    placements. *)
Definition held (c : Client.t) : list Tile.t :=
  Client.playerTiles c ++ (PlayedTile.tile <$> Client.values (Client.boardPlacements c)).

(** What the player does with the tiles: a drag of a tile that the rack or
    a square of the board renders, ended by a drop on a square or on the
    rack, and the two buttons that take the placements back.  [i] is a
    position in the rack, (r, c) the square of a placement. *)
Inductive gesture : Type :=
  | RackToBoard (i : nat) (board : gmap (Z * Z) Tile.t) (row col : Z)
  | RackToRack (i : nat)
  | BoardToBoard (r c : Z) (board : gmap (Z * Z) Tile.t) (row col : Z)
  | BoardToRack (r c : Z)
  | Recall
  | Pass (roomId : string).

(** A drag that finds no tile starts nothing, and no drop follows it. *)
Definition act (g : gesture) (c : Client.t) : outcome Client.t :=
  match g with
  | RackToBoard i board row col =>
      match Client.playerTiles c !! i with
      | Some tile => Client.handleDropOnBoard board row col (Client.dragFromRack tile c)
      | None => Returns c
      end
  | RackToRack i =>
      match Client.playerTiles c !! i with
      | Some tile => Returns (Client.handleDropOnRack (Client.dragFromRack tile c))
      | None => Returns c
      end
  | BoardToBoard r c0 board row col =>
      match Client.placement (Client.key r c0) (Client.boardPlacements c) with
      | Some _ => Client.handleDropOnBoard board row col (Client.dragFromBoard r c0 c)
      | None => Returns c
      end
  | BoardToRack r c0 =>
      match Client.placement (Client.key r c0) (Client.boardPlacements c) with
      | Some _ => Returns (Client.handleDropOnRack (Client.dragFromBoard r c0 c))
      | None => Returns c
      end
  | Recall => Returns (Client.recallTiles c)
  | Pass roomId => Returns (Client.passTurn roomId c).1
  end.

Fixpoint act_all (gs : list gesture) (c : Client.t) : outcome Client.t :=
  match gs with
  | [] => Returns c
  | g :: rest => c ← act g c; act_all rest c
  end.

(** Whether the character occurs in the text. *)
Fixpoint mentions (ch : ascii) (text : string) : bool :=
  match text with
  | EmptyString => false
  | String x rest => bool_decide (x = ch) || mentions ch rest
  end.

(** No key of the placements twice, no tile id twice among the tiles in
    hand. *)
Definition tidy (c : Client.t) : Prop :=
  NoDup (Client.boardPlacements c).*1 ∧ NoDup (Tile.id <$> held c).

(** The squares that the board renders. *)
Definition rendered (row col : Z) : Prop := on_axis row = true ∧ on_axis col = true.

(** A rack of three with one tile on the center. *)
Definition sample_client : Client.t :=
  Client.mk [Tile.mk "A" 1 "A-3-0.24"; Tile.mk "E" 1 "E-0-0.122"; Tile.mk "Q" 10 "Q-0-0.5"]
            [(Client.key 7 7, PlayedTile.mk 7 7 (Tile.mk "T" 1 "T-1-0.9"))]
            None "".

(** * Properties *)

(** ** Running the monad *)

#[local] Arguments reverse : simpl never.
#[local] Arguments Nat.modulo : simpl never.
#[local] Arguments Nat.sub : simpl never.

Ltac run_monad :=
  repeat (progress (unfold mbind, M_bind, mret, M_ret, get, modify, lift, update_player;
                    cbn beta iota)).

Lemma session_eta (s : ScrabbleGame) :
  mkGame (roomId s) (players s) (currentPlayerIndex s) (board s) (tileBag s)
         (gameStarted s) (firstMoveMade s) (hostId s) = s.
Proof. destruct s; reflexivity. Qed.

Lemma player_eta (p : Player.t) :
  Player.mk (Player.id p) (Player.name p) (Player.score p) (Player.tiles p)
            (Player.isHost p) = p.
Proof. destruct p; reflexivity. Qed.

(** ** Dealing *)

Lemma dealt_zero i s : dealt i 0 s = s.
Proof.
  unfold dealt. rewrite Nat.sub_0_r, take_ge, drop_ge by lia.
  rewrite list_alter_id; [apply session_eta |].
  intros p. unfold set_tiles. rewrite app_nil_r. apply player_eta.
Qed.

Lemma deal_loop_dealt i n s :
  (n <= length (tileBag s))%nat -> deal_loop i n s = Returns (tt, dealt i n s).
Proof.
  revert s. induction n as [|n IH]; intros s Hn.
  - cbn. rewrite dealt_zero. reflexivity.
  - destruct s as [room ps cpi b bag gs fm h]. cbn in Hn.
    destruct (exists_last (l := bag)) as (l & t & ->).
    { intros ->. cbn in Hn. lia. }
    rewrite length_app in Hn. cbn in Hn.
    cbn [deal_loop]. run_monad. unfold deal_one. run_monad. cbn.
    rewrite last_snoc. run_monad. cbn.
    rewrite removelast_last, IH by (cbn; lia).
    unfold dealt. cbn. f_equal. f_equal. f_equal.
    + rewrite list_alter_alter_eq. apply list_alter_ext; [|done].
      intros p _. unfold set_tiles. cbn. f_equal.
      rewrite length_app. cbn.
      replace (length l + 1 - S n)%nat with (length l - n)%nat by lia.
      rewrite drop_app_le by lia. rewrite reverse_snoc.
      rewrite <- app_assoc. reflexivity.
    + rewrite length_app. cbn.
      replace (length l + 1 - S n)%nat with (length l - n)%nat by lia.
      rewrite take_app_le by lia. reflexivity.
Qed.

Lemma dealTiles_dealt i count s :
  dealTiles i count s = Returns (tt, dealt i (count `min` length (tileBag s)) s).
Proof.
  unfold dealTiles. run_monad. apply deal_loop_dealt. lia.
Qed.

Lemma tiles_dealt_run i count s : dealTiles i count s = Returns (tt, tiles_dealt i count s).
Proof. apply dealTiles_dealt. Qed.

Lemma dealt_frame i n s :
  length (players (dealt i n s)) = length (players s) ∧
  currentPlayerIndex (dealt i n s) = currentPlayerIndex s ∧
  board (dealt i n s) = board s ∧
  gameStarted (dealt i n s) = gameStarted s ∧
  firstMoveMade (dealt i n s) = firstMoveMade s ∧
  hostId (dealt i n s) = hostId s ∧
  roomId (dealt i n s) = roomId s.
Proof. unfold dealt; cbn. rewrite length_alter. done. Qed.

(** ** The guard on the turn *)

Lemma turn_guard_Some s playerId i p :
  turn_guard s playerId = Returns (Some (i, p)) ->
  find_player playerId (players s) = Some (i, p) ∧
  players s !! i = Some p ∧ Player.id p = playerId ∧
  (exists current, getCurrentPlayer s = Some current ∧ Player.id current = playerId).
Proof.
  unfold turn_guard. destruct (find_player _ _) as [[j q]|] eqn:Hf; [|done].
  destruct (getCurrentPlayer s) as [cur|] eqn:Hc; [|done].
  case_decide; [|done]. intros [= -> ->].
  apply list_find_Some in Hf as Hf'. destruct Hf' as (Hl & Hid & _).
  eauto 10.
Qed.

Lemma turn_guard_current s p :
  getCurrentPlayer s = Some p ->
  exists i q, turn_guard s (Player.id p) = Returns (Some (i, q)).
Proof.
  intros Hc. unfold turn_guard.
  destruct (find_player _ _) as [[j q]|] eqn:Hf.
  - rewrite Hc. rewrite decide_True by done. eauto.
  - apply list_find_None in Hf. unfold getCurrentPlayer in Hc.
    apply list_elem_of_lookup_2 in Hc.
    rewrite Forall_forall in Hf. exfalso. by eapply Hf.
Qed.

Lemma turn_guard_other s playerId :
  (forall p, getCurrentPlayer s = Some p -> Player.id p ≠ playerId) ->
  (players s ≠ [] -> currentPlayerIndex s < length (players s))%nat ->
  turn_guard s playerId = Returns None.
Proof.
  intros Hother Hok. unfold turn_guard.
  destruct (find_player _ _) as [[j q]|] eqn:Hf; [|done].
  apply list_find_Some in Hf as (Hl & _).
  destruct (getCurrentPlayer s) as [cur|] eqn:Hc.
  - rewrite decide_False; [done|]. by apply Hother.
  - unfold getCurrentPlayer in Hc. apply lookup_ge_None in Hc.
    assert (players s ≠ []) as Hne by (intros E; rewrite E in Hl; done).
    specialize (Hok Hne). lia.
Qed.

(** ** Closed forms of the operations *)

Lemma nextTurn_run s : nextTurn s = Returns (tt, turn_advanced s).
Proof. reflexivity. Qed.

Lemma passTurn_inv playerId s r s' :
  passTurn playerId s = Returns (r, s') ->
  (r = Failure "Not your turn" ∧ s' = s ∧ turn_guard s playerId = Returns None) ∨
  (r = Success None ∧ s' = turn_advanced s ∧
   exists i p, turn_guard s playerId = Returns (Some (i, p))).
Proof.
  unfold passTurn. run_monad.
  destruct (turn_guard s playerId) as [[[i p]|]|]; cbn; [| |done].
  - intros [= <- <-]. right. eauto.
  - intros [= <- <-]. left. eauto.
Qed.

Lemma place_tiles_placed playedTiles s s' :
  place_tiles playedTiles s = Returns (tt, s') ->
  s' = set_board (placed playedTiles (board s)) s.
Proof.
  revert s. induction playedTiles as [|pt rest IH]; intros s.
  - cbn. intros [= <-]. unfold set_board. by rewrite session_eta.
  - cbn [place_tiles]. run_monad. unfold place_tile.
    destruct (on_axis (PlayedTile.row pt)); [|done].
    intros H. apply IH in H. rewrite H. reflexivity.
Qed.

Lemma place_tiles_returns playedTiles s :
  Forall (fun pt => on_axis (PlayedTile.row pt) = true) playedTiles ->
  place_tiles playedTiles s = Returns (tt, set_board (placed playedTiles (board s)) s).
Proof.
  intros Hall. revert s. induction Hall as [|pt rest Hpt _ IH]; intros s.
  - cbn. unfold set_board. by rewrite session_eta.
  - cbn [place_tiles]. run_monad. unfold place_tile. rewrite Hpt.
    rewrite IH. reflexivity.
Qed.

Lemma playMove_inv playerId playedTiles s r s' :
  playMove playerId playedTiles s = Returns (r, s') ->
  (s' = s ∧
   ((r = Failure "Not your turn" ∧ turn_guard s playerId = Returns None) ∨
    (exists error, r = Failure error ∧
       validateMove s playedTiles = Returns (Invalid error)))) ∨
  (exists i p score,
     turn_guard s playerId = Returns (Some (i, p)) ∧
     validateMove s playedTiles = Returns Valid ∧
     calculateScore s playedTiles = Returns score ∧
     r = Success (Some score) ∧ s' = moved i score playedTiles s).
Proof.
  unfold playMove. run_monad.
  destruct (turn_guard s playerId) as [[[i p]|]|]; cbn; [| |done].
  2:{ intros [= <- <-]. left. eauto. }
  destruct (validateMove s playedTiles) as [[|error]|]; cbn; [| |done].
  2:{ intros [= <- <-]. left. eauto. }
  destruct (calculateScore s playedTiles) as [score|]; cbn; [|done].
  destruct (place_tiles playedTiles s) as [[[] s1]|] eqn:Hp; [|done].
  apply place_tiles_placed in Hp. subst s1.
  rewrite tiles_dealt_run. cbn.
  intros [= <- <-]. right. exists i, p, score. done.
Qed.

Lemma exchangeTiles_inv rnd playerId tileIds s r s' :
  exchangeTiles rnd playerId tileIds s = Returns (r, s') ->
  (s' = s ∧
   ((r = Failure "Not your turn" ∧ turn_guard s playerId = Returns None) ∨
    (r = Failure "Not enough tiles in bag" ∧
     (length (tileBag s) < length tileIds)%nat))) ∨
  (exists i p,
     turn_guard s playerId = Returns (Some (i, p)) ∧
     (length tileIds <= length (tileBag s))%nat ∧
     r = Success None ∧ s' = exchanged rnd i p tileIds s).
Proof.
  unfold exchangeTiles. run_monad.
  destruct (turn_guard s playerId) as [[[i p]|]|]; cbn; [| |done].
  2:{ intros [= <- <-]. left. eauto. }
  case_decide.
  { cbn. intros [= <- <-]. left. eauto. }
  run_monad. cbn. rewrite tiles_dealt_run. cbn.
  intros [= <- <-]. right. exists i, p. repeat split; [lia|done..].
Qed.

Lemma passTurn_current s p :
  getCurrentPlayer s = Some p ->
  passTurn (Player.id p) s = Returns (Success None, turn_advanced s).
Proof.
  intros Hc. destruct (turn_guard_current s p Hc) as (i & q & Hg).
  unfold passTurn. run_monad. rewrite Hg. reflexivity.
Qed.

Lemma playMove_run playerId playedTiles s i p score :
  turn_guard s playerId = Returns (Some (i, p)) ->
  validateMove s playedTiles = Returns Valid ->
  calculateScore s playedTiles = Returns score ->
  Forall (fun pt => on_axis (PlayedTile.row pt) = true) playedTiles ->
  playMove playerId playedTiles s =
    Returns (Success (Some score), moved i score playedTiles s).
Proof.
  intros Hg Hv Hs Hrows. unfold playMove. run_monad.
  rewrite Hg; cbn. rewrite Hv; cbn. rewrite Hs; cbn.
  rewrite place_tiles_returns by done.
  rewrite tiles_dealt_run. reflexivity.
Qed.

Lemma exchangeTiles_run rnd playerId tileIds s i p :
  turn_guard s playerId = Returns (Some (i, p)) ->
  (length tileIds <= length (tileBag s))%nat ->
  exchangeTiles rnd playerId tileIds s =
    Returns (Success None, exchanged rnd i p tileIds s).
Proof.
  intros Hg Hlen. unfold exchangeTiles. run_monad.
  rewrite Hg; cbn. rewrite decide_False by lia.
  run_monad. cbn. rewrite tiles_dealt_run. reflexivity.
Qed.

Lemma removePlayer_run socketId s :
  removePlayer socketId s =
    Returns (tt, match find_player socketId (players s) with
                 | Some (index, removedPlayer) => removed index removedPlayer s
                 | None => s
                 end).
Proof.
  unfold removePlayer, findIndex, find_player. run_monad.
  destruct (list_find _ _) as [[index q]|] eqn:Hf; cbn; [|done].
  apply list_find_Some in Hf as (Hl & _). rewrite Hl. run_monad. cbn.
  unfold removed.
  destruct (Player.isHost q && bool_decide (0 < length (delete index (players s)))%nat);
    run_monad; cbn; case_decide; reflexivity.
Qed.

Lemma addPlayer_inv socketId name s b s' :
  addPlayer socketId name s = Returns (b, s') ->
  (b = false ∧ s' = s ∧ (4 <= length (players s))%nat) ∨
  (b = true ∧ (length (players s) < 4)%nat ∧
   exists p, Player.id p = socketId ∧ Player.tiles p = [] ∧ Player.score p = 0 ∧
     Player.isHost p = bool_decide (length (players s) = 0%nat) ∧
     players s' = (players s ++ [p])%list ∧
     hostId s' = (if Player.isHost p then Some socketId else hostId s) ∧
     currentPlayerIndex s' = currentPlayerIndex s ∧ board s' = board s ∧
     tileBag s' = tileBag s ∧ gameStarted s' = gameStarted s ∧
     firstMoveMade s' = firstMoveMade s ∧ roomId s' = roomId s).
Proof.
  unfold addPlayer. run_monad. case_decide.
  { intros [= <- <-]. left. done. }
  cbn. case_bool_decide; run_monad; cbn; intros [= <- <-]; right;
    (split; [done|]; split; [lia|]); eexists; cbn; repeat split; try done.
  all: cbn; by case_bool_decide.
Qed.

Lemma deal_all_frame i n s :
  exists s', deal_all i n s = Returns (tt, s') ∧
    length (players s') = length (players s) ∧
    currentPlayerIndex s' = currentPlayerIndex s ∧
    board s' = board s ∧ firstMoveMade s' = firstMoveMade s ∧
    gameStarted s' = gameStarted s ∧ hostId s' = hostId s ∧ roomId s' = roomId s.
Proof.
  revert i s. induction n as [|n IH]; intros i s.
  - exists s. done.
  - cbn [deal_all]. run_monad. rewrite tiles_dealt_run.
    destruct (IH (S i) (tiles_dealt i 7 s)) as (s' & -> & Hl & Hc & Hb & Hf & Hg & Hh & Hr).
    exists s'. split; [done|].
    destruct (dealt_frame i (7 `min` length (tileBag s)) s) as (? & ? & ? & ? & ? & ? & ?).
    unfold tiles_dealt in *. repeat split; congruence.
Qed.

Lemma startGame_frame s :
  exists b s', startGame s = Returns (b, s') ∧
    length (players s') = length (players s) ∧
    currentPlayerIndex s' = currentPlayerIndex s ∧
    board s' = board s ∧ firstMoveMade s' = firstMoveMade s ∧
    hostId s' = hostId s ∧ roomId s' = roomId s.
Proof.
  unfold startGame. run_monad.
  destruct (gameStarted s || bool_decide (length (players s) < 2)%nat).
  { exists false, s. done. }
  run_monad. cbn.
  destruct (deal_all_frame 0 (length (players s)) (set_gameStarted true s))
    as (s' & -> & ? & ? & ? & ? & ? & ? & ?).
  exists true, s'. done.
Qed.

(** ** The range of a line *)

Lemma least_le x l : forall y, y ∈ x :: l -> least x l <= y.
Proof.
  unfold least. induction l as [|z l IH]; intros y Hy; cbn.
  - apply list_elem_of_singleton in Hy. lia.
  - apply elem_of_cons in Hy as [->|Hy].
    + specialize (IH x (list_elem_of_here _ _)). lia.
    + apply elem_of_cons in Hy as [->|Hy]; [lia|].
      specialize (IH y (list_elem_of_further _ _ _ Hy)). lia.
Qed.

Lemma least_elem x l : least x l ∈ x :: l.
Proof.
  unfold least. induction l as [|z l IH]; cbn; [apply list_elem_of_here|].
  destruct (Z.min_spec z (foldr Z.min x l)) as [[_ ->]|[_ ->]].
  - apply list_elem_of_further, list_elem_of_here.
  - apply elem_of_cons in IH as [->|IH]; [apply list_elem_of_here|].
    by do 2 apply list_elem_of_further.
Qed.

Lemma greatest_ge x l : forall y, y ∈ x :: l -> y <= greatest x l.
Proof.
  unfold greatest. induction l as [|z l IH]; intros y Hy; cbn.
  - apply list_elem_of_singleton in Hy. lia.
  - apply elem_of_cons in Hy as [->|Hy].
    + specialize (IH x (list_elem_of_here _ _)). lia.
    + apply elem_of_cons in Hy as [->|Hy]; [lia|].
      specialize (IH y (list_elem_of_further _ _ _ Hy)). lia.
Qed.

Lemma greatest_elem x l : greatest x l ∈ x :: l.
Proof.
  unfold greatest. induction l as [|z l IH]; cbn; [apply list_elem_of_here|].
  destruct (Z.max_spec z (foldr Z.max x l)) as [[_ ->]|[_ ->]].
  - apply elem_of_cons in IH as [->|IH]; [apply list_elem_of_here|].
    by do 2 apply list_elem_of_further.
  - apply list_elem_of_further, list_elem_of_here.
Qed.

Lemma sorted_head_least (l : list Z) lo :
  StronglySorted Z.le l -> head l = Some lo -> forall y, y ∈ l -> lo <= y.
Proof.
  intros Hs Hh y Hy. destruct l as [|a l]; [done|]. cbn in Hh. injection Hh as ->.
  apply StronglySorted_inv in Hs as [_ Hall].
  apply elem_of_cons in Hy as [->|Hy]; [lia|].
  rewrite Forall_forall in Hall. by apply Hall.
Qed.

Lemma sorted_last_greatest (l : list Z) hi :
  StronglySorted Z.le l -> last l = Some hi -> forall y, y ∈ l -> y <= hi.
Proof.
  induction 1 as [|a l Hs IH Hall]; [done|]. intros Hl y Hy.
  destruct l as [|b l].
  - cbn in Hl. injection Hl as ->. apply list_elem_of_singleton in Hy. lia.
  - rewrite last_cons_cons in Hl.
    apply elem_of_cons in Hy as [->|Hy]; [|by apply IH].
    rewrite Forall_forall in Hall.
    specialize (IH Hl b (list_elem_of_here _ _)).
    specialize (Hall b (list_elem_of_here _ _)). lia.
Qed.

Lemma span_min_to_max coords : span coords = min_to_max coords.
Proof.
  unfold span, sort_numbers, min_to_max, from_to.
  pose proof (merge_sort_Permutation Z.le coords) as Hperm.
  pose proof (StronglySorted_merge_sort Z.le coords) as Hsorted.
  destruct coords as [|x l].
  { apply Permutation_nil_r in Hperm. by rewrite Hperm. }
  destruct (head (merge_sort Z.le (x :: l))) as [lo|] eqn:Hlo.
  2:{ apply head_None in Hlo. rewrite Hlo in Hperm.
      by apply Permutation_nil_cons in Hperm. }
  destruct (last (merge_sort Z.le (x :: l))) as [hi|] eqn:Hhi.
  2:{ apply last_None in Hhi. rewrite Hhi in Hperm.
      by apply Permutation_nil_cons in Hperm. }
  assert (lo = least x l) as ->.
  { apply Z.le_antisymm.
    - eapply sorted_head_least; [done..|]. rewrite Hperm. apply least_elem.
    - apply least_le. rewrite <- Hperm. by apply head_Some_elem_of. }
  assert (hi = greatest x l) as ->.
  { apply Z.le_antisymm.
    - apply greatest_ge. rewrite <- Hperm. by apply last_Some_elem_of.
    - eapply sorted_last_greatest; [done..|]. rewrite Hperm. apply greatest_elem. }
  reflexivity.
Qed.

Lemma min_to_max_bounds coords i :
  i ∈ min_to_max coords ->
  exists a b, a ∈ coords ∧ b ∈ coords ∧ a <= i <= b.
Proof.
  destruct coords as [|x l]; cbn; [by intros ?%elem_of_nil|].
  intros Hi. apply elem_of_seqZ in Hi.
  exists (least x l), (greatest x l).
  split; [apply least_elem|]. split; [apply greatest_elem|]. lia.
Qed.

Lemma min_to_max_on_axis coords i :
  Forall (fun a => on_axis a = true) coords ->
  i ∈ min_to_max coords -> on_axis i = true.
Proof.
  intros Hall Hi. apply min_to_max_bounds in Hi as (a & b & Ha & Hb & Hab).
  rewrite Forall_forall in Hall.
  pose proof (Hall a Ha) as Ha'. pose proof (Hall b Hb) as Hb'.
  unfold on_axis in *. lia.
Qed.

(** ** Turn order *)

Lemma moved_turn i score playedTiles s :
  length (players (moved i score playedTiles s)) = length (players s) ∧
  currentPlayerIndex (moved i score playedTiles s) =
    ((currentPlayerIndex s + 1) mod length (players s))%nat.
Proof.
  unfold moved, turn_advanced, tiles_dealt. cbn. rewrite !length_alter. done.
Qed.

Lemma exchanged_turn rnd i p tileIds s :
  length (players (exchanged rnd i p tileIds s)) = length (players s) ∧
  currentPlayerIndex (exchanged rnd i p tileIds s) =
    ((currentPlayerIndex s + 1) mod length (players s))%nat.
Proof.
  unfold exchanged, turn_advanced, tiles_dealt. cbn. rewrite !length_alter. done.
Qed.

Lemma turn_guard_nonempty s playerId i p :
  turn_guard s playerId = Returns (Some (i, p)) -> (0 < length (players s))%nat.
Proof.
  intros H. apply turn_guard_Some in H as (_ & Hl & _).
  apply lookup_lt_Some in Hl. lia.
Qed.

Lemma turn_index_ok_same s s' :
  length (players s') = length (players s) ->
  currentPlayerIndex s' = currentPlayerIndex s ->
  turn_index_ok s -> turn_index_ok s'.
Proof.
  unfold turn_index_ok. intros Hl Hc [H|[Hnil H0]].
  - left. lia.
  - right. rewrite Hnil in Hl. split; [by apply nil_length_inv | congruence].
Qed.

Lemma turn_index_ok_advanced s s' :
  (0 < length (players s))%nat ->
  length (players s') = length (players s) ->
  currentPlayerIndex s' = ((currentPlayerIndex s + 1) mod length (players s))%nat ->
  turn_index_ok s'.
Proof.
  intros Hpos Hl Hc. left. rewrite Hc, Hl. apply Nat.mod_upper_bound. lia.
Qed.

Lemma removed_turn index p s :
  currentPlayerIndex (removed index p s) =
    (if decide (length (players (removed index p s)) <= currentPlayerIndex s)%nat
     then 0%nat else currentPlayerIndex s) ∧
  turn_index_ok (removed index p s).
Proof.
  split; [reflexivity|].
  unfold turn_index_ok, removed. cbn.
  set (ps' := if _ : bool then _ else _).
  case_decide; [|left; lia].
  destruct ps'; [right; done | left; cbn; lia].
Qed.

Lemma perform_turn_index_ok rq s s' :
  turn_index_ok s -> perform rq s = Returns (tt, s') -> turn_index_ok s'.
Proof.
  intros Hok. destruct rq as [a n|a| |a pts|a|rnd a ids]; cbn [perform]; run_monad.
  - destruct (addPlayer a n s) as [[b s1]|] eqn:Ha; [|done]. intros [= <-].
    apply addPlayer_inv in Ha as [(_ & -> & _)|(_ & _ & p & _ & _ & _ & _ & Hps & _ & Hc & _)];
      [done|].
    unfold turn_index_ok. left. rewrite Hps, Hc, length_app. cbn.
    destruct Hok as [H|[Hnil H0]]; [lia|]. rewrite Hnil, H0. cbn. lia.
  - rewrite removePlayer_run. intros [= <-].
    destruct (find_player a (players s)) as [[index p]|]; [|done].
    apply removed_turn.
  - destruct (startGame_frame s) as (b & s1 & -> & Hl & Hc & _). intros [= <-].
    by eapply turn_index_ok_same.
  - destruct (playMove a pts s) as [[r s1]|] eqn:Hm; [|done]. intros [= <-].
    apply playMove_inv in Hm as [[-> _]|(i & p & sc & Hg & _ & _ & _ & ->)]; [done|].
    destruct (moved_turn i sc pts s).
    eapply turn_index_ok_advanced; eauto using turn_guard_nonempty.
  - destruct (passTurn a s) as [[r s1]|] eqn:Hm; [|done]. intros [= <-].
    apply passTurn_inv in Hm as [(_ & -> & _)|(_ & -> & i & p & Hg)]; [done|].
    eapply turn_index_ok_advanced; eauto using turn_guard_nonempty.
  - destruct (exchangeTiles rnd a ids s) as [[r s1]|] eqn:Hm; [|done]. intros [= <-].
    apply exchangeTiles_inv in Hm as [[-> _]|(i & p & Hg & _ & _ & ->)]; [done|].
    destruct (exchanged_turn rnd i p ids s).
    eapply turn_index_ok_advanced; eauto using turn_guard_nonempty.
Qed.

Lemma perform_all_turn_index_ok rqs s s' :
  turn_index_ok s -> perform_all rqs s = Returns (tt, s') -> turn_index_ok s'.
Proof.
  revert s. induction rqs as [|rq rest IH]; intros s Hok.
  - cbn. by intros [= <-].
  - cbn [perform_all]. run_monad.
    destruct (perform rq s) as [[[] s1]|] eqn:Hp; [|done].
    intros H. eapply IH; [|exact H]. by eapply perform_turn_index_ok.
Qed.

Lemma newGame_turn_index_ok rnd room : turn_index_ok (newGame rnd room).
Proof. right. done. Qed.

(** C10.  In a session whose turn index is in order (it names a player, or
    the list is empty and the index is 0, as in every new session), every
    sequence of operations that returns leaves the turn index in order: when
    the player list is not empty, [currentPlayerIndex] is below the number of
    players.  [nextTurn] moves the index to its successor modulo the number
    of players, and [removePlayer] sets it to 0 when it is not below the
    number of players that remain. *)
Theorem turn_index_stays_valid (s : ScrabbleGame) (rqs : list request) (s' : ScrabbleGame) :
  turn_index_ok s ->
  perform_all rqs s = Returns (tt, s') ->
  (players s' ≠ [] -> (currentPlayerIndex s' < length (players s'))%nat) ∧
  turn_index_ok s' ∧
  (forall rnd room, turn_index_ok (newGame rnd room)) ∧
  nextTurn s' =
    Returns (tt, set_currentPlayerIndex
                   ((currentPlayerIndex s' + 1) mod length (players s'))%nat s') ∧
  (forall socketId index p,
     find_player socketId (players s') = Some (index, p) ->
     exists s'', removePlayer socketId s' = Returns (tt, s'') ∧
       length (players s'') = (length (players s') - 1)%nat ∧
       currentPlayerIndex s'' =
         (if decide (length (players s'') <= currentPlayerIndex s')%nat
          then 0%nat else currentPlayerIndex s')).
Proof.
  intros Hok Hrun.
  assert (turn_index_ok s') as Hok' by (by eapply perform_all_turn_index_ok).
  split; [|split; [done|split; [apply newGame_turn_index_ok|split; [done|]]]].
  - intros Hne. destruct Hok' as [H|[Hnil _]]; [done|by destruct Hne].
  - intros socketId index p Hf. rewrite removePlayer_run, Hf.
    eexists. split; [done|]. split; [|apply removed_turn].
    apply list_find_Some in Hf as (Hl & _).
    unfold removed. cbn.
    destruct (_ && _); rewrite ?length_alter, length_delete; eauto.
Qed.

Lemma turn_index_stays_valid_witness :
  (currentPlayerIndex (after [PassTurn "a"; RemovePlayer "c"; PassTurn "b"] three_playing)
     < length (players (after [PassTurn "a"; RemovePlayer "c"; PassTurn "b"] three_playing)))%nat.
Proof.
  refine (proj1 (turn_index_stays_valid (newGame sample_rnd "room")
    [AddPlayer "a" "Ann"; AddPlayer "b" "Bob"; AddPlayer "c" ""; StartGame;
     PassTurn "a"; RemovePlayer "c"; PassTurn "b"] _ _ _) _).
  - apply newGame_turn_index_ok.
  - vm_compute. reflexivity.
  - vm_compute. discriminate.
Defined.

Lemma turn_advanced_thrice s :
  length (players s) = 3%nat ->
  (currentPlayerIndex s < 3)%nat ->
  turn_advanced (turn_advanced (turn_advanced s)) = s.
Proof.
  destruct s as [room ps cpi b bag gs fm h]. cbn. intros Hlen Hc.
  unfold turn_advanced, set_currentPlayerIndex. cbn. rewrite Hlen. f_equal.
  assert (cpi = 0 ∨ cpi = 1 ∨ cpi = 2)%nat as [->|[->| ->]] by lia; reflexivity.
Qed.

Lemma current_after_advance s :
  (0 < length (players s))%nat -> is_Some (getCurrentPlayer (turn_advanced s)).
Proof.
  intros Hpos. unfold getCurrentPlayer, turn_advanced. cbn.
  apply lookup_lt_is_Some. apply Nat.mod_upper_bound. lia.
Qed.

(** C7.  When it is the turn of player [p], [passTurn] for [p] succeeds and
    leaves the session with [currentPlayerIndex] moved to its successor
    modulo the number of players; any pass that succeeds leaves exactly that
    session, so the board, the bag, the players (scores, racks, host flags),
    the host and the two flags are what they were.  With three players,
    the passes of the three players whose turn comes lead back to the
    session the first pass started from. *)
Theorem passTurn_only_advances_turn (s : ScrabbleGame) (p : Player.t) :
  getCurrentPlayer s = Some p ->
  passTurn (Player.id p) s = Returns (Success None, turn_advanced s) ∧
  (forall playerId score s',
     passTurn playerId s = Returns (Success score, s') -> s' = turn_advanced s) ∧
  currentPlayerIndex (turn_advanced s) =
    ((currentPlayerIndex s + 1) mod length (players s))%nat ∧
  players (turn_advanced s) = players s ∧
  board (turn_advanced s) = board s ∧
  tileBag (turn_advanced s) = tileBag s ∧
  hostId (turn_advanced s) = hostId s ∧
  gameStarted (turn_advanced s) = gameStarted s ∧
  firstMoveMade (turn_advanced s) = firstMoveMade s ∧
  roomId (turn_advanced s) = roomId s ∧
  (length (players s) = 3%nat ->
   exists p2 p3,
     getCurrentPlayer (turn_advanced s) = Some p2 ∧
     passTurn (Player.id p2) (turn_advanced s) =
       Returns (Success None, turn_advanced (turn_advanced s)) ∧
     getCurrentPlayer (turn_advanced (turn_advanced s)) = Some p3 ∧
     passTurn (Player.id p3) (turn_advanced (turn_advanced s)) = Returns (Success None, s)).
Proof.
  intros Hcur. split; [by apply passTurn_current|].
  split.
  { intros playerId score s' H.
    apply passTurn_inv in H as [(? & _)|(_ & -> & _)]; [done|reflexivity]. }
  do 8 (split; [reflexivity|]).
  intros Hlen.
  assert (currentPlayerIndex s < 3)%nat as Hc.
  { unfold getCurrentPlayer in Hcur. apply lookup_lt_Some in Hcur. lia. }
  destruct (current_after_advance s) as [p2 Hp2]; [lia|].
  destruct (current_after_advance (turn_advanced s)) as [p3 Hp3]; [cbn; lia|].
  exists p2, p3. split; [done|]. split; [by apply passTurn_current|].
  split; [done|].
  rewrite (passTurn_current _ _ Hp3), turn_advanced_thrice by done. reflexivity.
Qed.

Lemma passTurn_only_advances_turn_witness :
  exists p, getCurrentPlayer three_playing = Some p ∧
    passTurn (Player.id p) three_playing = Returns (Success None, turn_advanced three_playing).
Proof.
  eexists. split; [vm_compute; reflexivity|].
  refine (proj1 (passTurn_only_advances_turn three_playing _ _)).
  vm_compute. reflexivity.
Defined.

(** ** The public view *)

(** C8.  Two sessions that agree on everything but the tiles in the racks
    and in the bag, with each player holding as many tiles in one as in the
    other and the bags of equal size, have the same public view
    [getGameState]; a player appears in it as [id], [name], [score],
    [tileCount] and [isHost] only. *)
Theorem getGameState_hides_racks (s1 s2 : ScrabbleGame) :
  same_outside_racks s1 s2 -> getGameState s1 = getGameState s2.
Proof.
  intros (Hroom & Hps & Hcpi & Hboard & Hgs & Hbag & Hhost).
  unfold getGameState. rewrite Hroom, Hcpi, Hboard, Hgs, Hbag, Hhost.
  f_equal. induction Hps as [|p q ps qs (Hid & Hname & Hscore & Hhostp & Hlen) _ IH];
    [reflexivity|].
  cbn. f_equal; [|exact IH].
  unfold summary. by rewrite Hid, Hname, Hscore, Hhostp, Hlen.
Qed.

Lemma getGameState_hides_racks_witness :
  getGameState three_playing = getGameState racks_swapped.
Proof.
  apply getGameState_hides_racks. vm_compute.
  repeat first [split | reflexivity | constructor].
Defined.

(** ** Premium squares *)

Lemma getPremiumSquare_empty_cell s row col :
  readCell (board s) row col = Returns Null ->
  getPremiumSquare s row col = Returns (premium_lookup PREMIUM_SQUARES row col).
Proof. intros H. unfold getPremiumSquare. rewrite H. reflexivity. Qed.

(** C3, amended.  [PREMIUM_SQUARES] lists 8 TW, 17 DW, 12 TL and 24 DL
    coordinates, all different, and the center (7,7) is one of the 17 DW
    coordinates: on a board whose center is free [getPremiumSquare] returns
    ["DW"] for (7,7). *)
Theorem premium_table_counts_center_DW (s : ScrabbleGame) :
  board s = empty_board ->
  length (premium_positions "TW") = 8%nat ∧
  length (premium_positions "DW") = 17%nat ∧
  length (premium_positions "TL") = 12%nat ∧
  length (premium_positions "DL") = 24%nat ∧
  PREMIUM_SQUARES.*1 = ["TW"; "DW"; "TL"; "DL"] ∧
  NoDup (concat PREMIUM_SQUARES.*2) ∧
  (7, 7) ∈ premium_positions "DW" ∧
  getPremiumSquare s 7 7 = Returns (Some "DW").
Proof.
  intros Hb. repeat split; try reflexivity.
  - apply (bool_decide_unpack _). vm_compute. exact I.
  - apply (bool_decide_unpack _). vm_compute. exact I.
  - rewrite getPremiumSquare_empty_cell; [reflexivity|].
    unfold readCell. rewrite Hb. reflexivity.
Qed.

Lemma premium_table_counts_center_DW_witness :
  getPremiumSquare (newGame sample_rnd "room") 7 7 = Returns (Some "DW").
Proof.
  apply (premium_table_counts_center_DW (newGame sample_rnd "room")).
  reflexivity.
Defined.

(** C3 as stated fails: the center is in the double-word list. *)
Lemma center_in_DW_table : ¬ center_outside_DW_table.
Proof.
  intros [Hnot _]. apply Hnot. apply (bool_decide_unpack _). vm_compute. exact I.
Qed.

(** ** Reasons of a rejected move *)

Lemma validateMove_reasons s playedTiles error :
  validateMove s playedTiles = Returns (Invalid error) -> error ∈ validation_reasons.
Proof.
  unfold validateMove, validation_reasons.
  repeat (case_decide || destruct (_ && _) || destruct (has_gap _ _) as [[]|]);
    cbn; intros [= <-]; repeat constructor.
Qed.


(** ** Shuffling and exchanging *)

Lemma insert_head_Permutation {A : Type} (a : list A) (k : nat) (x y : A) :
  a !! k = Some y -> y :: <[k := x]> a ≡ₚ x :: a.
Proof.
  revert k. induction a as [|h a IH]; intros [|k] Hk; try done.
  - cbn in Hk. injection Hk as ->. cbn. apply perm_swap.
  - cbn in Hk. cbn. rewrite (perm_swap h y), (IH k Hk). apply perm_swap.
Qed.

Lemma swap_Permutation {A : Type} (i j : nat) (a : list A) : swap i j a ≡ₚ a.
Proof.
  unfold swap.
  destruct (a !! i) as [x|] eqn:Hi; [|done].
  destruct (a !! j) as [y|] eqn:Hj; [|done].
  revert i j Hi Hj. induction a as [|h a IH]; intros [|i] [|j] Hi Hj; try done.
  - cbn in *. by simplify_eq.
  - cbn in *. injection Hi as ->. symmetry. rewrite <- (insert_head_Permutation a j x y Hj).
    reflexivity.
  - cbn in *. injection Hj as ->. rewrite <- (insert_head_Permutation a i y x Hi).
    reflexivity.
  - cbn in *. f_equiv. by apply IH.
Qed.

Lemma shuffle_from_Permutation {A : Type} rnd (k i : nat) (a : list A) :
  shuffle_from rnd k i a ≡ₚ a.
Proof.
  revert k a. induction i as [|i IH]; intros k a; [done|].
  cbn [shuffle_from]. rewrite IH. apply swap_Permutation.
Qed.

Lemma shuffle_Permutation {A : Type} rnd (a : list A) : shuffle rnd a ≡ₚ a.
Proof. apply shuffle_from_Permutation. Qed.

Lemma shuffle_length {A : Type} rnd (a : list A) : length (shuffle rnd a) = length a.
Proof. by rewrite shuffle_Permutation. Qed.

Lemma swap_same {A : Type} (i : nat) (a : list A) : swap i i a = a.
Proof.
  unfold swap. destruct (a !! i) as [x|] eqn:Hi; [|done].
  rewrite list_insert_insert_eq. by apply list_insert_id.
Qed.

Lemma shuffle_from_still {A : Type} (n k i : nat) (a : list A) :
  (k + i + 1 = n)%nat -> shuffle_from (still n) k i a = a.
Proof.
  revert k a. induction i as [|i IH]; intros k a Hn; [done|].
  cbn [shuffle_from]. unfold random_index.
  replace (still n k) with (S i) by (unfold still; lia).
  rewrite Nat.mod_small by lia. rewrite swap_same. apply IH. lia.
Qed.

Lemma shuffle_still {A : Type} (a : list A) : shuffle (still (length a)) a = a.
Proof.
  unfold shuffle. destruct a as [|x a]; [done|].
  apply shuffle_from_still. cbn. lia.
Qed.

Lemma exchanged_rack rnd i p tileIds s :
  players s !! i = Some p ->
  let pool := shuffle rnd (tileBag s ++ returned tileIds (Player.tiles p)) in
  let n := length (returned tileIds (Player.tiles p)) in
  tileBag (exchanged rnd i p tileIds s) = take (length pool - n) pool ∧
  players (exchanged rnd i p tileIds s) !! i =
    Some (set_tiles (kept tileIds (Player.tiles p) ++ reverse (drop (length pool - n) pool)) p).
Proof.
  intros Hp pool n. unfold exchanged, tiles_dealt, dealt, turn_advanced. cbn.
  fold (returned tileIds (Player.tiles p)). fold pool. fold n.
  assert (n `min` length pool = n)%nat as ->.
  { unfold pool. rewrite shuffle_length, length_app. lia. }
  split; [done|].
  rewrite list_alter_alter_eq, list_lookup_alter_eq, Hp. reflexivity.
Qed.

(** C5, amended.  When it is the player's turn and the bag holds at least
    as many tiles as ids were given, [exchangeTiles] succeeds; the tiles it
    takes from the rack are appended to the bag, the bag is shuffled, and
    the replacements are then taken from the end of the shuffled bag, as
    many as were returned.  The shuffled bag holds the returned tiles, so a
    replacement can be a tile just returned: under the draws that leave the
    bag in its order, the player gets back exactly the tiles returned. *)
Theorem exchangeTiles_returns_then_draws
    (rnd : nat -> nat) (s : ScrabbleGame) (playerId : string) (tileIds : list string)
    (i : nat) (p : Player.t) :
  turn_guard s playerId = Returns (Some (i, p)) ->
  (length tileIds <= length (tileBag s))%nat ->
  let back := returned tileIds (Player.tiles p) in
  let pool := shuffle rnd (tileBag s ++ back) in
  let s' := exchanged rnd i p tileIds s in
  exchangeTiles rnd playerId tileIds s = Returns (Success None, s') ∧
  pool ≡ₚ tileBag s ++ back ∧
  tileBag s' = take (length (tileBag s)) pool ∧
  players s' !! i =
    Some (set_tiles (kept tileIds (Player.tiles p) ++ reverse (drop (length (tileBag s)) pool)) p) ∧
  length (drop (length (tileBag s)) pool) = length back ∧
  (pool = tileBag s ++ back ->
   players s' !! i = Some (set_tiles (kept tileIds (Player.tiles p) ++ reverse back) p)) ∧
  shuffle (still (length (tileBag s ++ back))) (tileBag s ++ back) = tileBag s ++ back.
Proof.
  intros Hg Hlen back pool s'.
  apply turn_guard_Some in Hg as Hg'. destruct Hg' as (_ & Hp & _).
  destruct (exchanged_rack rnd i p tileIds s Hp) as [Hbag Hrack].
  fold back pool s' in Hbag, Hrack.
  assert (length pool - length back = length (tileBag s))%nat as Hcut.
  { unfold pool. rewrite shuffle_length, length_app. lia. }
  rewrite Hcut in Hbag, Hrack.
  split; [by apply exchangeTiles_run|].
  split; [apply shuffle_Permutation|].
  split; [done|]. split; [done|].
  split. { rewrite length_drop. unfold pool. rewrite shuffle_length, length_app. lia. }
  split; [|apply shuffle_still].
  intros Hsame. rewrite Hrack, Hsame, drop_app_length. reflexivity.
Qed.

Lemma exchangeTiles_returns_then_draws_witness :
  exists i p,
    turn_guard three_playing "a" = Returns (Some (i, p)) ∧
    exchangeTiles sample_rnd "a" ["A-3-0.24"; "J-0-0.318"] three_playing
      = Returns (Success None, exchanged sample_rnd i p ["A-3-0.24"; "J-0-0.318"] three_playing).
Proof.
  eexists _, _. split; [vm_compute; reflexivity|].
  refine (proj1 (exchangeTiles_returns_then_draws sample_rnd three_playing "a"
                   ["A-3-0.24"; "J-0-0.318"] _ _ _ _)).
  - vm_compute. reflexivity.
  - vm_compute. lia.
Defined.

(** C5 as stated fails: in [three_playing] it is the turn of player "a",
    who holds the tile "A-3-0.24"; with draws that make every round of the
    shuffle take [j = i], the exchange of that tile puts it at the end of
    the bag and deals it back. *)
Lemma exchange_can_redraw : ¬ exchange_never_redraws.
Proof.
  intros H.
  pose (t := Tile.mk "A" 1 "A-3-0.24").
  destruct (turn_guard three_playing "a") as [[[i p]|]|] eqn:Hg;
    [|vm_compute in Hg; discriminate..].
  destruct (exchangeTiles (still 80) "a" ["A-3-0.24"] three_playing) as [[r s']|] eqn:He;
    [|vm_compute in He; discriminate].
  vm_compute in Hg. injection Hg as <- <-.
  vm_compute in He. injection He as <- <-.
  refine (H (still 80) three_playing _ "a" ["A-3-0.24"] 0%nat _ _ _ _ _ _ t _ _).
  - vm_compute. reflexivity.
  - vm_compute. lia.
  - vm_compute. reflexivity.
  - vm_compute. reflexivity.
  - apply (bool_decide_unpack _). vm_compute. exact I.
  - apply (bool_decide_unpack _). vm_compute. exact I.
Qed.

(** ** Tile conservation *)

Lemma rack_tiles_alter f i ps p :
  ps !! i = Some p ->
  rack_tiles (alter f i ps) ++ Player.tiles p ≡ₚ rack_tiles ps ++ Player.tiles (f p).
Proof.
  unfold rack_tiles. revert i. induction ps as [|q ps IH]; intros [|i] Hi; try done.
  - cbn in Hi. injection Hi as ->. cbn.
    rewrite (Permutation_app_comm _ (Player.tiles p)), <- app_assoc.
    f_equiv. apply Permutation_app_comm.
  - cbn in Hi. cbn. rewrite <- !app_assoc. f_equiv. by apply IH.
Qed.

Lemma rack_tiles_alter_same f i ps :
  (forall p, Player.tiles (f p) = Player.tiles p) ->
  rack_tiles (alter f i ps) = rack_tiles ps.
Proof.
  intros Hf. unfold rack_tiles. f_equal. revert i.
  induction ps as [|q ps IH]; intros [|i]; cbn; try done.
  - by rewrite Hf.
  - f_equal. apply IH.
Qed.

Lemma rack_tiles_replace f i ps p gone :
  ps !! i = Some p ->
  Player.tiles p ≡ₚ Player.tiles (f p) ++ gone ->
  rack_tiles (alter f i ps) ++ gone ≡ₚ rack_tiles ps.
Proof.
  intros Hi Hp. apply (Permutation_app_inv_r (Player.tiles (f p))).
  rewrite <- app_assoc, (Permutation_app_comm gone), <- Hp.
  by apply rack_tiles_alter.
Qed.

Lemma rack_tiles_grow i ps extra :
  (i < length ps)%nat ->
  rack_tiles (alter (fun p => set_tiles (Player.tiles p ++ extra) p) i ps)
    ≡ₚ rack_tiles ps ++ extra.
Proof.
  intros Hi. apply lookup_lt_is_Some in Hi as [p Hp].
  apply (Permutation_app_inv_r (Player.tiles p)).
  rewrite (rack_tiles_alter _ _ _ _ Hp). cbn.
  rewrite <- !app_assoc. f_equiv. apply Permutation_app_comm.
Qed.

Lemma rack_tiles_delete i ps p :
  ps !! i = Some p -> rack_tiles (delete i ps) ++ Player.tiles p ≡ₚ rack_tiles ps.
Proof.
  unfold rack_tiles. revert i. induction ps as [|q ps IH]; intros [|i] Hi; try done.
  - cbn in Hi. injection Hi as ->. cbn. apply Permutation_app_comm.
  - cbn in Hi. cbn. rewrite <- app_assoc. f_equiv. by apply IH.
Qed.

Lemma rack_tiles_lookup i ps p :
  ps !! i = Some p -> exists others, rack_tiles ps ≡ₚ Player.tiles p ++ others.
Proof.
  intros Hi. exists (rack_tiles (delete i ps)).
  rewrite <- (rack_tiles_delete i ps p Hi). apply Permutation_app_comm.
Qed.

Lemma all_tiles_dealt i n s :
  (i < length (players s))%nat -> all_tiles (dealt i n s) ≡ₚ all_tiles s.
Proof.
  intros Hi. unfold all_tiles, dealt. cbn [tileBag players board].
  rewrite rack_tiles_grow by done.
  set (k := (length (tileBag s) - n)%nat).
  transitivity ((take k (tileBag s) ++ reverse (drop k (tileBag s)))
                  ++ rack_tiles (players s) ++ board_tiles (board s)).
  - rewrite <- !app_assoc. f_equiv. rewrite !app_assoc. f_equiv.
    apply Permutation_app_comm.
  - f_equiv. by rewrite reverse_Permutation, take_drop.
Qed.

Lemma deal_all_conserves i n s :
  (i + n <= length (players s))%nat ->
  exists s', deal_all i n s = Returns (tt, s') ∧ all_tiles s' ≡ₚ all_tiles s.
Proof.
  revert i s. induction n as [|n IH]; intros i s Hin.
  - exists s. done.
  - cbn [deal_all]. run_monad. rewrite tiles_dealt_run.
    destruct (dealt_frame i (7 `min` length (tileBag s)) s) as (Hl & _).
    destruct (IH (S i) (tiles_dealt i 7 s)) as (s' & -> & Hperm).
    { unfold tiles_dealt. rewrite Hl. lia. }
    exists s'. split; [done|]. rewrite Hperm. apply all_tiles_dealt. lia.
Qed.

Lemma board_tiles_placed playedTiles b :
  NoDup (cell_of <$> playedTiles) ->
  Forall (fun pt => b !! cell_of pt = None) playedTiles ->
  board_tiles (placed playedTiles b) ≡ₚ board_tiles b ++ (PlayedTile.tile <$> playedTiles).
Proof.
  unfold board_tiles, placed.
  revert b. induction playedTiles as [|pt rest IH]; intros b Hnd Hfree.
  - cbn. by rewrite app_nil_r.
  - cbn in Hnd. apply NoDup_cons in Hnd as [Hpt Hnd].
    apply Forall_cons in Hfree as [Hb Hfree].
    cbn [foldl]. rewrite IH; [|done|].
    + fold (cell_of pt). rewrite map_to_list_insert by done. cbn.
      rewrite <- Permutation_middle. reflexivity.
    + fold (cell_of pt). apply Forall_forall. intros pt' Hin.
      rewrite lookup_insert_ne.
      * rewrite Forall_forall in Hfree. by apply Hfree.
      * intros Heq. apply Hpt. rewrite Heq. by apply list_elem_of_fmap_2.
Qed.

Lemma filter_none {A : Type} (P : A -> Prop) `{forall x, Decision (P x)} (l : list A) :
  Forall (fun x => ¬ P x) l -> filter P l = [].
Proof.
  induction 1 as [|x l Hx _ IH]; [done|]. by rewrite filter_cons_False.
Qed.

Lemma filter_all {A : Type} (P : A -> Prop) `{forall x, Decision (P x)} (l : list A) :
  Forall P l -> filter P l = l.
Proof.
  induction 1 as [|x l Hx _ IH]; [done|]. rewrite filter_cons_True by done. by f_equal.
Qed.

Lemma filter_played rack playedTiles :
  NoDup (Tile.id <$> rack) ->
  (PlayedTile.tile <$> playedTiles) ⊆+ rack ->
  rack ≡ₚ filter (fun t => Tile.id t ∉ played_ids playedTiles) rack
          ++ (PlayedTile.tile <$> playedTiles).
Proof.
  intros Hnd Hsub. apply submseteq_Permutation in Hsub as [others Hrack].
  rewrite Hrack in Hnd. rewrite fmap_app in Hnd.
  apply NoDup_app in Hnd as (_ & Hdisj & _).
  rewrite Hrack at 2. rewrite filter_app.
  assert (filter (fun t => Tile.id t ∉ played_ids playedTiles)
                 (PlayedTile.tile <$> playedTiles) = []) as ->.
  { apply filter_none, Forall_forall. intros t Ht Hnot. apply Hnot.
    unfold played_ids. rewrite elem_of_list_to_set.
    apply list_elem_of_fmap in Ht as (pt & -> & Hpt).
    by apply (list_elem_of_fmap_2 (fun pt => Tile.id (PlayedTile.tile pt))). }
  assert (filter (fun t => Tile.id t ∉ played_ids playedTiles) others = others) as ->.
  { apply filter_all, Forall_forall. intros t Ht Hin.
    unfold played_ids in Hin. rewrite elem_of_list_to_set in Hin.
    apply (Hdisj (Tile.id t)).
    - rewrite <- list_fmap_compose. exact Hin.
    - by apply list_elem_of_fmap_2. }
  cbn. rewrite Hrack. apply Permutation_app_comm.
Qed.

Lemma rack_ids_NoDup s i p :
  players s !! i = Some p -> NoDup (Tile.id <$> all_tiles s) -> NoDup (Tile.id <$> Player.tiles p).
Proof.
  intros Hp Hnd. destruct (rack_tiles_lookup _ _ _ Hp) as [others Hr].
  unfold all_tiles in Hnd. rewrite Hr, !fmap_app in Hnd.
  apply NoDup_app in Hnd as (_ & _ & Hnd). apply NoDup_app in Hnd as (Hnd & _).
  by apply NoDup_app in Hnd as (Hnd & _).
Qed.

Lemma readCell_Null b r c : readCell b r c = Returns Null -> b !! (r, c) = None.
Proof.
  unfold readCell. destruct (on_axis r); [|done].
  destruct (b !! (r, c)); [done|]. done.
Qed.

Lemma all_tiles_moved i p score playedTiles s :
  players s !! i = Some p ->
  NoDup (Tile.id <$> all_tiles s) ->
  (PlayedTile.tile <$> playedTiles) ⊆+ Player.tiles p ->
  NoDup (cell_of <$> playedTiles) ->
  Forall (fun pt => readCell (board s) (PlayedTile.row pt) (PlayedTile.col pt) = Returns Null)
         playedTiles ->
  all_tiles (moved i score playedTiles s) ≡ₚ all_tiles s.
Proof.
  intros Hp Hnd Hsub Hcells Hfree. unfold moved.
  cbn zeta.
  set (s3 := set_players _ _).
  change (all_tiles (tiles_dealt i (length playedTiles) s3) ≡ₚ all_tiles s).
  unfold tiles_dealt. rewrite all_tiles_dealt.
  2:{ unfold s3. cbn. rewrite !length_alter. by eapply lookup_lt_Some. }
  unfold s3, all_tiles. cbn [tileBag players board set_players set_board].
  rewrite list_alter_alter_eq.
  rewrite board_tiles_placed; [|done|].
  2:{ eapply Forall_impl; [exact Hfree|]. intros pt. apply readCell_Null. }
  f_equiv. rewrite (Permutation_app_comm (board_tiles _)), app_assoc. f_equiv.
  apply rack_tiles_replace with (p := p); [done|]. cbn.
  apply filter_played; [|done]. by eapply rack_ids_NoDup.
Qed.

Lemma all_tiles_exchanged rnd i p tileIds s :
  players s !! i = Some p -> all_tiles (exchanged rnd i p tileIds s) ≡ₚ all_tiles s.
Proof.
  intros Hp. unfold exchanged. cbn zeta.
  set (s3 := set_tileBag _ _).
  change (all_tiles (tiles_dealt i (length (returned tileIds (Player.tiles p))) s3)
            ≡ₚ all_tiles s).
  unfold tiles_dealt. rewrite all_tiles_dealt.
  2:{ unfold s3. cbn. rewrite !length_alter. by eapply lookup_lt_Some. }
  unfold s3, all_tiles. cbn [tileBag players board set_players set_board set_tileBag].
  rewrite shuffle_Permutation. rewrite <- !app_assoc. f_equiv. rewrite !app_assoc. f_equiv.
  rewrite (Permutation_app_comm (filter _ _)).
  apply rack_tiles_replace with (p := p); [done|]. cbn.
  rewrite (Permutation_app_comm (filter _ _)).
  symmetry. apply (filter_app_complement (fun t => Tile.id t ∈ tileIds)).
Qed.

Lemma all_tiles_removed index p s :
  players s !! index = Some p -> all_tiles (removed index p s) ≡ₚ all_tiles s.
Proof.
  intros Hp. unfold removed, all_tiles. cbn [tileBag players board].
  assert (rack_tiles (alter (set_isHost true) 0%nat (delete index (players s)))
          = rack_tiles (delete index (players s))) as Hhost
    by (by apply rack_tiles_alter_same).
  destruct (Player.isHost p && _); rewrite ?Hhost;
    rewrite <- !app_assoc; f_equiv; rewrite !app_assoc; f_equiv;
    rewrite (Permutation_app_comm (Player.tiles p)); by apply rack_tiles_delete.
Qed.

Lemma conserved_Permutation s s' :
  all_tiles s' ≡ₚ all_tiles s -> conserved s -> conserved s'.
Proof. unfold conserved. intros ->. done. Qed.

Lemma canonical_distribution_length : length canonical_distribution = 100%nat.
Proof. reflexivity. Qed.

Lemma conserved_count s :
  conserved s ->
  (length (tileBag s) + length (rack_tiles (players s)) + size (board s) = 100)%nat.
Proof.
  intros [Hf _]. apply Permutation_length in Hf.
  rewrite length_fmap, canonical_distribution_length in Hf.
  unfold all_tiles, board_tiles in Hf.
  rewrite !length_app, length_fmap, length_map_to_list in Hf. lia.
Qed.

Lemma unshuffled_bag_faces rnd : face <$> unshuffled_bag rnd = canonical_distribution.
Proof. reflexivity. Qed.

Lemma unshuffled_bag_ids rnd : NoDup (Tile.id <$> unshuffled_bag rnd).
Proof.
  apply (NoDup_fmap_1 (String.substring 0 4)).
  apply (bool_decide_unpack _). vm_compute. exact I.
Qed.

Lemma newGame_conserved rnd room : conserved (newGame rnd room).
Proof.
  unfold conserved.
  assert (all_tiles (newGame rnd room) ≡ₚ unshuffled_bag rnd) as ->.
  { unfold all_tiles, newGame, initializeTileBag. cbn [tileBag players board].
    unfold rack_tiles, board_tiles, empty_board. rewrite map_to_list_empty.
    change (shuffle (fun k => rnd (length (unshuffled_bag rnd) + k)%nat) (unshuffled_bag rnd)
              ++ [] ++ [] ≡ₚ unshuffled_bag rnd).
    rewrite !app_nil_r. apply shuffle_Permutation. }
  split; [by rewrite unshuffled_bag_faces | apply unshuffled_bag_ids].
Qed.

Lemma perform_conserves rq s s' :
  conserved s -> well_formed s rq -> perform rq s = Returns (tt, s') ->
  all_tiles s' ≡ₚ all_tiles s.
Proof.
  intros Hcons Hwf. destruct rq as [a n|a| |a pts|a|rnd a ids]; cbn [perform]; run_monad.
  - destruct (addPlayer a n s) as [[b s1]|] eqn:Ha; [|done]. intros [= <-].
    apply addPlayer_inv in Ha
      as [(_ & -> & _)|(_ & _ & p & _ & Hnil & _ & _ & Hps & _ & _ & Hb & Hbag & _)]; [done|].
    unfold all_tiles, rack_tiles. rewrite Hps, Hb, Hbag, fmap_app, concat_app. cbn.
    by rewrite Hnil, !app_nil_r.
  - rewrite removePlayer_run. intros [= <-].
    destruct (find_player a (players s)) as [[index p]|] eqn:Hf; [|done].
    apply list_find_Some in Hf as (Hl & _). by apply all_tiles_removed.
  - unfold startGame. run_monad.
    destruct (gameStarted s || bool_decide (length (players s) < 2)%nat).
    { by intros [= <-]. }
    run_monad. cbn.
    destruct (deal_all_conserves 0 (length (players s)) (set_gameStarted true s))
      as (s1 & -> & Hperm); [cbn; lia|].
    by intros [= <-].
  - destruct (playMove a pts s) as [[r s1]|] eqn:Hm; [|done]. intros [= <-].
    apply playMove_inv in Hm as [[-> _]|(i & p & sc & Hg & _ & _ & _ & ->)]; [done|].
    apply turn_guard_Some in Hg as (Hf & Hp & _).
    destruct (Hwf i p Hf) as (Hsub & Hcells & Hfree).
    apply all_tiles_moved with (p := p); try done. apply Hcons.
  - destruct (passTurn a s) as [[r s1]|] eqn:Hm; [|done]. intros [= <-].
    by apply passTurn_inv in Hm as [(_ & -> & _)|(_ & -> & _)].
  - destruct (exchangeTiles rnd a ids s) as [[r s1]|] eqn:Hm; [|done]. intros [= <-].
    apply exchangeTiles_inv in Hm as [[-> _]|(i & p & Hg & _ & _ & ->)]; [done|].
    apply turn_guard_Some in Hg as (_ & Hp & _). by apply all_tiles_exchanged.
Qed.

Lemma perform_all_conserves rqs s s' :
  conserved s -> all_well_formed rqs s -> perform_all rqs s = Returns (tt, s') ->
  all_tiles s' ≡ₚ all_tiles s.
Proof.
  revert s. induction rqs as [|rq rest IH]; intros s Hcons Hwf.
  - cbn. by intros [= <-].
  - cbn [perform_all]. run_monad. destruct Hwf as [Hrq Hrest].
    destruct (perform rq s) as [[[] s1]|] eqn:Hp; [|done].
    intros Hrun.
    assert (all_tiles s1 ≡ₚ all_tiles s) as H1 by (by eapply perform_conserves).
    rewrite <- H1. apply IH; [|done..]. by eapply conserved_Permutation.
Qed.

(** C1.  From a session whose bag, racks and board hold the canonical
    distribution with no id twice (every new session is one), every
    sequence of [addPlayer], [removePlayer], [startGame], [playMove],
    [passTurn] and [exchangeTiles] that returns, in which each [playMove]
    places tiles of the mover's rack, each once, onto empty cells, one to a
    cell, leads to a session with the same tiles: the canonical
    distribution, no id twice, 100 tiles over bag, racks and board. *)
Theorem tiles_conserved (s : ScrabbleGame) (rqs : list request) (s' : ScrabbleGame) :
  conserved s ->
  all_well_formed rqs s ->
  perform_all rqs s = Returns (tt, s') ->
  conserved s' ∧
  all_tiles s' ≡ₚ all_tiles s ∧
  (length (tileBag s') + length (rack_tiles (players s')) + size (board s') = 100)%nat ∧
  (forall rnd room, conserved (newGame rnd room)).
Proof.
  intros Hcons Hwf Hrun.
  assert (all_tiles s' ≡ₚ all_tiles s) as Hperm by (by eapply perform_all_conserves).
  assert (conserved s') as Hcons' by (by eapply conserved_Permutation).
  split; [done|]. split; [done|]. split; [by apply conserved_count|].
  apply newGame_conserved.
Qed.

Lemma tiles_conserved_witness :
  conserved (after sample_game (newGame sample_rnd "room")) ∧
  size (board (after sample_game (newGame sample_rnd "room"))) = 2%nat.
Proof.
  split; [|vm_compute; reflexivity].
  refine (proj1 (tiles_conserved (newGame sample_rnd "room") sample_game _ _ _ _)).
  - apply newGame_conserved.
  - unfold sample_game. cbn [all_well_formed well_formed].
    repeat match goal with
    | |- True => exact I
    | |- _ ∧ _ => split
    | |- match ?x with _ => _ end =>
        let r := eval vm_compute in x in change x with r; cbv beta iota
    | |- drawn_onto_empty _ _ _ =>
        intros i p Hf; vm_compute in Hf; injection Hf as <- <-;
        split; [|split];
        [apply (bool_decide_unpack _); vm_compute; exact I
        |apply (bool_decide_unpack _); vm_compute; exact I
        |repeat constructor]
    end.
  - vm_compute. reflexivity.
Defined.

(** The two conditions on a placement that [drawn_onto_empty] spells out
    are needed.  Two tiles of the rack sent to one empty cell: the second
    overwrites the first, which is then nowhere. *)
Example two_tiles_on_one_cell :
  let s' := after [PlayMove "a" [PlayedTile.mk 7 7 (Tile.mk "A" 1 "A-3-0.24");
                                 PlayedTile.mk 7 7 (Tile.mk "E" 1 "E-0-0.122")]]
                  three_playing in
  board s' = {[ (7, 7) := Tile.mk "E" 1 "E-0-0.122" ]} ∧
  length (all_tiles s') = 99%nat.
Proof. vm_compute. split; reflexivity. Qed.

(** One tile of the rack sent to two empty cells: it is on the board
    twice. *)
Example one_tile_on_two_cells :
  let s' := after [PlayMove "a" [PlayedTile.mk 7 7 (Tile.mk "A" 1 "A-3-0.24");
                                 PlayedTile.mk 7 8 (Tile.mk "A" 1 "A-3-0.24")]]
                  three_playing in
  board_tiles (board s') = [Tile.mk "A" 1 "A-3-0.24"; Tile.mk "A" 1 "A-3-0.24"] ∧
  length (all_tiles s') = 101%nat.
Proof. vm_compute. split; reflexivity. Qed.

Lemma three_playing_conserved : conserved three_playing.
Proof.
  assert (perform_all [AddPlayer "a" "Ann"; AddPlayer "b" "Bob"; AddPlayer "c" ""; StartGame]
            (newGame sample_rnd "room") = Returns (tt, three_playing)) as Hrun
    by (vm_compute; reflexivity).
  eapply conserved_Permutation; [|apply (newGame_conserved sample_rnd "room")].
  eapply perform_all_conserves; [apply newGame_conserved| |exact Hrun].
  cbn [all_well_formed well_formed].
  repeat match goal with
  | |- True => exact I
  | |- _ ∧ _ => split
  | |- match ?x with _ => _ end =>
      let r := eval vm_compute in x in change x with r; cbv beta iota
  end.
Qed.

(** C1 as stated fails: in [three_playing] player "a" holds the tiles
    "A-3-0.24" and "E-0-0.122" and the cell (7,7) is empty; the move that
    sends both to (7,7) is accepted, the board keeps the second tile only,
    and 99 tiles are left. *)
Lemma two_tiles_on_one_cell_lose_one : ¬ moves_from_rack_conserve.
Proof.
  intros H.
  pose (pts := [PlayedTile.mk 7 7 (Tile.mk "A" 1 "A-3-0.24");
                PlayedTile.mk 7 7 (Tile.mk "E" 1 "E-0-0.122")]).
  destruct (playMove "a" pts three_playing) as [[r s']|] eqn:Hm;
    [|vm_compute in Hm; discriminate].
  assert (conserved s') as Hc.
  { apply (H three_playing s' "a" pts r); [apply three_playing_conserved| |exact Hm].
    intros i p Hf. vm_compute in Hf. injection Hf as <- <-.
    repeat constructor; apply (bool_decide_unpack _); vm_compute; exact I. }
  apply conserved_count in Hc.
  vm_compute in Hm. injection Hm as <- <-.
  vm_compute in Hc. discriminate.
Qed.

(** ** Move validation *)

Lemma readCell_on_board s r c :
  on_axis r = true -> on_axis c = true ->
  exists x, readCell (board s) r c = Returns x ∧ not_null x = holds_tile s r c ∧
            (not_null x = true -> exists t, x = Holds t ∧ board s !! (r, c) = Some t).
Proof.
  intros Hr Hc. unfold readCell, holds_tile. rewrite Hr, Hc. cbn.
  destruct (board s !! (r, c)) as [t|] eqn:Hb.
  - exists (Holds t). split; [done|]. split; [done|by eauto].
  - exists Null. split; [done|]. split; [done|done].
Qed.

Lemma occupied_on_board_holds s n : occupied_on_board s n = holds_tile s n.1 n.2.
Proof.
  unfold occupied_on_board.
  destruct (on_axis n.1) eqn:Hr; [|by unfold holds_tile; rewrite Hr].
  destruct (on_axis n.2) eqn:Hc; [|by unfold holds_tile; rewrite Hr, Hc].
  destruct (readCell_on_board s n.1 n.2 Hr Hc) as (x & -> & <- & _). done.
Qed.

Lemma connected_spec s playedTiles :
  connected s playedTiles =
  existsb (fun pt => existsb (fun n => holds_tile s n.1 n.2)
                             (adjacent (PlayedTile.row pt) (PlayedTile.col pt)))
          playedTiles.
Proof.
  unfold connected. induction playedTiles as [|pt rest IH]; [done|].
  cbn [existsb]. rewrite IH. f_equal.
  unfold neighbors, adjacent. cbn [existsb]. by rewrite !occupied_on_board_holds.
Qed.

(** With one row (or one column), every placement is on it. *)
Lemma one_coordinate (coords : list Z) x y :
  size (list_to_set coords : gset Z) = 1%nat -> x ∈ coords -> y ∈ coords -> x = y.
Proof.
  intros Hsize Hx Hy.
  eapply (size_singleton_inv (list_to_set coords : gset Z)).
  - done.
  - by apply elem_of_list_to_set.
  - by apply elem_of_list_to_set.
Qed.

Lemma placed_at_row playedTiles row i :
  Forall (fun pt => PlayedTile.row pt = row) playedTiles ->
  existsb (fun pt => PlayedTile.col pt =? i) playedTiles = placed_at playedTiles row i.
Proof.
  unfold placed_at. induction 1 as [|pt rest Hpt _ IH]; [done|].
  cbn [existsb]. rewrite IH, Hpt, Z.eqb_refl. done.
Qed.

Lemma placed_at_col playedTiles col i :
  Forall (fun pt => PlayedTile.col pt = col) playedTiles ->
  existsb (fun pt => PlayedTile.row pt =? i) playedTiles = placed_at playedTiles i col.
Proof.
  unfold placed_at. induction 1 as [|pt rest Hpt _ IH]; [done|].
  cbn [existsb]. rewrite IH, Hpt, Z.eqb_refl, andb_true_r. done.
Qed.

Lemma row_has_gap_spec s playedTiles row indices :
  on_axis row = true ->
  Forall (fun i => on_axis i = true) indices ->
  Forall (fun pt => PlayedTile.row pt = row) playedTiles ->
  row_has_gap s playedTiles row indices =
    Returns (negb (forallb (fun cell => placed_at playedTiles cell.1 cell.2
                                        || holds_tile s cell.1 cell.2)
                           ((fun c => (row, c)) <$> indices))).
Proof.
  intros Hrow Hidx Hrows. induction Hidx as [|i rest Hi _ IH]; [done|].
  cbn [row_has_gap fmap list_fmap forallb]. 
  destruct (readCell_on_board s row i Hrow Hi) as (x & -> & Hx & _).
  cbn. rewrite Hx, (placed_at_row _ row) by done. rewrite IH.
  by destruct (placed_at playedTiles row i), (holds_tile s row i).
Qed.

Lemma col_has_gap_spec s playedTiles col indices :
  on_axis col = true ->
  Forall (fun i => on_axis i = true) indices ->
  Forall (fun pt => PlayedTile.col pt = col) playedTiles ->
  col_has_gap s playedTiles col indices =
    Returns (negb (forallb (fun cell => placed_at playedTiles cell.1 cell.2
                                        || holds_tile s cell.1 cell.2)
                           ((fun r => (r, col)) <$> indices))).
Proof.
  intros Hcol Hidx Hcols. induction Hidx as [|i rest Hi _ IH]; [done|].
  cbn [col_has_gap fmap list_fmap forallb].
  destruct (readCell_on_board s i col Hi Hcol) as (x & -> & Hx & _).
  cbn. rewrite Hx, (placed_at_col _ col) by done. rewrite IH.
  by destruct (placed_at playedTiles i col), (holds_tile s i col).
Qed.

Lemma size_of_coordinates (coords : list Z) x :
  x ∈ coords -> (0 < size (list_to_set coords : gset Z))%nat.
Proof.
  intros Hx. apply Nat.neq_0_lt_0. apply size_non_empty_iff.
  intros Hempty. apply (not_elem_of_empty (C := gset Z) x).
  rewrite <- Hempty. by apply elem_of_list_to_set.
Qed.

Lemma on_board_rows playedTiles :
  Forall on_board playedTiles ->
  Forall (fun a => on_axis a = true) (PlayedTile.row <$> playedTiles).
Proof. intros H. apply Forall_fmap. eapply Forall_impl; [exact H|]. by intros pt [? ?]. Qed.

Lemma on_board_cols playedTiles :
  Forall on_board playedTiles ->
  Forall (fun a => on_axis a = true) (PlayedTile.col <$> playedTiles).
Proof. intros H. apply Forall_fmap. eapply Forall_impl; [exact H|]. by intros pt [? ?]. Qed.

Lemma all_on_one (f : PlayedTile.t -> Z) first rest :
  size (list_to_set (f <$> first :: rest) : gset Z) = 1%nat ->
  Forall (fun pt => f pt = f first) (first :: rest).
Proof.
  intros Hsize. apply Forall_forall. intros pt Hpt.
  apply (one_coordinate (f <$> first :: rest)); [done| |].
  - by apply list_elem_of_fmap_2.
  - apply list_elem_of_fmap_2, list_elem_of_here.
Qed.

(** After check 3, a move that has not one row has one column. *)
Lemma one_column first rest :
  check_single_line (first :: rest) = true ->
  size (rows_of (first :: rest)) ≠ 1%nat ->
  size (cols_of (first :: rest)) = 1%nat.
Proof.
  unfold check_single_line, rows_of, cols_of. intros Hline Hrows.
  assert (0 < size (list_to_set (PlayedTile.row <$> first :: rest) : gset Z))%nat as Hr
    by (apply (size_of_coordinates _ (PlayedTile.row first)), list_elem_of_here).
  assert (0 < size (list_to_set (PlayedTile.col <$> first :: rest) : gset Z))%nat as Hc
    by (apply (size_of_coordinates _ (PlayedTile.col first)), list_elem_of_here).
  apply negb_true_iff, andb_false_iff in Hline as [Hl|Hl];
    apply bool_decide_eq_false in Hl; lia.
Qed.

Lemma has_gap_spec s playedTiles :
  Forall on_board playedTiles ->
  check_single_line playedTiles = true ->
  has_gap s playedTiles = Returns (negb (check_contiguous s playedTiles)).
Proof.
  intros Hon Hline. unfold has_gap, check_contiguous, line_cells.
  destruct playedTiles as [|first rest]; [done|].
  apply Forall_cons in Hon as Hfirst. destruct Hfirst as [[Hr Hc] _].
  change (distinct (PlayedTile.row <$> first :: rest)) with (rows_of (first :: rest)).
  rewrite !span_min_to_max.
  case_decide as Hrows.
  - apply row_has_gap_spec; [done| |by apply (all_on_one PlayedTile.row)].
    apply Forall_forall. intros i Hi.
    eapply min_to_max_on_axis; [|exact Hi]. by apply on_board_cols.
  - apply col_has_gap_spec; [done| |].
    + apply Forall_forall. intros i Hi.
      eapply min_to_max_on_axis; [|exact Hi]. by apply on_board_rows.
    + apply (all_on_one PlayedTile.col). by apply one_column.
Qed.

Lemma validateMove_spec s playedTiles :
  Forall on_board playedTiles ->
  validateMove s playedTiles = Returns (spec_validateMove s playedTiles).
Proof.
  intros Hon. unfold validateMove, spec_validateMove.
  destruct playedTiles as [|first rest]; [done|].
  rewrite decide_False by done.
  change (check_nonempty (first :: rest)) with true. cbn [negb].
  unfold check_center.
  change (existsb _ (first :: rest)) with (placed_at (first :: rest) 7 7).
  set (both := bool_decide (1 < size (distinct (PlayedTile.row <$> first :: rest)))%nat &&
               bool_decide (1 < size (distinct (PlayedTile.col <$> first :: rest)))%nat).
  assert (check_single_line (first :: rest) = negb both) as Hline by reflexivity.
  rewrite Hline.
  destruct (firstMoveMade s) eqn:Hfm, (placed_at (first :: rest) 7 7) eqn:Hcenter;
    cbn [negb andb orb]; try done.
  all: destruct both eqn:Hboth; cbn [negb]; try done.
  all: rewrite has_gap_spec by (done || by rewrite Hline);
    unfold mbind, outcome_bind; cbn beta iota;
    destruct (check_contiguous s (first :: rest)); cbn [negb]; try done.
  all: unfold check_connected; rewrite ?Hfm, ?connected_spec; cbn [negb andb orb];
    try done; by destruct (existsb _ _).
Qed.

(** C4, amended.  For placements whose coordinates are cells of the 15 x 15
    board, [validateMove] applies the five checks of the specification in
    their order: an empty set, before the opening move a set without (7,7),
    a set over more than one row and more than one column, a cell of the
    line between the least and the greatest placed coordinate with neither
    a new placement nor a tile of the board, after the opening move no
    placed tile next to a tile of the board.  The first check that fails
    gives its reason, the five reasons differ, and a set that passes every
    check is accepted. *)
Theorem validateMove_checks_in_order (s : ScrabbleGame) (playedTiles : list PlayedTile.t) :
  Forall on_board playedTiles ->
  validateMove s playedTiles = Returns (spec_validateMove s playedTiles) ∧
  NoDup validation_reasons ∧
  (spec_validateMove s playedTiles = Valid <->
   check_nonempty playedTiles = true ∧ check_center s playedTiles = true ∧
   check_single_line playedTiles = true ∧ check_contiguous s playedTiles = true ∧
   check_connected s playedTiles = true).
Proof.
  intros Hon. split; [by apply validateMove_spec|split].
  - apply (bool_decide_unpack _). vm_compute. exact I.
  - unfold spec_validateMove.
    destruct (check_nonempty playedTiles), (check_center s playedTiles),
      (check_single_line playedTiles), (check_contiguous s playedTiles),
      (check_connected s playedTiles); cbn;
      (split; [intros Hv; try discriminate Hv; by repeat split
              |intros (? & ? & ? & ? & ?); try discriminate; reflexivity]).
Qed.

Lemma validateMove_checks_in_order_witness :
  validateMove three_playing
    [PlayedTile.mk 7 7 (Tile.mk "A" 1 "A-3-0.24"); PlayedTile.mk 7 8 (Tile.mk "E" 1 "E-0-0.122")]
  = Returns Valid.
Proof.
  refine (eq_trans (proj1 (validateMove_checks_in_order three_playing _ _)) _).
  - repeat constructor.
  - vm_compute. reflexivity.
Defined.

(** The restriction to the board is needed.  In [row_to_13] row 7 holds
    tiles from the center to column 13, and the placements on column 14 and
    on column 16 are accepted: column 15, which no row of the board has,
    reads [undefined], which is not [null] and so counts as covered, and
    the tile on column 14 is next to the tile on column 13.  The fourth
    check of the specification finds column 15 uncovered. *)
Lemma gap_past_the_edge_is_accepted : ¬ checks_every_placement_set.
Proof.
  intros H. pose proof (H row_to_13 over_the_edge) as Heq.
  vm_compute in Heq. discriminate.
Qed.

Example over_the_edge_verdicts :
  validateMove row_to_13 over_the_edge = Returns Valid ∧
  spec_validateMove row_to_13 over_the_edge = Invalid "Tiles must be contiguous".
Proof. vm_compute. split; reflexivity. Qed.

(** Outside the board the checks are not those of the specification: a
    row that the board does not have raises, and a column that it does not
    have counts as covered (here column 15, between the placements at
    columns 14 and 16). *)
Example validateMove_off_board :
  let s := set_firstMoveMade true
             (set_board {[ (7, 13) := Tile.mk "T" 1 "T-2-0.577" ]} three_playing) in
  validateMove s [PlayedTile.mk 15 7 (Tile.mk "A" 1 "A-3-0.24")] = Throws ∧
  validateMove s [PlayedTile.mk 7 14 (Tile.mk "A" 1 "A-3-0.24");
                  PlayedTile.mk 7 16 (Tile.mk "E" 1 "E-0-0.122")] = Returns Valid ∧
  spec_validateMove s [PlayedTile.mk 7 14 (Tile.mk "A" 1 "A-3-0.24");
                       PlayedTile.mk 7 16 (Tile.mk "E" 1 "E-0-0.122")]
    = Invalid "Tiles must be contiguous".
Proof. vm_compute. repeat split; reflexivity. Qed.

(** After the opening move, tiles at columns 3 and 5 of a row with column 4
    free are rejected for the gap; with a tile of the board at column 4 the
    same placements are accepted. *)
Example validateMove_gap :
  let pts := [PlayedTile.mk 7 3 (Tile.mk "A" 1 "A-3-0.24");
              PlayedTile.mk 7 5 (Tile.mk "E" 1 "E-0-0.122")] in
  validateMove (set_firstMoveMade true three_playing) pts
    = Returns (Invalid "Tiles must be contiguous") ∧
  validateMove (set_firstMoveMade true
                  (set_board {[ (7, 4) := Tile.mk "T" 1 "T-2-0.577" ]} three_playing)) pts
    = Returns Valid.
Proof. vm_compute. split; reflexivity. Qed.

(** ** Scoring *)




(** ** Numbers that are kept *)














Lemma readCell_cell s r c :
  on_axis r = true -> on_axis c = true ->
  readCell (board s) r c =
    Returns (match board s !! (r, c) with Some t => Holds t | None => Null end).
Proof.
  intros Hr Hc. unfold readCell. rewrite Hr, Hc. by destruct (board s !! (r, c)).
Qed.











(** Three tiles of value 1 on the triple word (7,0) and the plain cells
    (7,1) and (7,2) score (1 + 1 + 1) * 3; seven tiles of values 15 in all
    over the center, on no other premium cell, score 15 * 2 and 50. *)
Example calculateScore_samples :
  calculateScore three_playing
    [PlayedTile.mk 7 0 (Tile.mk "A" 1 "A-3-0.24"); PlayedTile.mk 7 1 (Tile.mk "E" 1 "E-0-0.122");
     PlayedTile.mk 7 2 (Tile.mk "O" 1 "O-0-0.416")] = Returns 9 ∧
  calculateScore three_playing
    [PlayedTile.mk 7 4 (Tile.mk "A" 1 "A-3-0.24"); PlayedTile.mk 7 5 (Tile.mk "E" 1 "E-0-0.122");
     PlayedTile.mk 7 6 (Tile.mk "G" 2 "G-0-0.220"); PlayedTile.mk 7 7 (Tile.mk "J" 8 "J-0-0.318");
     PlayedTile.mk 7 8 (Tile.mk "O" 1 "O-0-0.416"); PlayedTile.mk 7 9 (Tile.mk "R" 1 "R-3-0.514");
     PlayedTile.mk 7 10 (Tile.mk "U" 1 "U-1-0.612")] = Returns (15 * 2 + 50).
Proof. vm_compute. split; reflexivity. Qed.

(** ** Moves with tiles that are not in the rack *)

Lemma score_tiles_returns s acc playedTiles :
  Forall on_board playedTiles -> exists acc', score_tiles s acc playedTiles = Returns acc'.
Proof.
  intros Hon. revert acc. induction Hon as [|pt rest [Hr Hc] _ IH]; intros [a m].
  - by eexists.
  - cbn [score_tiles]. unfold score_tile, getPremiumSquare.
    rewrite readCell_cell by done. unfold mbind, outcome_bind.
    destruct (not_null _); apply IH.
Qed.

Lemma add_row_line_returns s playedTiles row indices totalScore :
  on_axis row = true ->
  Forall (fun i => on_axis i = true) indices ->
  exists total', add_row_line s playedTiles row indices totalScore = Returns total'.
Proof.
  intros Hrow Hidx. revert totalScore.
  induction Hidx as [|i rest Hi _ IH]; intros totalScore; [by eexists|].
  cbn [add_row_line]. rewrite readCell_cell by done. unfold mbind, outcome_bind.
  destruct (board s !! (row, i)); cbn [not_null andb cell_value]; [|apply IH].
  destruct (negb _); apply IH.
Qed.

Lemma add_col_line_returns s playedTiles col indices totalScore :
  on_axis col = true ->
  Forall (fun i => on_axis i = true) indices ->
  exists total', add_col_line s playedTiles col indices totalScore = Returns total'.
Proof.
  intros Hcol Hidx. revert totalScore.
  induction Hidx as [|i rest Hi _ IH]; intros totalScore; [by eexists|].
  cbn [add_col_line]. rewrite readCell_cell by done. unfold mbind, outcome_bind.
  destruct (board s !! (i, col)); cbn [not_null andb cell_value]; [|apply IH].
  destruct (negb _); apply IH.
Qed.

Lemma calculateScore_returns s playedTiles :
  Forall on_board playedTiles -> exists score, calculateScore s playedTiles = Returns score.
Proof.
  intros Hon. unfold calculateScore.
  destruct (score_tiles_returns s (0, 1) playedTiles Hon) as [[a m] ->].
  unfold mbind at 1, outcome_bind at 1.
  assert (exists total', add_line s playedTiles a = Returns total') as [total' ->].
  { unfold add_line. destruct playedTiles as [|first rest]; [by eexists|].
    apply Forall_cons in Hon as Hfirst. destruct Hfirst as [[Hr Hc] _].
    rewrite !span_min_to_max. case_decide.
    - apply add_row_line_returns; [done|]. apply Forall_forall. intros i Hi.
      eapply min_to_max_on_axis; [|exact Hi]. by apply on_board_cols.
    - apply add_col_line_returns; [done|]. apply Forall_forall. intros i Hi.
      eapply min_to_max_on_axis; [|exact Hi]. by apply on_board_rows. }
  unfold mbind, outcome_bind. by eexists.
Qed.

Lemma moved_rack i p score playedTiles s :
  players s !! i = Some p ->
  foreign_to (Player.tiles p) playedTiles ->
  let n := (length playedTiles `min` length (tileBag s))%nat in
  players (moved i score playedTiles s) !! i =
    Some (set_tiles (Player.tiles p ++ reverse (drop (length (tileBag s) - n) (tileBag s)))
                    (set_score (Number.plus (Player.score p) score) p)) ∧
  tileBag (moved i score playedTiles s) = take (length (tileBag s) - n) (tileBag s).
Proof.
  intros Hp Hforeign n. unfold moved, tiles_dealt, dealt, turn_advanced. cbn.
  split; [|done].
  rewrite !list_alter_alter_eq, list_lookup_alter_eq, Hp. cbn. f_equal.
  unfold set_tiles. cbn. f_equal. f_equal.
  apply filter_all, Forall_forall. intros t Ht Hin.
  unfold played_ids in Hin. rewrite elem_of_list_to_set in Hin.
  apply list_elem_of_fmap in Hin as (pt & Hid & Hpt).
  unfold foreign_to in Hforeign. rewrite Forall_forall in Hforeign.
  apply (Hforeign pt Hpt). rewrite <- Hid. by apply list_elem_of_fmap_2.
Qed.

(** C9, amended.  [playMove] does not look for the placed tiles in the
    mover's rack: when the current player sends placements on the board that
    [validateMove] accepts and whose tile ids are not ids of the rack, the
    move succeeds, the rack keeps every tile, and the last
    min(placed, bag) tiles of the bag are added to it; so the rack grows by
    that number: strictly when the bag is not empty, not at all when it is
    empty, and past 7 tiles when it held 7 and the bag is not empty. *)
Theorem playMove_ignores_rack (s : ScrabbleGame) (playerId : string)
    (playedTiles : list PlayedTile.t) (i : nat) (p : Player.t) :
  turn_guard s playerId = Returns (Some (i, p)) ->
  Forall on_board playedTiles ->
  validateMove s playedTiles = Returns Valid ->
  foreign_to (Player.tiles p) playedTiles ->
  let n := (length playedTiles `min` length (tileBag s))%nat in
  exists score s' p',
    playMove playerId playedTiles s = Returns (Success (Some score), s') ∧
    players s' !! i = Some p' ∧
    Player.tiles p' =
      Player.tiles p ++ reverse (drop (length (tileBag s) - n) (tileBag s)) ∧
    length (Player.tiles p') = (length (Player.tiles p) + n)%nat ∧
    (tileBag s ≠ [] -> (length (Player.tiles p) < length (Player.tiles p'))%nat) ∧
    (tileBag s = [] -> Player.tiles p' = Player.tiles p) ∧
    (tileBag s ≠ [] -> (7 <= length (Player.tiles p))%nat ->
     (7 < length (Player.tiles p'))%nat).
Proof.
  intros Hg Hon Hv Hforeign n.
  destruct (calculateScore_returns s playedTiles Hon) as [score Hs].
  apply turn_guard_Some in Hg as Hg'. destruct Hg' as (_ & Hp & _).
  destruct (moved_rack i p score playedTiles s Hp Hforeign) as [Hrack _].
  assert (0 < length playedTiles)%nat as Hpos.
  { destruct playedTiles; [|cbn; lia]. by vm_compute in Hv. }
  set (rack' := Player.tiles p ++ reverse (drop (length (tileBag s) - n) (tileBag s))) in *.
  assert (length rack' = (length (Player.tiles p) + n)%nat) as Hlen.
  { unfold rack'. rewrite length_app, length_reverse, length_drop. lia. }
  exists score, (moved i score playedTiles s),
    (set_tiles rack' (set_score (Number.plus (Player.score p) score) p)).
  split.
  { apply (playMove_run playerId playedTiles s i p score); try done.
    eapply Forall_impl; [exact Hon|]. by intros pt [? _]. }
  split; [exact Hrack|].
  change (Player.tiles (set_tiles rack' (set_score (Number.plus (Player.score p) score) p)))
    with rack'.
  split; [done|]. split; [done|].
  split; [|split].
  - intros Hbag. rewrite Hlen. destruct (tileBag s); [done|]. cbn in n. lia.
  - intros Hbag. unfold rack'. rewrite Hbag. cbn. by rewrite app_nil_r.
  - intros Hbag Hfull. rewrite Hlen. destruct (tileBag s); [done|]. cbn in n. lia.
Qed.

Lemma playMove_ignores_rack_witness :
  exists score s' p',
    playMove "a" [PlayedTile.mk 7 7 (Tile.mk "X" 8 "fake-7")] three_playing
      = Returns (Success (Some score), s') ∧
    players s' !! 0%nat = Some p' ∧
    length (Player.tiles p') = 8%nat.
Proof.
  destruct (turn_guard three_playing "a") as [[[i p]|]|] eqn:Hg;
    [|vm_compute in Hg; discriminate..].
  destruct (playMove_ignores_rack three_playing "a"
              [PlayedTile.mk 7 7 (Tile.mk "X" 8 "fake-7")] i p Hg)
    as (score & s' & p' & Hrun & Hp' & _ & Hlen & _).
  - repeat constructor.
  - vm_compute. reflexivity.
  - vm_compute in Hg. injection Hg as <- <-.
    repeat constructor. apply (bool_decide_unpack _). vm_compute. exact I.
  - vm_compute in Hg. injection Hg as <- <-.
    exists score, s', p'. split; [exact Hrun|]. split; [exact Hp'|].
    rewrite Hlen. vm_compute. reflexivity.
Defined.

(** C9 as stated fails when the bag is empty.  In [bag_drained] the bag is
    empty and it is the turn of "a", who holds 37 tiles; the move
    [foreign_row] is accepted and the rack still holds 37 tiles. *)
Lemma foreign_move_with_empty_bag : ¬ foreign_move_grows_rack.
Proof.
  intros H.
  destruct (turn_guard bag_drained "a") as [[[i p]|]|] eqn:Hg;
    [|vm_compute in Hg; discriminate..].
  destruct (playMove "a" foreign_row bag_drained) as [[r s']|] eqn:Hm;
    [|vm_compute in Hm; discriminate].
  destruct (players s' !! i) as [p'|] eqn:Hp'.
  2:{ vm_compute in Hg. injection Hg as <- <-.
      vm_compute in Hm. injection Hm as <- <-. vm_compute in Hp'. discriminate. }
  assert (length (Player.tiles p) < length (Player.tiles p'))%nat as Hlt.
  { apply (H bag_drained s' "a" foreign_row i p p' r Hg); [| | |exact Hm|exact Hp'].
    - unfold foreign_row. apply Forall_fmap, Forall_forall. intros c Hc.
      apply elem_of_seqZ in Hc. split; cbn; unfold on_axis; lia.
    - vm_compute. reflexivity.
    - vm_compute in Hg. injection Hg as <- <-.
      apply (bool_decide_unpack _). vm_compute. exact I. }
  vm_compute in Hg. injection Hg as <- <-.
  vm_compute in Hm. injection Hm as <- <-.
  vm_compute in Hp'. injection Hp' as <-.
  vm_compute in Hlt. lia.
Qed.

(** ** Rejections *)

Lemma turn_guard_returns s playerId :
  (players s ≠ [] -> currentPlayerIndex s < length (players s))%nat ->
  exists g, turn_guard s playerId = Returns g.
Proof.
  intros Hok. unfold turn_guard.
  destruct (find_player _ _) as [[j q]|] eqn:Hf; [|by eexists].
  apply list_find_Some in Hf as (Hl & _).
  destruct (getCurrentPlayer s) as [cur|] eqn:Hc; [by eexists|].
  unfold getCurrentPlayer in Hc. apply lookup_ge_None in Hc.
  assert (players s ≠ []) as Hne by (intros E; rewrite E in Hl; done).
  specialize (Hok Hne). lia.
Qed.

Lemma playMove_returns s playerId playedTiles :
  (players s ≠ [] -> currentPlayerIndex s < length (players s))%nat ->
  Forall on_board playedTiles ->
  exists r s', playMove playerId playedTiles s = Returns (r, s').
Proof.
  intros Hok Hon. destruct (turn_guard_returns s playerId Hok) as [[[i p]|] Hg].
  - destruct (spec_validateMove s playedTiles) eqn:Hv.
    + destruct (calculateScore_returns s playedTiles Hon) as [score Hs].
      eexists _, _. apply (playMove_run playerId playedTiles s i p score); try done.
      * by rewrite validateMove_spec, Hv.
      * eapply Forall_impl; [exact Hon|]. by intros pt [? _].
    + unfold playMove. run_monad. rewrite Hg. cbn.
      rewrite validateMove_spec, Hv by done. by eexists _, _.
  - unfold playMove. run_monad. rewrite Hg. by eexists _, _.
Qed.

(** C6.  A [playMove], [passTurn] or [exchangeTiles] that returns a failure
    returns it with the session it was called on, and with one of the
    reasons of the operation.  When the turn index is in range and the
    current player is not [playerId], [playMove] for [playerId] returns
    the failure ["Not your turn"] and the session unchanged.  With the turn
    index in range (and, for [playMove], placements on the board) the three
    operations return a result and raise nothing. *)
Theorem rejections_leave_session (s : ScrabbleGame) :
  (forall playerId playedTiles error s',
     playMove playerId playedTiles s = Returns (Failure error, s') ->
     s' = s ∧ error ∈ move_reasons) ∧
  (forall playerId error s',
     passTurn playerId s = Returns (Failure error, s') ->
     s' = s ∧ error = "Not your turn") ∧
  (forall rnd playerId tileIds error s',
     exchangeTiles rnd playerId tileIds s = Returns (Failure error, s') ->
     s' = s ∧ error ∈ exchange_reasons) ∧
  (forall playerId playedTiles,
     (players s ≠ [] -> currentPlayerIndex s < length (players s))%nat ->
     (forall p, getCurrentPlayer s = Some p -> Player.id p ≠ playerId) ->
     playMove playerId playedTiles s = Returns (Failure "Not your turn", s)) ∧
  ((players s ≠ [] -> currentPlayerIndex s < length (players s))%nat ->
   (forall playerId playedTiles,
      Forall on_board playedTiles ->
      exists r s', playMove playerId playedTiles s = Returns (r, s')) ∧
   (forall playerId, exists r s', passTurn playerId s = Returns (r, s')) ∧
   (forall rnd playerId tileIds,
      exists r s', exchangeTiles rnd playerId tileIds s = Returns (r, s'))).
Proof.
  split; [|split; [|split; [|split]]].
  - intros playerId pts error s' H.
    apply playMove_inv in H as [[-> [[[= ->] _]|(e & [= ->] & Hv)]]|(i & p & sc & _ & _ & _ & ? & _)];
      [| |done].
    + split; [done|]. apply list_elem_of_here.
    + split; [done|]. apply list_elem_of_further. by eapply validateMove_reasons.
  - intros playerId error s' H.
    apply passTurn_inv in H as [([= ->] & -> & _)|(? & _)]; done.
  - intros rnd playerId ids error s' H.
    apply exchangeTiles_inv in H as [[-> [[[= ->] _]|[[= ->] _]]]|(i & p & _ & _ & ? & _)];
      [| |done]; (split; [done|]); repeat constructor.
  - intros playerId pts Hok Hother.
    unfold playMove. run_monad. rewrite turn_guard_other by done. reflexivity.
  - intros Hok. split; [|split].
    + intros playerId pts Hon. by apply playMove_returns.
    + intros playerId. destruct (turn_guard_returns s playerId Hok) as [[[i p]|] Hg];
        unfold passTurn; run_monad; rewrite Hg; by eexists _, _.
    + intros rnd playerId ids.
      destruct (turn_guard_returns s playerId Hok) as [[[i p]|] Hg].
      * destruct (decide (length (tileBag s) < length ids)%nat) as [Hlt|Hge].
        -- unfold exchangeTiles. run_monad. rewrite Hg. cbn.
           rewrite decide_True by done. by eexists _, _.
        -- eexists _, _. apply (exchangeTiles_run rnd playerId ids s i p); [done|lia].
      * unfold exchangeTiles. run_monad. rewrite Hg. by eexists _, _.
Qed.

(** * Further properties of the session *)

(** ** Shuffling *)

Lemma swap_length {A : Type} (i j : nat) (a : list A) : length (swap i j a) = length a.
Proof. by rewrite swap_Permutation. Qed.

Lemma swap_app_l {A : Type} (i j : nat) (a b : list A) :
  (i < length a)%nat -> (j < length a)%nat -> swap i j (a ++ b) = swap i j a ++ b.
Proof.
  intros Hi Hj. unfold swap. rewrite !lookup_app_l by done.
  destruct (a !! i) as [x|] eqn:Hx; [|by apply lookup_ge_None in Hx; lia].
  destruct (a !! j) as [y|] eqn:Hy; [|by apply lookup_ge_None in Hy; lia].
  rewrite insert_app_l by done. rewrite insert_app_l by (by rewrite length_insert). done.
Qed.

Lemma shuffle_from_app_l {A : Type} rnd (k i : nat) (a b : list A) :
  (i < length a)%nat -> shuffle_from rnd k i (a ++ b) = shuffle_from rnd k i a ++ b.
Proof.
  revert k a. induction i as [|i IH]; intros k a Hi; [done|].
  cbn [shuffle_from].
  assert (random_index (rnd k) (S i + 1) < length a)%nat as Hj.
  { unfold random_index. pose proof (Nat.mod_upper_bound (rnd k) (S i + 1)). lia. }
  rewrite swap_app_l by done. apply IH. rewrite swap_length. lia.
Qed.

Lemma shuffle_from_shift {A : Type} rnd (k i : nat) (a : list A) :
  shuffle_from rnd (S k) i a = shuffle_from (fun n => rnd (S n)) k i a.
Proof. revert k a. induction i as [|i IH]; intros k a; [done|]. cbn [shuffle_from]. apply IH. Qed.

(** The swap that brings the element at [j] to the end. *)
Lemma swap_to_end {A : Type} (a : list A) (x y : A) (j : nat) :
  (a ++ [x]) !! j = Some y ->
  exists a', swap (length a) j (a ++ [x]) = a' ++ [y] ∧ a' ++ [y] ≡ₚ a ++ [x].
Proof.
  intros Hj.
  assert (length (swap (length a) j (a ++ [x])) = S (length a)) as Hlen.
  { rewrite swap_length, length_app. cbn. lia. }
  destruct (exists_last (l := swap (length a) j (a ++ [x]))) as (a' & z & Heq).
  { intros E. by rewrite E in Hlen. }
  exists a'. rewrite Heq in Hlen. rewrite length_app in Hlen. cbn in Hlen.
  assert (z = y) as ->.
  { assert (swap (length a) j (a ++ [x]) !! length a = Some z) as Hz.
    { rewrite Heq. replace (length a) with (length a' + 0)%nat by lia.
      by rewrite lookup_app_r, Nat.add_comm, Nat.add_sub by lia. }
    unfold swap in Hz. rewrite Hj in Hz.
    rewrite lookup_app_r, Nat.sub_diag in Hz by done. cbn in Hz.
    destruct (decide (j = length a)) as [->|Hne].
    - rewrite list_lookup_insert_eq in Hz by (rewrite length_insert, length_app; cbn; lia).
      rewrite lookup_app_r, Nat.sub_diag in Hj by done. cbn in Hj. congruence.
    - rewrite list_lookup_insert_ne in Hz by done.
      rewrite list_lookup_insert_eq in Hz by (rewrite length_app; cbn; lia). congruence. }
  split; [done|]. rewrite <- Heq. apply swap_Permutation.
Qed.

Lemma shuffle_from_reaches {A : Type} (i : nat) (a b : list A) :
  length a = S i -> a ≡ₚ b -> exists rnd, shuffle_from rnd 0 i a = b.
Proof.
  revert a b. induction i as [|i IH]; intros a b Hlen Hperm.
  - exists (fun _ => 0%nat). cbn.
    destruct a as [|x [|? ?]]; try done. by apply Permutation_singleton_l in Hperm.
  - destruct (exists_last (l := b)) as (b' & y & ->).
    { intros ->. apply Permutation_nil_r in Hperm. by subst. }
    destruct (exists_last (l := a)) as (a0 & x & ->).
    { by intros ->. }
    rewrite length_app in Hlen. cbn in Hlen.
    assert (y ∈ a0 ++ [x]) as Hy.
    { rewrite Hperm. apply elem_of_app. right. apply list_elem_of_here. }
    apply list_elem_of_lookup in Hy as [j Hj].
    assert (j < S (S i))%nat as Hjlt.
    { apply lookup_lt_Some in Hj. rewrite length_app in Hj. cbn in Hj. lia. }
    destruct (swap_to_end a0 x y j Hj) as (a' & Hswap & Hperm').
    assert (a' ≡ₚ b') as Hrest.
    { apply (Permutation_app_inv_r [y]). by rewrite Hperm'. }
    assert (length a' = S i) as Hlen'.
    { apply Permutation_length in Hperm'. rewrite !length_app in Hperm'. cbn in Hperm'. lia. }
    destruct (IH a' b' Hlen' Hrest) as [rnd' Hrnd'].
    exists (fun n => match n with O => j | S n' => rnd' n' end).
    cbn [shuffle_from]. unfold random_index. rewrite Nat.mod_small by lia.
    replace (S i) with (length a0) at 1 by lia.
    rewrite Hswap, shuffle_from_shift, shuffle_from_app_l by lia.
    rewrite <- Hrnd'. reflexivity.
Qed.

(** X1.  [shuffle] returns an arrangement of the elements of its argument,
    whatever the draws, and every arrangement is returned for some draws. *)
Theorem shuffle_arrangements {A : Type} (a b : list A) :
  a ≡ₚ b ->
  (exists rnd, shuffle rnd a = b) ∧
  (forall rnd, shuffle rnd a ≡ₚ b ∧ length (shuffle rnd a) = length b).
Proof.
  intros Hperm. split.
  - unfold shuffle. destruct a as [|x a].
    + exists (fun _ => 0%nat). apply Permutation_nil_l in Hperm. by subst.
    + apply shuffle_from_reaches; [cbn; lia|done].
  - intros rnd. split; [by rewrite shuffle_Permutation|].
    by rewrite shuffle_length, Hperm.
Qed.

Lemma shuffle_arrangements_witness :
  exists rnd, shuffle rnd [1; 2; 3] = [3; 1; 2].
Proof.
  refine (proj1 (shuffle_arrangements [1; 2; 3] [3; 1; 2] _)).
  apply (bool_decide_unpack _). vm_compute. exact I.
Defined.

(** ** The new bag *)

(** X2.  Whatever the draws, the bag of a new session holds 100 tiles: the
    canonical distribution, each letter as often as [TILE_DISTRIBUTION]
    says, each tile with the value [TILE_VALUES] gives its letter, no two
    tiles with the same id. *)
Theorem initializeTileBag_distribution (rnd : nat -> nat) :
  length (initializeTileBag rnd) = 100%nat ∧
  face <$> initializeTileBag rnd ≡ₚ canonical_distribution ∧
  NoDup (Tile.id <$> initializeTileBag rnd) ∧
  Forall (fun entry : string * nat =>
            length (filter (fun t => Tile.letter t = entry.1) (initializeTileBag rnd)) = entry.2)
         TILE_DISTRIBUTION ∧
  Forall (fun t => table_get TILE_VALUES (Tile.letter t) = Some (Tile.value t))
         (initializeTileBag rnd).
Proof.
  assert (initializeTileBag rnd ≡ₚ unshuffled_bag rnd) as Hperm.
  { unfold initializeTileBag. cbv zeta. apply shuffle_Permutation. }
  split; [by rewrite Hperm|]. split; [by rewrite Hperm, (unshuffled_bag_faces rnd)|].
  split; [rewrite Hperm; apply unshuffled_bag_ids|]. split.
  - eapply Forall_impl with
      (P := fun entry : string * nat =>
              length (filter (fun f : string * Z => f.1 = entry.1) canonical_distribution)
              = entry.2).
    + apply (bool_decide_unpack _). vm_compute. exact I.
    + intros entry <-. rewrite Hperm, <- (unshuffled_bag_faces rnd).
      generalize (unshuffled_bag rnd). intros l.
      induction l as [|t l IH]; [done|]. cbn [fmap list_fmap].
      rewrite !filter_cons. unfold face at 1. cbn [fst].
      destruct (decide (Tile.letter t = entry.1)); cbn; by rewrite IH.
  - rewrite Hperm.
    apply (Forall_fmap face (fun f : string * Z => table_get TILE_VALUES f.1 = Some f.2)).
    rewrite (unshuffled_bag_faces rnd).
    apply (bool_decide_unpack _). vm_compute. exact I.
Qed.

(** ** Dealing *)

Lemma dealt_all_none i s : dealt_all i 0 s = s.
Proof.
  destruct s as [room ps cpi b bag gs fm h]. unfold dealt_all.
  cbn [roomId players currentPlayerIndex board tileBag gameStarted firstMoveMade hostId].
  rewrite Nat.mul_0_r, Nat.sub_0_r, take_ge by lia. f_equal.
  apply list_eq. intros k. rewrite list_lookup_imap.
  destruct (ps !! k); [|done]. cbn. rewrite decide_False by lia. done.
Qed.

Lemma share_next (bag : list Tile.t) (j : nat) :
  share (take (length bag - 7) bag) j = share bag (S j).
Proof.
  unfold share. rewrite length_take, take_take. f_equal. f_equal; [lia|]. f_equal. lia.
Qed.

Ltac split_decide :=
  repeat match goal with
         | |- context [decide ?P] => destruct (decide P); try lia
         end.

Lemma deal_all_dealt_all i n s : deal_all i n s = Returns (tt, dealt_all i n s).
Proof.
  revert i s. induction n as [|n IH]; intros i s.
  - by rewrite dealt_all_none.
  - cbn [deal_all]. run_monad. rewrite tiles_dealt_run, IH. f_equal. f_equal.
    unfold dealt_all, tiles_dealt, dealt. cbn [roomId players currentPlayerIndex board tileBag
      gameStarted firstMoveMade hostId].
    replace (length (tileBag s) - 7 `min` length (tileBag s))%nat
      with (length (tileBag s) - 7)%nat by lia.
    f_equal.
    + apply list_eq. intros k. rewrite !list_lookup_imap.
      destruct (decide (k = i)) as [->|Hne].
      * rewrite list_lookup_alter_eq. destruct (players s !! i) as [p|]; [|done]. cbn.
        split_decide. unfold share. rewrite Nat.sub_diag, Nat.mul_0_r, Nat.sub_0_r.
        rewrite (take_ge (tileBag s) (length (tileBag s))) by lia.
        do 4 f_equal; lia.
      * rewrite list_lookup_alter_ne by done. destruct (players s !! k) as [p|]; [|done]. cbn.
        split_decide; try done. rewrite share_next. do 4 f_equal; lia.
    + rewrite length_take, take_take. f_equal. lia.
Qed.

(** X3.  [dealTiles] never fails: it moves the last min(count, bag) tiles
    of the bag to the end of the rack, the last tile of the bag first, and
    leaves the other players as they are; with an empty bag it changes
    nothing. *)
Theorem dealTiles_draws_from_tail (s : ScrabbleGame) (i count : nat) (p : Player.t) :
  players s !! i = Some p ->
  exists s' drawn,
    dealTiles i count s = Returns (tt, s') ∧
    tileBag s = tileBag s' ++ reverse drawn ∧
    length drawn = (count `min` length (tileBag s))%nat ∧
    players s' !! i = Some (set_tiles (Player.tiles p ++ drawn) p) ∧
    (forall j, j ≠ i -> players s' !! j = players s !! j) ∧
    (tileBag s = [] -> s' = s) ∧
    set_players (players s) (set_tileBag (tileBag s) s') = s.
Proof.
  intros Hp. set (n := (count `min` length (tileBag s))%nat).
  exists (dealt i n s), (reverse (drop (length (tileBag s) - n) (tileBag s))).
  split; [apply dealTiles_dealt|]. unfold dealt. cbn [tileBag players].
  split; [by rewrite reverse_involutive, take_drop|].
  split; [rewrite length_reverse, length_drop; lia|].
  split; [by rewrite list_lookup_alter_eq, Hp|].
  split; [intros j Hj; by rewrite list_lookup_alter_ne|].
  split; [|by destruct s].
  intros Hbag. fold (dealt i n s). subst n. rewrite Hbag. cbn [length].
  rewrite Nat.min_0_r. apply dealt_zero.
Qed.

Lemma dealTiles_draws_from_tail_witness :
  exists s' drawn,
    dealTiles 1 3 three_in_lobby = Returns (tt, s') ∧ length drawn = 3%nat ∧
    tileBag three_in_lobby = tileBag s' ++ reverse drawn.
Proof.
  destruct (players three_in_lobby !! 1%nat) as [p|] eqn:Hp;
    [|vm_compute in Hp; discriminate].
  destruct (dealTiles_draws_from_tail three_in_lobby 1 3 p Hp)
    as (s' & drawn & Hrun & Hbag & Hlen & _).
  exists s', drawn. split; [done|]. split; [|done]. rewrite Hlen. vm_compute. reflexivity.
Defined.

(** X4.  [startGame] returns [false] and changes nothing when the game has
    started or fewer than two players are there.  Otherwise it returns
    [true], sets [gameStarted], and deals to the players in their order from
    the end of the bag: the player at position [k] gets the tiles
    [7k .. 7k+6] counted from the end, as far as the bag has them; with at
    least 7 tiles for each player, every rack grows by 7. *)
Theorem startGame_deals_in_order (s : ScrabbleGame) :
  (gameStarted s = true ∨ (length (players s) < 2)%nat ->
   startGame s = Returns (false, s)) ∧
  (gameStarted s = false -> (2 <= length (players s))%nat ->
   exists s',
     startGame s = Returns (true, s') ∧
     gameStarted s' = true ∧
     tileBag s' = take (length (tileBag s) - 7 * length (players s)) (tileBag s) ∧
     (forall k p, players s !! k = Some p ->
        players s' !! k = Some (set_tiles (Player.tiles p ++ share (tileBag s) k) p) ∧
        (7 * length (players s) <= length (tileBag s) ->
         length (share (tileBag s) k) = 7)%nat) ∧
     currentPlayerIndex s' = currentPlayerIndex s ∧ board s' = board s ∧
     firstMoveMade s' = firstMoveMade s ∧ hostId s' = hostId s ∧ roomId s' = roomId s).
Proof.
  split.
  - intros H. unfold startGame. run_monad.
    destruct H as [-> | H]; [done|].
    rewrite bool_decide_eq_true_2 by done. by rewrite orb_true_r.
  - intros Hgs Hn. unfold startGame. run_monad.
    rewrite Hgs, bool_decide_eq_false_2 by lia. cbn [orb]. run_monad. cbn.
    rewrite deal_all_dealt_all. eexists. split; [done|].
    unfold dealt_all. cbn.
    split; [done|]. split; [done|]. split; [|done].
    intros k p Hk. split.
    + rewrite list_lookup_imap, Hk. cbn.
      apply lookup_lt_Some in Hk as Hlt.
      rewrite decide_True by lia. by rewrite Nat.sub_0_r.
    + intros Hbag. apply lookup_lt_Some in Hk.
      unfold share. rewrite length_reverse, length_drop, length_take. lia.
Qed.

Lemma startGame_deals_in_order_witness :
  exists s', startGame three_in_lobby = Returns (true, s') ∧ length (tileBag s') = 79%nat.
Proof.
  destruct (proj2 (startGame_deals_in_order three_in_lobby)) as (s' & Hrun & _ & Hbag & _).
  - vm_compute. reflexivity.
  - vm_compute. lia.
  - exists s'. split; [done|]. rewrite Hbag, length_take. vm_compute. reflexivity.
Defined.

(** ** The roster *)

Lemma roles_alter (f : Player.t -> Player.t) (i : nat) (ps : list Player.t) :
  (forall p, role (f p) = role p) -> role <$> alter f i ps = role <$> ps.
Proof.
  intros Hf. revert i. induction ps as [|q ps IH]; intros [|i]; cbn; try done.
  - by rewrite Hf.
  - f_equal. apply IH.
Qed.

Lemma roles_imap (f : nat -> Player.t -> Player.t) (ps : list Player.t) :
  (forall k p, role (f k p) = role p) -> role <$> imap f ps = role <$> ps.
Proof.
  intros Hf. apply list_eq. intros k. rewrite !list_lookup_fmap, list_lookup_imap.
  destruct (ps !! k); cbn; [|done]. by rewrite Hf.
Qed.

Lemma host_first_roles s s' :
  role <$> players s' = role <$> players s -> hostId s' = hostId s ->
  host_first s -> host_first s'.
Proof.
  unfold host_first. intros Hroles Hhost.
  destruct (players s) as [|p rest], (players s') as [|p' rest']; try done.
  cbn in Hroles. injection Hroles as Hid Hflag Hrest. rewrite Hhost, Hid, Hflag.
  intros (? & Hall & ?). split; [done|]. split; [|done].
  assert (Forall (fun r : string * bool => r.2 = false) (role <$> rest')) as H'.
  { rewrite Hrest. by apply Forall_fmap. }
  by apply Forall_fmap in H'.
Qed.

Lemma moved_roles i score playedTiles s :
  role <$> players (moved i score playedTiles s) = role <$> players s ∧
  hostId (moved i score playedTiles s) = hostId s.
Proof.
  unfold moved, turn_advanced, tiles_dealt, dealt. cbn. split; [|done].
  by rewrite !roles_alter.
Qed.

Lemma exchanged_roles rnd i p tileIds s :
  role <$> players (exchanged rnd i p tileIds s) = role <$> players s ∧
  hostId (exchanged rnd i p tileIds s) = hostId s.
Proof.
  unfold exchanged, turn_advanced, tiles_dealt, dealt. cbn. split; [|done].
  by rewrite !roles_alter.
Qed.

Lemma dealt_all_roles i n s :
  role <$> players (dealt_all i n s) = role <$> players s ∧
  hostId (dealt_all i n s) = hostId s.
Proof.
  unfold dealt_all. cbn. split; [|done]. apply roles_imap.
  intros k p. by case_decide.
Qed.

Lemma removed_host_first index p s :
  players s !! index = Some p -> host_first s -> host_first (removed index p s).
Proof.
  unfold host_first, removed. intros Hp.
  destruct (players s) as [|p0 rest] eqn:Hps; [done|].
  intros (Hhost & Hothers & Hid). cbn [players hostId].
  destruct index as [|index]; cbn in Hp.
  - injection Hp as <-. cbn [delete list_delete]. rewrite Hhost. cbn [andb].
    destruct rest as [|q rest]; [done|].
    rewrite bool_decide_eq_true_2 by (cbn; lia). cbn.
    apply Forall_cons in Hothers as [_ Hothers]. done.
  - assert (Player.isHost p = false) as Hp'.
    { rewrite Forall_forall in Hothers. apply Hothers. by eapply list_elem_of_lookup_2. }
    rewrite Hp'. cbn. split; [done|]. split; [|done].
    by apply Forall_delete.
Qed.

Lemma perform_host_first rq s s' :
  host_first s -> perform rq s = Returns (tt, s') -> host_first s'.
Proof.
  intros Hok. destruct rq as [a n|a| |a pts|a|rnd a ids]; cbn [perform]; run_monad.
  - destruct (addPlayer a n s) as [[b s1]|] eqn:Ha; [|done]. intros [= <-].
    apply addPlayer_inv in Ha
      as [(_ & -> & _)|(_ & _ & p & Hid & _ & _ & Hflag & Hps & Hhost & _)]; [done|].
    unfold host_first in *. rewrite Hps, Hhost, Hflag.
    destruct (players s) as [|p0 rest]; cbn.
    + rewrite Hflag. cbn. by rewrite Hid.
    + destruct Hok as (? & ? & ?). split; [done|]. split; [|done].
      apply Forall_app. split; [done|]. apply Forall_singleton. by rewrite Hflag.
  - rewrite removePlayer_run. intros [= <-].
    destruct (find_player a (players s)) as [[index p]|] eqn:Hf; [|done].
    apply list_find_Some in Hf as (Hl & _). by apply removed_host_first.
  - unfold startGame. run_monad.
    destruct (gameStarted s || bool_decide (length (players s) < 2)%nat).
    { by intros [= <-]. }
    run_monad. cbn. rewrite deal_all_dealt_all. intros [= <-].
    destruct (dealt_all_roles 0 (length (players s)) (set_gameStarted true s)).
    by eapply (host_first_roles (set_gameStarted true s)).
  - destruct (playMove a pts s) as [[r s1]|] eqn:Hm; [|done]. intros [= <-].
    apply playMove_inv in Hm as [[-> _]|(i & p & sc & _ & _ & _ & _ & ->)]; [done|].
    destruct (moved_roles i sc pts s). by eapply host_first_roles.
  - destruct (passTurn a s) as [[r s1]|] eqn:Hm; [|done]. intros [= <-].
    by apply passTurn_inv in Hm as [(_ & -> & _)|(_ & -> & _)].
  - destruct (exchangeTiles rnd a ids s) as [[r s1]|] eqn:Hm; [|done]. intros [= <-].
    apply exchangeTiles_inv in Hm as [[-> _]|(i & p & _ & _ & _ & ->)]; [done|].
    destruct (exchanged_roles rnd i p ids s). by eapply host_first_roles.
Qed.

Lemma perform_all_host_first rqs s s' :
  host_first s -> perform_all rqs s = Returns (tt, s') -> host_first s'.
Proof.
  revert s. induction rqs as [|rq rest IH]; intros s Hok.
  - cbn. by intros [= <-].
  - cbn [perform_all]. run_monad.
    destruct (perform rq s) as [[[] s1]|] eqn:Hp; [|done].
    intros H. eapply IH; [|exact H]. by eapply perform_host_first.
Qed.

Lemma perform_players_bound rq s s' :
  (length (players s) <= 4)%nat -> perform rq s = Returns (tt, s') ->
  (length (players s') <= 4)%nat.
Proof.
  intros Hok. destruct rq as [a n|a| |a pts|a|rnd a ids]; cbn [perform]; run_monad.
  - destruct (addPlayer a n s) as [[b s1]|] eqn:Ha; [|done]. intros [= <-].
    apply addPlayer_inv in Ha as [(_ & -> & _)|(_ & Hlt & p & _ & _ & _ & _ & Hps & _)];
      [done|]. rewrite Hps, length_app. cbn. lia.
  - rewrite removePlayer_run. intros [= <-].
    destruct (find_player a (players s)) as [[index p]|] eqn:Hf; [|done].
    apply list_find_Some in Hf as (Hl & _).
    unfold removed. cbn. destruct (_ && _); rewrite ?length_alter;
      rewrite length_delete by eauto; lia.
  - destruct (startGame_frame s) as (b & s1 & -> & Hl & _). intros [= <-]. lia.
  - destruct (playMove a pts s) as [[r s1]|] eqn:Hm; [|done]. intros [= <-].
    apply playMove_inv in Hm as [[-> _]|(i & p & sc & _ & _ & _ & _ & ->)]; [done|].
    destruct (moved_turn i sc pts s) as [-> _]. done.
  - destruct (passTurn a s) as [[r s1]|] eqn:Hm; [|done]. intros [= <-].
    by apply passTurn_inv in Hm as [(_ & -> & _)|(_ & -> & _)].
  - destruct (exchangeTiles rnd a ids s) as [[r s1]|] eqn:Hm; [|done]. intros [= <-].
    apply exchangeTiles_inv in Hm as [[-> _]|(i & p & _ & _ & _ & ->)]; [done|].
    destruct (exchanged_turn rnd i p ids s) as [-> _]. done.
Qed.

(** [addPlayer] on a session of four players returns [false] and
    changes nothing; on a smaller one it returns [true] and appends a player
    with the given id, score 0 and no tiles, who is host exactly when the
    list was empty, and then [hostId] is that id.  A name that is empty
    becomes "Player n", n the new number of players. *)
Theorem addPlayer_appends (s : ScrabbleGame) (socketId name : string) :
  ((4 <= length (players s))%nat -> addPlayer socketId name s = Returns (false, s)) ∧
  ((length (players s) < 4)%nat ->
   let first := bool_decide (length (players s) = 0%nat) in
   let shown := if decide (name = "")
                then "Player " +:+ pretty (length (players s) + 1)%nat else name in
   addPlayer socketId name s =
     Returns (true,
              set_players (players s ++ [Player.mk socketId shown 0 [] first])
                (if first then set_hostId (Some socketId) s else s))).
Proof.
  split.
  - intros Hfull. unfold addPlayer. run_monad. by rewrite decide_True.
  - intros Hroom first shown. unfold addPlayer. run_monad.
    rewrite decide_False by lia. cbn [Player.isHost]. fold first shown.
    by destruct first.
Qed.

(** X5.  From a new session, whatever is performed, the list never holds
    more than four players, and when it is not empty its first player is the
    host, no other player is, and [hostId] is the first player's id. *)
Theorem roster_invariant (s : ScrabbleGame) (rqs : list request) (s' : ScrabbleGame) :
  host_first s -> (length (players s) <= 4)%nat ->
  perform_all rqs s = Returns (tt, s') ->
  host_first s' ∧ (length (players s') <= 4)%nat ∧
  (forall rnd room, host_first (newGame rnd room) ∧ players (newGame rnd room) = []).
Proof.
  intros Hhost Hbound Hrun. split; [by eapply perform_all_host_first|].
  split; [|done].
  revert s Hhost Hbound Hrun. induction rqs as [|rq rest IH]; intros s Hhost Hbound.
  - cbn. by intros [= <-].
  - cbn [perform_all]. run_monad.
    destruct (perform rq s) as [[[] s1]|] eqn:Hp; [|done].
    intros H. eapply (IH s1); [by eapply perform_host_first| |exact H].
    by eapply perform_players_bound.
Qed.

Lemma roster_invariant_witness :
  host_first (after sample_game (newGame sample_rnd "room")).
Proof.
  refine (proj1 (roster_invariant (newGame sample_rnd "room") sample_game _ _ _ _)).
  - exact I.
  - cbn. lia.
  - vm_compute. reflexivity.
Defined.

(** ** Leaving *)

(** X6.  [removePlayer] for an id that no player has changes nothing.
    Otherwise it takes out the first player with the id, appends the rack of
    that player to the bag, and makes the new first player host when the
    host left and players remain; nothing else changes.  The tiles of the
    player who left are then the next to be dealt, the last first. *)
Theorem removePlayer_returns_rack (s : ScrabbleGame) (socketId : string) :
  (find_player socketId (players s) = None -> removePlayer socketId s = Returns (tt, s)) ∧
  (forall index p,
     find_player socketId (players s) = Some (index, p) ->
     exists s',
       removePlayer socketId s = Returns (tt, s') ∧
       tileBag s' = tileBag s ++ Player.tiles p ∧
       players s' =
         (if Player.isHost p && bool_decide (1 < length (players s))%nat
          then alter (set_isHost true) 0%nat (delete index (players s))
          else delete index (players s)) ∧
       length (players s') = (length (players s) - 1)%nat ∧
       board s' = board s ∧ gameStarted s' = gameStarted s ∧
       firstMoveMade s' = firstMoveMade s ∧ roomId s' = roomId s ∧
       (forall j count q,
          players s' !! j = Some q -> (count <= length (Player.tiles p))%nat ->
          exists s'',
            dealTiles j count s' = Returns (tt, s'') ∧
            players s'' !! j =
              Some (set_tiles (Player.tiles q ++
                               reverse (drop (length (Player.tiles p) - count) (Player.tiles p)))
                              q))).
Proof.
  split.
  - intros Hf. by rewrite removePlayer_run, Hf.
  - intros index p Hf. rewrite removePlayer_run, Hf.
    apply list_find_Some in Hf as (Hl & _).
    assert (length (delete index (players s)) = (length (players s) - 1)%nat) as Hlen
      by (apply length_delete; eauto).
    eexists. split; [done|]. unfold removed. cbn [tileBag players board gameStarted
      firstMoveMade roomId].
    split; [done|]. split.
    { rewrite Hlen. destruct (Player.isHost p); cbn [andb]; [|done].
      destruct (decide (1 < length (players s))%nat).
      - by rewrite !bool_decide_eq_true_2 by lia.
      - by rewrite !bool_decide_eq_false_2 by lia. }
    split. { destruct (_ && _); by rewrite ?length_alter. }
    do 4 (split; [done|]).
    intros j count q Hq Hcount. rewrite dealTiles_dealt. eexists. split; [done|].
    unfold dealt. cbn [tileBag players].
    rewrite list_lookup_alter_eq, Hq. cbn. do 4 f_equal.
    rewrite length_app, drop_app_ge by lia. f_equal. lia.
Qed.

Lemma removePlayer_returns_rack_witness :
  exists s', removePlayer "a" three_playing = Returns (tt, s') ∧
             length (tileBag s') = 86%nat.
Proof.
  destruct (find_player "a" (players three_playing)) as [[index p]|] eqn:Hf;
    [|vm_compute in Hf; discriminate].
  destruct (proj2 (removePlayer_returns_rack three_playing "a") index p Hf)
    as (s' & Hrun & Hbag & _).
  exists s'. split; [exact Hrun|]. clear Hrun. rewrite Hbag, length_app.
  vm_compute in Hf. injection Hf as _ <-. vm_compute. reflexivity.
Defined.

(** ** What no operation undoes *)

Lemma not_undone_refl s : not_undone s s.
Proof. by repeat split. Qed.

Lemma not_undone_trans s1 s2 s3 : not_undone s1 s2 -> not_undone s2 s3 -> not_undone s1 s3.
Proof.
  intros (Hr & Hg & Hf & Hb) (Hr' & Hg' & Hf' & Hb').
  split; [congruence|]. repeat split; auto.
Qed.

Lemma placed_keeps (playedTiles : list PlayedTile.t) (b : gmap (Z * Z) Tile.t) cell :
  is_Some (b !! cell) -> is_Some (placed playedTiles b !! cell).
Proof.
  unfold placed. revert b. induction playedTiles as [|pt rest IH]; intros b Hb; [done|].
  cbn [foldl]. apply IH. rewrite lookup_insert. case_decide; [by eexists|done].
Qed.

Lemma perform_not_undone rq s s' : perform rq s = Returns (tt, s') -> not_undone s s'.
Proof.
  destruct rq as [a n|a| |a pts|a|rnd a ids]; cbn [perform]; run_monad.
  - destruct (addPlayer a n s) as [[b s1]|] eqn:Ha; [|done]. intros [= <-].
    apply addPlayer_inv in Ha
      as [(_ & -> & _)|(_ & _ & p & _ & _ & _ & _ & _ & _ & _ & Hb & _ & Hg & Hf & Hr)];
      [apply not_undone_refl|].
    unfold not_undone. rewrite Hb, Hg, Hf, Hr. done.
  - rewrite removePlayer_run. intros [= <-].
    destruct (find_player a (players s)) as [[index p]|]; [|apply not_undone_refl].
    by repeat split.
  - unfold startGame. run_monad.
    destruct (gameStarted s || bool_decide (length (players s) < 2)%nat).
    { intros [= <-]. apply not_undone_refl. }
    run_monad. cbn. rewrite deal_all_dealt_all. intros [= <-]. by repeat split.
  - destruct (playMove a pts s) as [[r s1]|] eqn:Hm; [|done]. intros [= <-].
    apply playMove_inv in Hm as [[-> _]|(i & p & sc & _ & _ & _ & _ & ->)];
      [apply not_undone_refl|].
    repeat split; try done. intros cell. apply placed_keeps.
  - destruct (passTurn a s) as [[r s1]|] eqn:Hm; [|done]. intros [= <-].
    apply passTurn_inv in Hm as [(_ & -> & _)|(_ & -> & _)]; by repeat split.
  - destruct (exchangeTiles rnd a ids s) as [[r s1]|] eqn:Hm; [|done]. intros [= <-].
    apply exchangeTiles_inv in Hm as [[-> _]|(i & p & _ & _ & _ & ->)]; by repeat split.
Qed.

(** X7.  No sequence of operations changes [roomId], resets [gameStarted]
    or [firstMoveMade], or empties a cell of the board that holds a tile. *)
Theorem nothing_undone (s : ScrabbleGame) (rqs : list request) (s' : ScrabbleGame) :
  perform_all rqs s = Returns (tt, s') -> not_undone s s'.
Proof.
  revert s. induction rqs as [|rq rest IH]; intros s.
  - cbn. intros [= <-]. apply not_undone_refl.
  - cbn [perform_all]. run_monad.
    destruct (perform rq s) as [[[] s1]|] eqn:Hp; [|done].
    intros H. eapply not_undone_trans; [exact (perform_not_undone rq s s1 Hp)|by apply IH].
Qed.

Lemma nothing_undone_witness :
  not_undone (newGame sample_rnd "room") (after sample_game (newGame sample_rnd "room")).
Proof.
  apply (nothing_undone _ sample_game). vm_compute. reflexivity.
Defined.

(** ** The board after a move *)

Lemma placed_snoc (playedTiles : list PlayedTile.t) (pt : PlayedTile.t)
    (b : gmap (Z * Z) Tile.t) :
  placed (playedTiles ++ [pt]) b = <[cell_of pt := PlayedTile.tile pt]> (placed playedTiles b).
Proof. unfold placed. by rewrite foldl_app. Qed.

Lemma placed_lookup (playedTiles : list PlayedTile.t) (b : gmap (Z * Z) Tile.t) (cell : Z * Z) :
  placed playedTiles b !! cell =
    match last_placed playedTiles cell with
    | Some t => Some t
    | None => b !! cell
    end.
Proof.
  induction playedTiles as [|pt rest IH] using rev_ind; [done|].
  rewrite placed_snoc. unfold last_placed in *. rewrite filter_app.
  destruct (decide (cell_of pt = cell)) as [Heq|Hne].
  - rewrite Heq, lookup_insert_eq.
    rewrite (filter_cons_True _ pt []) by done. rewrite filter_nil.
    by rewrite last_snoc.
  - rewrite lookup_insert_ne by done.
    rewrite (filter_cons_False _ pt []) by done. rewrite filter_nil, app_nil_r.
    apply IH.
Qed.

(** X8.  After a successful [playMove] a cell holds the tile of the last
    placement of the move that names it, whatever it held before; a cell
    that no placement names holds what it held. *)
Theorem playMove_writes_board (playerId : string) (playedTiles : list PlayedTile.t)
    (s : ScrabbleGame) (score : option Z) (s' : ScrabbleGame) :
  playMove playerId playedTiles s = Returns (Success score, s') ->
  forall cell,
    board s' !! cell =
      match last_placed playedTiles cell with
      | Some t => Some t
      | None => board s !! cell
      end.
Proof.
  intros Hm cell.
  apply playMove_inv in Hm as [(_ & [[? _]|(error & ? & _)])|(i & p & sc & _ & _ & _ & _ & ->)];
    [done..|].
  apply placed_lookup.
Qed.

Lemma playMove_writes_board_witness :
  exists score s',
    playMove "a" overlapping_move three_playing = Returns (Success score, s') ∧
    board s' !! (7, 7) = Some (Tile.mk "E" 1 "E-0-0.122").
Proof.
  destruct (playMove "a" overlapping_move three_playing) as [[[score|error] s']|] eqn:Hm;
    [|vm_compute in Hm; discriminate..].
  exists score, s'. split; [reflexivity|].
  rewrite (playMove_writes_board _ _ _ _ _ Hm (7, 7)). vm_compute. reflexivity.
Defined.



(** ** Exchanges *)




(** ** What validation and scoring read *)

Lemma existsb_cells (g : Z * Z -> bool) (playedTiles playedTiles' : list PlayedTile.t) :
  cell_of <$> playedTiles = cell_of <$> playedTiles' ->
  existsb (fun pt => g (cell_of pt)) playedTiles =
    existsb (fun pt => g (cell_of pt)) playedTiles'.
Proof.
  revert playedTiles'. induction playedTiles as [|pt rest IH]; intros [|pt' rest']; try done.
  cbn [fmap list_fmap existsb]. unfold cell_of at 1 2. intros [= Hr Hc Hrest].
  unfold cell_of at 1 3. rewrite Hr, Hc. f_equal. by apply IH.
Qed.

Lemma existsb_col (i : Z) (playedTiles playedTiles' : list PlayedTile.t) :
  cell_of <$> playedTiles = cell_of <$> playedTiles' ->
  existsb (fun pt => PlayedTile.col pt =? i) playedTiles =
    existsb (fun pt => PlayedTile.col pt =? i) playedTiles'.
Proof. exact (existsb_cells (fun c => c.2 =? i) playedTiles playedTiles'). Qed.

Lemma existsb_row (i : Z) (playedTiles playedTiles' : list PlayedTile.t) :
  cell_of <$> playedTiles = cell_of <$> playedTiles' ->
  existsb (fun pt => PlayedTile.row pt =? i) playedTiles =
    existsb (fun pt => PlayedTile.row pt =? i) playedTiles'.
Proof. exact (existsb_cells (fun c => c.1 =? i) playedTiles playedTiles'). Qed.

Lemma existsb_center (playedTiles playedTiles' : list PlayedTile.t) :
  cell_of <$> playedTiles = cell_of <$> playedTiles' ->
  existsb (fun pt => (PlayedTile.row pt =? 7) && (PlayedTile.col pt =? 7)) playedTiles =
    existsb (fun pt => (PlayedTile.row pt =? 7) && (PlayedTile.col pt =? 7)) playedTiles'.
Proof. exact (existsb_cells (fun c => (c.1 =? 7) && (c.2 =? 7)) playedTiles playedTiles'). Qed.

Lemma existsb_neighbors (f : Z * Z -> bool) (playedTiles playedTiles' : list PlayedTile.t) :
  cell_of <$> playedTiles = cell_of <$> playedTiles' ->
  existsb (fun pt => existsb f (neighbors pt)) playedTiles =
    existsb (fun pt => existsb f (neighbors pt)) playedTiles'.
Proof.
  exact (existsb_cells
           (fun c => existsb f [(c.1 - 1, c.2); (c.1 + 1, c.2); (c.1, c.2 - 1); (c.1, c.2 + 1)])
           playedTiles playedTiles').
Qed.

Lemma rows_cells (playedTiles playedTiles' : list PlayedTile.t) :
  cell_of <$> playedTiles = cell_of <$> playedTiles' ->
  PlayedTile.row <$> playedTiles = PlayedTile.row <$> playedTiles' ∧
  PlayedTile.col <$> playedTiles = PlayedTile.col <$> playedTiles'.
Proof.
  intros H. split.
  - apply (f_equal (fmap fst)) in H. by rewrite <- !list_fmap_compose in H.
  - apply (f_equal (fmap snd)) in H. by rewrite <- !list_fmap_compose in H.
Qed.

Lemma not_null_readCell (b1 b2 : gmap (Z * Z) Tile.t) (r c : Z) :
  dom b1 = dom b2 ->
  match readCell b1 r c, readCell b2 r c with
  | Returns x1, Returns x2 => not_null x1 = not_null x2
  | Throws, Throws => True
  | _, _ => False
  end.
Proof.
  intros Hdom. unfold readCell. destruct (on_axis r); [|done].
  assert (is_Some (b1 !! (r, c)) <-> is_Some (b2 !! (r, c))) as Hsome
    by (by rewrite <- !elem_of_dom, Hdom).
  destruct (b1 !! (r, c)) as [t1|], (b2 !! (r, c)) as [t2|]; try done.
  - destruct Hsome as [[? [=]] _]. by eexists.
  - destruct Hsome as [_ [? [=]]]. by eexists.
Qed.

Lemma row_has_gap_cells s1 s2 playedTiles playedTiles' row indices :
  dom (board s1) = dom (board s2) ->
  cell_of <$> playedTiles = cell_of <$> playedTiles' ->
  row_has_gap s1 playedTiles row indices = row_has_gap s2 playedTiles' row indices.
Proof.
  intros Hdom Hcells. induction indices as [|i rest IH]; [done|].
  cbn [row_has_gap].
  rewrite (existsb_col i _ _ Hcells).
  pose proof (not_null_readCell (board s1) (board s2) row i Hdom) as Hx.
  destruct (readCell (board s1) row i) as [x1|], (readCell (board s2) row i) as [x2|];
    try done.
  cbn. by rewrite Hx, IH.
Qed.

Lemma col_has_gap_cells s1 s2 playedTiles playedTiles' col indices :
  dom (board s1) = dom (board s2) ->
  cell_of <$> playedTiles = cell_of <$> playedTiles' ->
  col_has_gap s1 playedTiles col indices = col_has_gap s2 playedTiles' col indices.
Proof.
  intros Hdom Hcells. induction indices as [|i rest IH]; [done|].
  cbn [col_has_gap].
  rewrite (existsb_row i _ _ Hcells).
  pose proof (not_null_readCell (board s1) (board s2) i col Hdom) as Hx.
  destruct (readCell (board s1) i col) as [x1|], (readCell (board s2) i col) as [x2|];
    try done.
  cbn. by rewrite Hx, IH.
Qed.

Lemma occupied_on_board_cells s1 s2 n :
  dom (board s1) = dom (board s2) -> occupied_on_board s1 n = occupied_on_board s2 n.
Proof.
  intros Hdom. unfold occupied_on_board.
  pose proof (not_null_readCell (board s1) (board s2) n.1 n.2 Hdom) as Hx.
  destruct (readCell (board s1) n.1 n.2) as [x1|], (readCell (board s2) n.1 n.2) as [x2|];
    try done.
  by rewrite Hx.
Qed.

Lemma connected_cells s1 s2 playedTiles playedTiles' :
  dom (board s1) = dom (board s2) ->
  cell_of <$> playedTiles = cell_of <$> playedTiles' ->
  connected s1 playedTiles = connected s2 playedTiles'.
Proof.
  intros Hdom Hcells. unfold connected.
  rewrite <- (existsb_neighbors (occupied_on_board s2) _ _ Hcells).
  clear Hcells. induction playedTiles as [|pt rest IH]; [done|].
  cbn [existsb]. rewrite IH. f_equal.
  unfold neighbors. cbn [existsb]. by rewrite !(occupied_on_board_cells s1 s2).
Qed.

Lemma has_gap_cells s1 s2 playedTiles playedTiles' :
  dom (board s1) = dom (board s2) ->
  cell_of <$> playedTiles = cell_of <$> playedTiles' ->
  has_gap s1 playedTiles = has_gap s2 playedTiles'.
Proof.
  intros Hdom Hcells. destruct (rows_cells _ _ Hcells) as [Hrows Hcols].
  unfold has_gap. rewrite Hrows, Hcols.
  destruct playedTiles as [|first rest], playedTiles' as [|first' rest']; try done.
  assert (PlayedTile.row first = PlayedTile.row first' ∧
          PlayedTile.col first = PlayedTile.col first') as [Hr Hc].
  { cbn [fmap list_fmap] in Hcells. unfold cell_of at 1 3 in Hcells.
    by injection Hcells as -> -> ?. }
  rewrite Hr, Hc.
  case_decide; [by apply row_has_gap_cells|by apply col_has_gap_cells].
Qed.

Lemma validateMove_positions_frame s1 s2 playedTiles :
  board s1 = board s2 -> firstMoveMade s1 = firstMoveMade s2 ->
  validateMove s1 playedTiles = validateMove s2 playedTiles.
Proof.
  intros Hb Hfirst. unfold validateMove.
  assert (dom (board s1) = dom (board s2)) as Hdom by (by rewrite Hb).
  by rewrite Hfirst, (has_gap_cells s1 s2 _ _ Hdom eq_refl),
    (connected_cells s1 s2 _ _ Hdom eq_refl).
Qed.

(** X11.  The verdict of [validateMove] depends on the cells that the move
    names, on which cells of the board hold a tile and on [firstMoveMade],
    and on nothing else: neither the tiles that are placed nor the tiles on
    the board are looked at. *)
Theorem validateMove_reads_positions (s1 s2 : ScrabbleGame)
    (playedTiles playedTiles' : list PlayedTile.t) :
  dom (board s1) = dom (board s2) ->
  firstMoveMade s1 = firstMoveMade s2 ->
  cell_of <$> playedTiles = cell_of <$> playedTiles' ->
  validateMove s1 playedTiles = validateMove s2 playedTiles'.
Proof.
  intros Hdom Hfirst Hcells. destruct (rows_cells _ _ Hcells) as [Hrows Hcols].
  unfold validateMove.
  rewrite Hfirst, Hrows, Hcols, (has_gap_cells s1 s2 _ _ Hdom Hcells),
    (connected_cells s1 s2 _ _ Hdom Hcells).
  rewrite (existsb_center _ _ Hcells).
  assert (length playedTiles = length playedTiles') as ->; [|done].
  by rewrite <- (length_fmap cell_of playedTiles), Hcells, length_fmap.
Qed.

Lemma validateMove_reads_positions_witness :
  validateMove three_playing opening_move =
    validateMove three_playing
      [PlayedTile.mk 7 7 (Tile.mk "Q" 10 "mine"); PlayedTile.mk 7 8 (Tile.mk "Q" 10 "mine")].
Proof. apply validateMove_reads_positions; reflexivity. Defined.

Lemma score_tiles_board s1 s2 acc playedTiles :
  board s1 = board s2 -> score_tiles s1 acc playedTiles = score_tiles s2 acc playedTiles.
Proof.
  intros Hb. revert acc. induction playedTiles as [|pt rest IH]; intros acc; [done|].
  cbn [score_tiles]. unfold score_tile, getPremiumSquare. rewrite Hb.
  destruct acc as [totalScore wordMultiplier].
  destruct (readCell (board s2) (PlayedTile.row pt) (PlayedTile.col pt)) as [x|]; [|done].
  cbn. destruct (not_null x); cbn; apply IH.
Qed.

Lemma add_row_line_board s1 s2 playedTiles row indices totalScore :
  board s1 = board s2 ->
  add_row_line s1 playedTiles row indices totalScore =
    add_row_line s2 playedTiles row indices totalScore.
Proof.
  intros Hb. revert totalScore. induction indices as [|i rest IH]; intros totalScore; [done|].
  cbn [add_row_line]. rewrite Hb.
  destruct (readCell (board s2) row i) as [x|]; [|done].
  cbn. destruct (_ && _); [|apply IH].
  destruct (cell_value x); [|done]. cbn. apply IH.
Qed.

Lemma add_col_line_board s1 s2 playedTiles col indices totalScore :
  board s1 = board s2 ->
  add_col_line s1 playedTiles col indices totalScore =
    add_col_line s2 playedTiles col indices totalScore.
Proof.
  intros Hb. revert totalScore. induction indices as [|i rest IH]; intros totalScore; [done|].
  cbn [add_col_line]. rewrite Hb.
  destruct (readCell (board s2) i col) as [x|]; [|done].
  cbn. destruct (_ && _); [|apply IH].
  destruct (cell_value x); [|done]. cbn. apply IH.
Qed.

Lemma add_line_board s1 s2 playedTiles totalScore :
  board s1 = board s2 ->
  add_line s1 playedTiles totalScore = add_line s2 playedTiles totalScore.
Proof.
  intros Hb. unfold add_line. destruct playedTiles as [|first rest]; [done|].
  case_decide; [by apply add_row_line_board|by apply add_col_line_board].
Qed.

Lemma calculateScore_board s1 s2 playedTiles :
  board s1 = board s2 -> calculateScore s1 playedTiles = calculateScore s2 playedTiles.
Proof.
  intros Hb. unfold calculateScore. rewrite (score_tiles_board s1 s2) by done.
  destruct (score_tiles s2 (0, 1) playedTiles) as [[totalScore wordMultiplier]|]; [|done].
  cbn -[add_line]. by rewrite (add_line_board s1 s2).
Qed.

(** ** Turns before the start *)

Lemma place_tiles_started (b : bool) (playedTiles : list PlayedTile.t) (s : ScrabbleGame) :
  place_tiles playedTiles (set_gameStarted b s) =
    with_session (set_gameStarted b) (place_tiles playedTiles s).
Proof.
  revert s. induction playedTiles as [|pt rest IH]; intros s; [done|].
  cbn [place_tiles]. run_monad. unfold place_tile. run_monad.
  destruct (on_axis (PlayedTile.row pt)); [|done].
  cbn. apply (IH (set_board _ s)).
Qed.

(** X13.  [playMove], [passTurn] and [exchangeTiles] never read
    [gameStarted]: with the flag set to any value they give the same result
    and make the same changes.  A session that [startGame] has not started
    takes moves, passes and exchanges like a started one. *)
Theorem turns_ignore_gameStarted (b : bool) (playerId : string) (s : ScrabbleGame) :
  (forall playedTiles,
     playMove playerId playedTiles (set_gameStarted b s) =
       with_session (set_gameStarted b) (playMove playerId playedTiles s)) ∧
  passTurn playerId (set_gameStarted b s) =
    with_session (set_gameStarted b) (passTurn playerId s) ∧
  (forall rnd tileIds,
     exchangeTiles rnd playerId tileIds (set_gameStarted b s) =
       with_session (set_gameStarted b) (exchangeTiles rnd playerId tileIds s)).
Proof.
  assert (turn_guard (set_gameStarted b s) playerId = turn_guard s playerId) as Hg
    by reflexivity.
  split; [|split].
  - intros playedTiles. unfold playMove. run_monad. rewrite Hg.
    destruct (turn_guard s playerId) as [[[i p]|]|]; cbn; [|done..].
    rewrite (validateMove_positions_frame (set_gameStarted b s) s playedTiles) by done.
    destruct (validateMove s playedTiles) as [[|error]|]; cbn; [|done..].
    rewrite (calculateScore_board (set_gameStarted b s) s) by done.
    destruct (calculateScore s playedTiles) as [score|]; cbn; [|done].
    rewrite place_tiles_started.
    destruct (place_tiles playedTiles s) as [[[] s1]|]; [|done].
    cbn. rewrite !tiles_dealt_run. reflexivity.
  - unfold passTurn. run_monad. rewrite Hg.
    destruct (turn_guard s playerId) as [[[i p]|]|]; cbn; [|done..].
    reflexivity.
  - intros rnd tileIds. unfold exchangeTiles. run_monad. rewrite Hg.
    destruct (turn_guard s playerId) as [[[i p]|]|]; cbn; [|done..].
    case_decide; [done|]. run_monad. cbn. rewrite !tiles_dealt_run. reflexivity.
Qed.

(** ** Validation and the cells that hold a tile *)

Lemma not_null_readCell_mono (b1 b2 : gmap (Z * Z) Tile.t) (r c : Z) :
  dom b1 ⊆ dom b2 ->
  match readCell b1 r c, readCell b2 r c with
  | Returns x1, Returns x2 => not_null x1 = true -> not_null x2 = true
  | Throws, Throws => True
  | _, _ => False
  end.
Proof.
  intros Hdom. unfold readCell. destruct (on_axis r); [|done].
  destruct (b1 !! (r, c)) as [t1|] eqn:H1, (b2 !! (r, c)) as [t2|] eqn:H2; try done.
  - assert ((r, c) ∈ dom b1) as Hin by (apply elem_of_dom; by eexists).
    apply Hdom in Hin. apply elem_of_dom in Hin as [t Ht]. congruence.
Qed.

Lemma row_has_gap_mono s1 s2 playedTiles row indices :
  dom (board s1) ⊆ dom (board s2) ->
  row_has_gap s1 playedTiles row indices = Returns false ->
  row_has_gap s2 playedTiles row indices = Returns false.
Proof.
  intros Hdom. induction indices as [|i rest IH]; [done|].
  cbn [row_has_gap].
  pose proof (not_null_readCell_mono (board s1) (board s2) row i Hdom) as Hx.
  destruct (readCell (board s1) row i) as [x1|], (readCell (board s2) row i) as [x2|];
    try done.
  cbn. destruct (existsb _ playedTiles); cbn; [exact IH|].
  destruct (not_null x1); cbn; [|done]. rewrite Hx by done. exact IH.
Qed.

Lemma col_has_gap_mono s1 s2 playedTiles col indices :
  dom (board s1) ⊆ dom (board s2) ->
  col_has_gap s1 playedTiles col indices = Returns false ->
  col_has_gap s2 playedTiles col indices = Returns false.
Proof.
  intros Hdom. induction indices as [|i rest IH]; [done|].
  cbn [col_has_gap].
  pose proof (not_null_readCell_mono (board s1) (board s2) i col Hdom) as Hx.
  destruct (readCell (board s1) i col) as [x1|], (readCell (board s2) i col) as [x2|];
    try done.
  cbn. destruct (existsb _ playedTiles); cbn; [exact IH|].
  destruct (not_null x1); cbn; [|done]. rewrite Hx by done. exact IH.
Qed.

Lemma occupied_on_board_mono s1 s2 n :
  dom (board s1) ⊆ dom (board s2) ->
  occupied_on_board s1 n = true -> occupied_on_board s2 n = true.
Proof.
  intros Hdom. unfold occupied_on_board.
  pose proof (not_null_readCell_mono (board s1) (board s2) n.1 n.2 Hdom) as Hx.
  destruct (on_axis n.1 && on_axis n.2); [|done]. cbn.
  destruct (readCell (board s1) n.1 n.2) as [x1|], (readCell (board s2) n.1 n.2) as [x2|];
    try done.
Qed.

Lemma existsb_mono {A : Type} (f g : A -> bool) (l : list A) :
  (forall x, f x = true -> g x = true) -> existsb f l = true -> existsb g l = true.
Proof.
  intros Hfg. rewrite !existsb_exists. intros (x & Hin & Hf). exists x. auto.
Qed.

Lemma connected_mono s1 s2 playedTiles :
  dom (board s1) ⊆ dom (board s2) ->
  connected s1 playedTiles = true -> connected s2 playedTiles = true.
Proof.
  intros Hdom. unfold connected. apply existsb_mono. intros pt.
  apply existsb_mono. intros n. by apply occupied_on_board_mono.
Qed.

(** X12.  [validateMove] never asks that the cells of a move be empty: a
    move that is valid stays valid when more cells of the board hold a
    tile, the cells of the move among them. *)
Theorem validateMove_never_asks_for_empty_cells (s1 s2 : ScrabbleGame)
    (playedTiles : list PlayedTile.t) :
  dom (board s1) ⊆ dom (board s2) ->
  firstMoveMade s1 = firstMoveMade s2 ->
  validateMove s1 playedTiles = Returns Valid ->
  validateMove s2 playedTiles = Returns Valid.
Proof.
  intros Hdom Hfirst. unfold validateMove. rewrite <- Hfirst.
  case_decide; [done|].
  destruct (negb (firstMoveMade s1) && _); [done|].
  destruct (bool_decide _ && bool_decide _); [done|].
  assert (has_gap s1 playedTiles = Returns false -> has_gap s2 playedTiles = Returns false)
    as Hgap.
  { unfold has_gap. destruct playedTiles as [|first rest]; [done|].
    case_decide; [by apply row_has_gap_mono|by apply col_has_gap_mono]. }
  destruct (has_gap s1 playedTiles) as [[]|]; [done| |done]. rewrite Hgap by done. cbn.
  destruct (firstMoveMade s1); [|done]. cbn [andb].
  destruct (connected s1 playedTiles) eqn:Hc; [|done].
  rewrite (connected_mono s1 s2 _ Hdom Hc). done.
Qed.

Lemma validateMove_never_asks_for_empty_cells_witness :
  validateMove (after [PlayMove "a" opening_move; PlayMove "b" foreign_row] three_playing)
               foreign_row = Returns Valid.
Proof.
  apply (validateMove_never_asks_for_empty_cells
           (after [PlayMove "a" opening_move] three_playing)).
  - apply (bool_decide_unpack _). vm_compute. exact I.
  - vm_compute. reflexivity.
  - vm_compute. reflexivity.
Defined.

(** ** The registry *)

Lemma own_lookup roomId gameRooms game :
  Server.own roomId gameRooms = Some game ->
  exists i, list_find (fun entry : string * ScrabbleGame => entry.1 = roomId) gameRooms
              = Some (i, (roomId, game)) ∧
            gameRooms !! i = Some (roomId, game).
Proof.
  unfold Server.own. intros H.
  destruct (list_find _ gameRooms) as [[i [key g]]|] eqn:Hf; [|done].
  injection H as ->. pose proof Hf as Hf'. apply list_find_Some in Hf' as (Hl & Hk & _).
  cbn in Hk. subst key. eauto.
Qed.

Lemma own_None roomId (gameRooms : Server.rooms) :
  Server.own roomId gameRooms = None <-> roomId ∉ gameRooms.*1.
Proof.
  unfold Server.own. destruct (list_find _ gameRooms) as [[i [key g]]|] eqn:Hf.
  - split; [done|]. intros Hnot. exfalso. apply Hnot.
    apply list_find_Some in Hf as (Hl & Hk & _). cbn in Hk. subst key.
    apply list_elem_of_fmap. exists (roomId, g). split; [done|].
    by eapply list_elem_of_lookup_2.
  - split; [|done]. intros _ Hin.
    apply list_elem_of_fmap in Hin as ([key g] & -> & Hin).
    apply list_find_None in Hf. rewrite Forall_forall in Hf. by apply (Hf _ Hin).
Qed.

Lemma read_Own roomId gameRooms game :
  Server.read roomId gameRooms = Server.Own game <-> Server.own roomId gameRooms = Some game.
Proof.
  unfold Server.read. destruct (Server.own roomId gameRooms).
  - split; intros [= ->]; done.
  - case_bool_decide; done.
Qed.

Lemma store_own roomId game gameRooms :
  Server.own roomId gameRooms = Some game -> Server.store roomId game gameRooms = gameRooms.
Proof.
  intros H. apply own_lookup in H as (i & Hf & Hl).
  unfold Server.store. rewrite Hf. by apply list_insert_id.
Qed.

Lemma store_keys roomId game (gameRooms : Server.rooms) :
  (Server.store roomId game gameRooms).*1 = gameRooms.*1.
Proof.
  unfold Server.store.
  destruct (list_find _ gameRooms) as [[i [key g]]|] eqn:Hf; [|done].
  apply list_find_Some in Hf as (Hl & Hk & _). cbn in Hk. subst key.
  cbn beta iota. rewrite list_fmap_insert. apply list_insert_id.
  by rewrite list_lookup_fmap, Hl.
Qed.

Lemma store_Forall (P : string * ScrabbleGame -> Prop) roomId game gameRooms :
  P (roomId, game) -> Forall P gameRooms -> Forall P (Server.store roomId game gameRooms).
Proof.
  intros Hp Hall. unfold Server.store.
  destruct (list_find _ gameRooms) as [[i found]|]; [|done].
  by apply Forall_insert.
Qed.

Lemma create_Permutation roomId game gameRooms :
  Server.create roomId game gameRooms ≡ₚ (roomId, game) :: gameRooms.
Proof.
  induction gameRooms as [|entry rest IH]; [done|].
  cbn [Server.create]. destruct (Server.precedes roomId entry); [done|].
  rewrite IH. apply perm_swap.
Qed.

Lemma find_create roomId game (gameRooms : Server.rooms) :
  list_find (fun entry : string * ScrabbleGame => entry.1 = roomId) gameRooms = None ->
  exists j,
    list_find (fun entry : string * ScrabbleGame => entry.1 = roomId)
              (Server.create roomId game gameRooms) = Some (j, (roomId, game)) ∧
    forall game', <[j := (roomId, game')]> (Server.create roomId game gameRooms)
                  = Server.create roomId game' gameRooms.
Proof.
  induction gameRooms as [|[key g] rest IH]; intros Hnone.
  - exists 0%nat. cbn. rewrite decide_True by done. done.
  - cbn [list_find] in Hnone.
    destruct (decide ((key, g).1 = roomId)) as [|Hne]; [done|].
    destruct (list_find _ rest) as [found|] eqn:Hf; [done|].
    destruct (IH eq_refl) as (j & Hfind & Hstore). clear IH.
    cbn [Server.create]. destruct (Server.precedes roomId (key, g)).
    + exists 0%nat. cbn [list_find]. rewrite decide_True by done. done.
    + exists (S j). cbn [list_find]. rewrite decide_False by done.
      rewrite Hfind. split; [done|]. intros game'. cbn. by rewrite Hstore.
Qed.

Lemma own_create roomId game gameRooms :
  Server.own roomId gameRooms = None ->
  Server.own roomId (Server.create roomId game gameRooms) = Some game ∧
  forall game', Server.store roomId game' (Server.create roomId game gameRooms)
                = Server.create roomId game' gameRooms.
Proof.
  unfold Server.own, Server.store. intros Hnone.
  destruct (list_find _ gameRooms) as [found|] eqn:Hf; [done|].
  destruct (find_create roomId game gameRooms Hf) as (j & -> & Hstore). done.
Qed.

(** ** Entering a room *)

Lemma enter_full socketId roomId playerName game gameRooms :
  Server.own roomId gameRooms = Some game -> (4 <= length (players game))%nat ->
  Server.enter socketId roomId playerName game gameRooms =
    Returns ([Server.Emit socketId (Server.Event.error "Room is full")], gameRooms).
Proof.
  intros Hown Hfull. unfold Server.enter, addPlayer. run_monad.
  rewrite decide_True by done. cbn. by rewrite store_own.
Qed.

Lemma addPlayer_room socketId playerName game :
  (length (players game) < 4)%nat ->
  exists game', addPlayer socketId playerName game = Returns (true, game').
Proof.
  intros Hroom. unfold addPlayer. run_monad. rewrite decide_False by lia.
  cbn. case_bool_decide; run_monad; eauto.
Qed.

Lemma enter_room socketId roomId playerName game gameRooms game' :
  addPlayer socketId playerName game = Returns (true, game') ->
  Server.enter socketId roomId playerName game gameRooms =
    Returns ([Server.Join socketId roomId;
              Server.Emit socketId
                (Server.Event.roomJoined roomId socketId (getGameState game')
                                         (getPlayerState game' socketId));
              Server.EmitTo roomId (Server.Event.gameStateUpdate (getGameState game'))],
             Server.store roomId game' gameRooms).
Proof. intros Hadd. unfold Server.enter. by rewrite Hadd. Qed.

(** X16.  [joinRoom] answers the sender alone, and leaves every room as it
    is, when there is no room of the id ("Room not found"), when the game of
    the room has started ("Game already started"), and when the room has
    four players ("Room is full").  Otherwise it adds the sender as a
    player, has the socket join the room, answers with the public state and
    the sender's own state, and sends the public state to the room. *)
Theorem joinRoom_refusals (socketId roomId playerName : string) (gameRooms : Server.rooms) :
  (Server.read roomId gameRooms = Server.Missing ->
   Server.joinRoom socketId roomId playerName gameRooms =
     Returns ([Server.Emit socketId (Server.Event.error "Room not found")], gameRooms)) ∧
  (forall game,
     Server.read roomId gameRooms = Server.Own game ->
     (gameStarted game = true ->
      Server.joinRoom socketId roomId playerName gameRooms =
        Returns ([Server.Emit socketId (Server.Event.error "Game already started")],
                 gameRooms)) ∧
     (gameStarted game = false -> (4 <= length (players game))%nat ->
      Server.joinRoom socketId roomId playerName gameRooms =
        Returns ([Server.Emit socketId (Server.Event.error "Room is full")], gameRooms)) ∧
     (gameStarted game = false -> (length (players game) < 4)%nat ->
      exists game',
        addPlayer socketId playerName game = Returns (true, game') ∧
        Server.joinRoom socketId roomId playerName gameRooms =
          Returns ([Server.Join socketId roomId;
                    Server.Emit socketId
                      (Server.Event.roomJoined roomId socketId (getGameState game')
                                               (getPlayerState game' socketId));
                    Server.EmitTo roomId
                      (Server.Event.gameStateUpdate (getGameState game'))],
                   Server.store roomId game' gameRooms))).
Proof.
  split.
  - intros Hread. unfold Server.joinRoom. by rewrite Hread.
  - intros game Hread. unfold Server.joinRoom. rewrite Hread.
    apply read_Own in Hread. split; [|split].
    + by intros ->.
    + intros -> Hfull. by apply enter_full.
    + intros -> Hroom. destruct (addPlayer_room socketId playerName game Hroom) as [game' Hadd].
      exists game'. split; [done|]. by apply enter_room.
Qed.

(** X17.  [createRoom] with an id that has no room files a new session
    under the id, with the sender as its only player and its host.  With
    the id of a room that exists it adds the sender to that room as
    [joinRoom] does, but whether or not the game of the room has started;
    with four players in the room it answers "Room is full". *)
Theorem createRoom_enters_started_room (rnd : nat -> nat)
    (socketId roomId playerName : string) (gameRooms : Server.rooms) :
  (Server.read roomId gameRooms = Server.Missing ->
   exists game',
     addPlayer socketId playerName (newGame rnd roomId) = Returns (true, game') ∧
     hostId game' = Some socketId ∧ length (players game') = 1%nat ∧
     Server.createRoom rnd socketId roomId playerName gameRooms =
       Returns ([Server.Join socketId roomId;
                 Server.Emit socketId
                   (Server.Event.roomJoined roomId socketId (getGameState game')
                                            (getPlayerState game' socketId));
                 Server.EmitTo roomId (Server.Event.gameStateUpdate (getGameState game'))],
                Server.create roomId game' gameRooms)) ∧
  (forall game,
     Server.read roomId gameRooms = Server.Own game ->
     ((4 <= length (players game))%nat ->
      Server.createRoom rnd socketId roomId playerName gameRooms =
        Returns ([Server.Emit socketId (Server.Event.error "Room is full")], gameRooms)) ∧
     ((length (players game) < 4)%nat ->
      exists game',
        addPlayer socketId playerName game = Returns (true, game') ∧
        gameStarted game' = gameStarted game ∧
        Server.createRoom rnd socketId roomId playerName gameRooms =
          Returns ([Server.Join socketId roomId;
                    Server.Emit socketId
                      (Server.Event.roomJoined roomId socketId (getGameState game')
                                               (getPlayerState game' socketId));
                    Server.EmitTo roomId
                      (Server.Event.gameStateUpdate (getGameState game'))],
                   Server.store roomId game' gameRooms))).
Proof.
  split.
  - intros Hread. unfold Server.createRoom. rewrite Hread.
    assert (Server.own roomId gameRooms = None) as Hown.
    { unfold Server.read in Hread. by destruct (Server.own roomId gameRooms). }
    destruct (own_create roomId (newGame rnd roomId) gameRooms Hown) as [Hnew Hstore].
    apply read_Own in Hnew. rewrite Hnew.
    destruct (addPlayer_room socketId playerName (newGame rnd roomId)) as [game' Hadd];
      [cbn; lia|].
    exists game'. split; [done|].
    pose proof Hadd as Hinv.
    apply addPlayer_inv in Hinv
      as [(? & _)|(_ & _ & p & _ & _ & _ & Hflag & Hps & Hhost & _)]; [done|].
    rewrite Hhost, Hflag, Hps. cbn. split; [done|]. split; [done|].
    rewrite (enter_room _ _ _ _ _ _ Hadd). by rewrite Hstore.
  - intros game Hread. unfold Server.createRoom. rewrite Hread, Hread.
    apply read_Own in Hread. split.
    + intros Hfull. by apply enter_full.
    + intros Hroom.
      destruct (addPlayer_room socketId playerName game Hroom) as [game' Hadd].
      exists game'. split; [done|]. split; [|by apply enter_room].
      apply addPlayer_inv in Hadd as [(? & _)|(_ & _ & p & Hrest)]; [done|].
      by destruct Hrest as (_ & _ & _ & _ & _ & _ & _ & _ & _ & ? & _).
Qed.

(** ** Names that the registry inherits *)

Lemma read_Inherited roomId gameRooms :
  roomId ∈ Server.OBJECT_PROTOTYPE -> Server.own roomId gameRooms = None ->
  Server.read roomId gameRooms = Server.Inherited.
Proof.
  intros Hin Hown. unfold Server.read. rewrite Hown. by rewrite bool_decide_eq_true_2.
Qed.

(** X18.  With a room id that is the name of a property of
    [Object.prototype] ("constructor", "toString", "__proto__", ...), for
    which [gameRooms] has no session, [gameRooms[roomId]] is the inherited
    value: [createRoom], [joinRoom], [playMove], [passTurn] and
    [exchangeTiles] raise [TypeError] when they call a method of it, and
    [startGame] answers "Only host can start the game". *)
Theorem inherited_names_raise (socketId roomId : string) (gameRooms : Server.rooms) :
  roomId ∈ Server.OBJECT_PROTOTYPE ->
  Server.own roomId gameRooms = None ->
  (forall rnd playerName,
     Server.createRoom rnd socketId roomId playerName gameRooms = Throws) ∧
  (forall playerName, Server.joinRoom socketId roomId playerName gameRooms = Throws) ∧
  (forall playedTiles, Server.playMove socketId roomId playedTiles gameRooms = Throws) ∧
  Server.passTurn socketId roomId gameRooms = Throws ∧
  (forall rnd tileIds, Server.exchangeTiles rnd socketId roomId tileIds gameRooms = Throws) ∧
  Server.startGame socketId roomId gameRooms =
    Returns ([Server.Emit socketId (Server.Event.error "Only host can start the game")],
             gameRooms).
Proof.
  intros Hin Hown. pose proof (read_Inherited _ _ Hin Hown) as Hread.
  unfold Server.createRoom, Server.joinRoom, Server.playMove, Server.passTurn,
    Server.exchangeTiles, Server.startGame.
  rewrite !Hread. done.
Qed.

Lemma inherited_names_raise_witness :
  Server.createRoom sample_rnd "a" "constructor" "Ann" [] = Throws.
Proof.
  refine (proj1 (inherited_names_raise "a" "constructor" [] _ _) sample_rnd "Ann").
  - apply (bool_decide_unpack _). vm_compute. exact I.
  - reflexivity.
Defined.

(** ** Refused requests *)

(** X19.  [playMove], [passTurn] and [exchangeTiles] for an id that has no
    room send nothing and change nothing.  For a room that exists, when the
    session refuses the request the handler sends the error to the sender
    alone, and every room stays as it was; so it is, with "Not your turn",
    for every socket that is not the current player of the room. *)
Theorem refused_requests_answer_sender (socketId roomId : string) (gameRooms : Server.rooms) :
  (Server.read roomId gameRooms = Server.Missing ->
   (forall playedTiles,
      Server.playMove socketId roomId playedTiles gameRooms = Returns ([], gameRooms)) ∧
   Server.passTurn socketId roomId gameRooms = Returns ([], gameRooms) ∧
   (forall rnd tileIds,
      Server.exchangeTiles rnd socketId roomId tileIds gameRooms = Returns ([], gameRooms))) ∧
  (forall game,
     Server.read roomId gameRooms = Server.Own game ->
     (forall playedTiles error game',
        playMove socketId playedTiles game = Returns (Failure error, game') ->
        Server.playMove socketId roomId playedTiles gameRooms =
          Returns ([Server.Emit socketId (Server.Event.error error)], gameRooms)) ∧
     (forall error game',
        passTurn socketId game = Returns (Failure error, game') ->
        Server.passTurn socketId roomId gameRooms =
          Returns ([Server.Emit socketId (Server.Event.error error)], gameRooms)) ∧
     (forall rnd tileIds error game',
        exchangeTiles rnd socketId tileIds game = Returns (Failure error, game') ->
        Server.exchangeTiles rnd socketId roomId tileIds gameRooms =
          Returns ([Server.Emit socketId (Server.Event.error error)], gameRooms)) ∧
     (turn_guard game socketId = Returns None ->
      (forall playedTiles,
         Server.playMove socketId roomId playedTiles gameRooms =
           Returns ([Server.Emit socketId (Server.Event.error "Not your turn")], gameRooms)) ∧
      Server.passTurn socketId roomId gameRooms =
        Returns ([Server.Emit socketId (Server.Event.error "Not your turn")], gameRooms) ∧
      (forall rnd tileIds,
         Server.exchangeTiles rnd socketId roomId tileIds gameRooms =
           Returns ([Server.Emit socketId (Server.Event.error "Not your turn")],
                    gameRooms)))).
Proof.
  split.
  - intros Hread. unfold Server.playMove, Server.passTurn, Server.exchangeTiles.
    rewrite !Hread. done.
  - intros game Hread.
    unfold Server.playMove, Server.passTurn, Server.exchangeTiles. rewrite !Hread.
    apply read_Own in Hread.
    assert (forall playedTiles error game',
              playMove socketId playedTiles game = Returns (Failure error, game') ->
              game' = game) as Hmove.
    { intros pts error game' Hm.
      by apply playMove_inv in Hm as [[-> _]|(i & p & sc & _ & _ & _ & ? & _)]. }
    assert (forall error game',
              passTurn socketId game = Returns (Failure error, game') -> game' = game)
      as Hpass.
    { intros error game' Hm.
      by apply passTurn_inv in Hm as [(_ & -> & _)|(? & _)]. }
    assert (forall rnd tileIds error game',
              exchangeTiles rnd socketId tileIds game = Returns (Failure error, game') ->
              game' = game) as Hexchange.
    { intros rnd ids error game' Hm.
      by apply exchangeTiles_inv in Hm as [[-> _]|(i & p & _ & _ & ? & _)]. }
    split; [|split; [|split]].
    + intros pts error game' Hm. rewrite Hm. cbn.
      rewrite (Hmove _ _ _ Hm). by rewrite store_own.
    + intros error game' Hm. rewrite Hm. cbn.
      rewrite (Hpass _ _ Hm). by rewrite store_own.
    + intros rnd ids error game' Hm. rewrite Hm. cbn.
      rewrite (Hexchange _ _ _ _ Hm). by rewrite store_own.
    + intros Hguard. split; [|split].
      * intros pts. unfold playMove. run_monad. rewrite Hguard. cbn. by rewrite store_own.
      * unfold passTurn. run_monad. rewrite Hguard. cbn. by rewrite store_own.
      * intros rnd ids. unfold exchangeTiles. run_monad. rewrite Hguard. cbn.
        by rewrite store_own.
Qed.

(** ** Starting *)

(** X20.  In a room that exists, [startGame] from a socket that is not the
    host answers "Only host can start the game" and changes nothing.  From
    the host it sends nothing and changes nothing when the game has started
    or the room has fewer than two players; otherwise it starts the game,
    sends the public state to the room, and then sends each player, in the
    order of the list, the state of that player, addressed to the id of the
    player. *)
Theorem startGame_host_only (socketId roomId : string) (gameRooms : Server.rooms)
    (game : ScrabbleGame) :
  Server.read roomId gameRooms = Server.Own game ->
  (hostId game ≠ Some socketId ->
   Server.startGame socketId roomId gameRooms =
     Returns ([Server.Emit socketId (Server.Event.error "Only host can start the game")],
              gameRooms)) ∧
  (hostId game = Some socketId ->
   gameStarted game = true ∨ (length (players game) < 2)%nat ->
   Server.startGame socketId roomId gameRooms = Returns ([], gameRooms)) ∧
  (hostId game = Some socketId ->
   gameStarted game = false -> (2 <= length (players game))%nat ->
   exists game',
     startGame game = Returns (true, game') ∧ gameStarted game' = true ∧
     Server.startGame socketId roomId gameRooms =
       Returns (Server.EmitTo roomId (Server.Event.gameStarted (getGameState game'))
                  :: ((fun player =>
                         Server.EmitTo (Player.id player)
                           (Server.Event.playerState
                              (getPlayerState game' (Player.id player))))
                        <$> players game'),
                Server.store roomId game' gameRooms)).
Proof.
  intros Hread. unfold Server.startGame. rewrite Hread. apply read_Own in Hread.
  split; [|split].
  - intros Hhost. by rewrite decide_True.
  - intros Hhost Hnot. rewrite decide_False by (by intros ?).
    unfold startGame. run_monad.
    assert (gameStarted game || bool_decide (length (players game) < 2)%nat = true) as ->.
    { destruct Hnot as [->|Hfew]; [done|].
      rewrite bool_decide_eq_true_2 by done. by destruct (gameStarted game). }
    cbn. by rewrite store_own.
  - intros Hhost Hnew Hmany. rewrite decide_False by (by intros ?).
    unfold startGame. run_monad. rewrite Hnew, bool_decide_eq_false_2 by lia.
    cbn [orb]. run_monad. cbn [set_gameStarted players].
    destruct (deal_all_frame 0 (length (players game)) (set_gameStarted true game))
      as (game' & Hdeal & _ & _ & _ & _ & Hstarted & _).
    cbn in Hdeal. rewrite Hdeal. cbn.
    exists game'. done.
Qed.

Lemma startGame_host_only_witness :
  Server.startGame "b" "room" [("room", three_in_lobby)] =
    Returns ([Server.Emit "b" (Server.Event.error "Only host can start the game")],
             [("room", three_in_lobby)]).
Proof.
  refine (proj1 (startGame_host_only "b" "room" [("room", three_in_lobby)] three_in_lobby _) _).
  - reflexivity.
  - vm_compute. discriminate.
Defined.

(** ** Leaving every room *)

Lemma removePlayer_without socketId game :
  removePlayer socketId game = Returns (tt, without socketId game).
Proof. rewrite removePlayer_run. unfold without. by destruct (find_player _ _) as [[]|]. Qed.

Lemma ids_alter (f : Player.t -> Player.t) (i : nat) (ps : list Player.t) :
  (forall p, Player.id (f p) = Player.id p) ->
  Player.id <$> alter f i ps = Player.id <$> ps.
Proof.
  intros Hf. revert i. induction ps as [|p ps IH]; intros [|i]; cbn; f_equal; auto.
Qed.

Lemma without_ids socketId game :
  NoDup (Player.id <$> players game) ->
  socketId ∉ Player.id <$> players (without socketId game).
Proof.
  intros Hnodup. unfold without.
  destruct (find_player socketId (players game)) as [[index p]|] eqn:Hf.
  - apply list_find_Some in Hf as (Hl & Hid & _).
    assert (Player.id <$> players (removed index p game)
            = delete index (Player.id <$> players game)) as ->.
    { unfold removed. cbn [players]. destruct (_ && _).
      - rewrite ids_alter by done. by rewrite list_fmap_delete.
      - by rewrite list_fmap_delete. }
    intros Hin. apply list_elem_of_lookup in Hin as [j Hj].
    assert ((Player.id <$> players game) !! index = Some socketId) as Hi
      by (by rewrite list_lookup_fmap, Hl, <- Hid).
    destruct (decide (j < index)%nat).
    + rewrite list_lookup_delete_lt in Hj by done.
      pose proof (NoDup_lookup _ _ _ _ Hnodup Hj Hi). lia.
    + rewrite list_lookup_delete_ge in Hj by lia.
      pose proof (NoDup_lookup _ _ _ _ Hnodup Hj Hi). lia.
  - apply list_find_None in Hf. intros Hin.
    apply list_elem_of_fmap in Hin as (p & Hid & Hin).
    rewrite Forall_forall in Hf. by apply (Hf _ Hin).
Qed.

Lemma vacated_cons socketId roomId game (rest : Server.rooms) :
  vacated socketId ((roomId, game) :: rest) =
    if decide (players (without socketId game) ≠ [])
    then (roomId, without socketId game) :: vacated socketId rest
    else vacated socketId rest.
Proof. unfold vacated. rewrite fmap_cons, filter_cons. reflexivity. Qed.

Lemma disconnect_run socketId (gameRooms : Server.rooms) :
  Server.disconnect socketId gameRooms =
    Returns ((fun entry : string * ScrabbleGame =>
                Server.EmitTo entry.1 (Server.Event.gameStateUpdate (getGameState entry.2)))
               <$> vacated socketId gameRooms,
             vacated socketId gameRooms).
Proof.
  induction gameRooms as [|[roomId game] rest IH]; [done|].
  rewrite vacated_cons. cbn [Server.disconnect]. rewrite removePlayer_without.
  cbn -[vacated]. rewrite IH. cbn -[vacated].
  destruct (players (without socketId game)) as [|p ps] eqn:Hps.
  - rewrite decide_True by done. by rewrite decide_False by auto.
  - rewrite decide_False by done. by rewrite decide_True by done.
Qed.

(** X21.  [disconnect] never raises.  It takes the first player of the
    socket out of every room, drops the rooms that are then empty, and sends
    each room that is left, in the order of the registry, its public state:
    also to the rooms where the socket had no player.  When no room lists an
    id twice, no room lists the socket afterwards. *)
Theorem disconnect_vacates (socketId : string) (gameRooms : Server.rooms) :
  Server.disconnect socketId gameRooms =
    Returns ((fun entry : string * ScrabbleGame =>
                Server.EmitTo entry.1 (Server.Event.gameStateUpdate (getGameState entry.2)))
               <$> vacated socketId gameRooms,
             vacated socketId gameRooms) ∧
  (Forall (fun entry : string * ScrabbleGame => NoDup (Player.id <$> players entry.2))
          gameRooms ->
   Forall (fun entry : string * ScrabbleGame => socketId ∉ Player.id <$> players entry.2)
          (vacated socketId gameRooms)).
Proof.
  split; [apply disconnect_run|].
  intros Hnodup. unfold vacated. apply Forall_forall. intros entry Hin.
  apply list_elem_of_filter in Hin as [_ Hin].
  apply list_elem_of_fmap in Hin as ([roomId game] & -> & Hin).
  rewrite Forall_forall in Hnodup. apply without_ids. by apply (Hnodup _ Hin).
Qed.

(** ** The registry in order *)

Lemma perform_players_length rq s s' :
  perform rq s = Returns (tt, s') ->
  match rq with
  | AddPlayer _ _ => (length (players s) <= length (players s'))%nat
  | RemovePlayer _ => True
  | _ => length (players s') = length (players s)
  end.
Proof.
  destruct rq as [a n|a| |a pts|a|rnd a ids]; cbn [perform]; run_monad.
  - destruct (addPlayer a n s) as [[b s1]|] eqn:Ha; [|done]. intros [= <-].
    apply addPlayer_inv in Ha as [(_ & -> & _)|(_ & _ & p & _ & _ & _ & _ & Hps & _)];
      [done|]. rewrite Hps, length_app. lia.
  - done.
  - destruct (startGame_frame s) as (b & s1 & -> & Hl & _). by intros [= <-].
  - destruct (playMove a pts s) as [[r s1]|] eqn:Hm; [|done]. intros [= <-].
    apply playMove_inv in Hm as [[-> _]|(i & p & sc & _ & _ & _ & _ & ->)]; [done|].
    unfold moved, tiles_dealt, dealt, turn_advanced. cbn. by rewrite !length_alter.
  - destruct (passTurn a s) as [[r s1]|] eqn:Hm; [|done]. intros [= <-].
    by apply passTurn_inv in Hm as [(_ & -> & _)|(_ & -> & _)].
  - destruct (exchangeTiles rnd a ids s) as [[r s1]|] eqn:Hm; [|done]. intros [= <-].
    apply exchangeTiles_inv in Hm as [[-> _]|(i & p & _ & _ & _ & ->)]; [done|].
    unfold exchanged, tiles_dealt, dealt, turn_advanced. cbn. by rewrite !length_alter.
Qed.

Lemma room_ok_step rq roomId game game' :
  room_ok (roomId, game) -> perform rq game = Returns (tt, game') ->
  players game' ≠ [] -> room_ok (roomId, game').
Proof.
  intros (Hid & Hname & Hbound & Hhost & Hturn) Hrun Hsome. cbn in *.
  split; [|split; [done|split; [|split]]]; cbn.
  - destruct (perform_not_undone _ _ _ Hrun) as [-> _]. done.
  - pose proof (perform_players_bound rq game game' ltac:(lia) Hrun).
    destruct (players game'); [done|]. cbn in *. lia.
  - by eapply perform_host_first.
  - destruct (perform_turn_index_ok rq game game' ltac:(by left) Hrun) as [|[? _]]; done.
Qed.

Lemma own_room_ok roomId game gameRooms :
  Forall room_ok gameRooms -> Server.own roomId gameRooms = Some game ->
  room_ok (roomId, game).
Proof.
  intros Hall Hown. apply own_lookup in Hown as (i & _ & Hl).
  by eapply Forall_lookup_1 in Hall.
Qed.

Lemma store_ok rq roomId game game' gameRooms :
  registry_ok gameRooms -> Server.own roomId gameRooms = Some game ->
  perform rq game = Returns (tt, game') ->
  (length (players game) <= length (players game'))%nat ->
  registry_ok (Server.store roomId game' gameRooms).
Proof.
  intros [Hkeys Hall] Hown Hrun Hgrow. split; [by rewrite store_keys|].
  pose proof (own_room_ok _ _ _ Hall Hown) as Hroom.
  apply store_Forall; [|done]. eapply room_ok_step; [done..|].
  destruct Hroom as (_ & _ & Hbound & _). cbn in Hbound.
  destruct (players game'); [cbn in *; lia|done].
Qed.

Lemma vacated_keys socketId (gameRooms : Server.rooms) key :
  key ∈ (vacated socketId gameRooms).*1 -> key ∈ gameRooms.*1.
Proof.
  intros Hin. apply list_elem_of_fmap in Hin as (entry & -> & Hin).
  unfold vacated in Hin. apply list_elem_of_filter in Hin as [_ Hin].
  apply list_elem_of_fmap in Hin as ([roomId game] & -> & Hin).
  apply list_elem_of_fmap. by exists (roomId, game).
Qed.

Lemma vacated_ok socketId gameRooms :
  registry_ok gameRooms -> registry_ok (vacated socketId gameRooms).
Proof.
  intros [Hkeys Hall]. induction gameRooms as [|[roomId game] rest IH]; [done|].
  apply Forall_cons in Hall as [Hroom Hall]. cbn in Hkeys.
  apply NoDup_cons in Hkeys as [Hnew Hkeys].
  destruct (IH Hkeys Hall) as [Hkeys' Hall'].
  rewrite vacated_cons. case_decide; [|done]. split.
  - cbn. apply NoDup_cons. split; [|done]. intros Hin. by apply vacated_keys in Hin.
  - apply Forall_cons. split; [|done].
    eapply (room_ok_step (RemovePlayer socketId)); [done| |done].
    cbn [perform]. run_monad. by rewrite removePlayer_without.
Qed.

Lemma enter_ok socketId roomId playerName game gameRooms effects gameRooms' :
  registry_ok gameRooms -> Server.own roomId gameRooms = Some game ->
  Server.enter socketId roomId playerName game gameRooms = Returns (effects, gameRooms') ->
  registry_ok gameRooms'.
Proof.
  intros Hok Hown. unfold Server.enter.
  destruct (addPlayer socketId playerName game) as [[success game']|] eqn:Hadd; [|done].
  cbn. assert (perform (AddPlayer socketId playerName) game = Returns (tt, game')) as Hrun
    by (cbn [perform]; run_monad; by rewrite Hadd).
  pose proof (perform_players_length _ _ _ Hrun) as Hgrow. cbn in Hgrow.
  pose proof (store_ok _ _ _ _ _ Hok Hown Hrun Hgrow).
  destruct success; by intros [= <- <-].
Qed.

Lemma create_ok rnd socketId roomId playerName game' gameRooms :
  registry_ok gameRooms -> Server.read roomId gameRooms = Server.Missing ->
  addPlayer socketId playerName (newGame rnd roomId) = Returns (true, game') ->
  registry_ok (Server.create roomId game' gameRooms).
Proof.
  intros [Hkeys Hall] Hread Hadd.
  assert (Server.own roomId gameRooms = None ∧ roomId ∉ Server.OBJECT_PROTOTYPE)
    as [Hown Hname].
  { unfold Server.read in Hread. destruct (Server.own roomId gameRooms); [done|].
    case_bool_decide; done. }
  assert (room_ok (roomId, game')) as Hroom.
  { assert (perform (AddPlayer socketId playerName) (newGame rnd roomId)
            = Returns (tt, game')) as Hrun
      by (cbn [perform]; run_monad; by rewrite Hadd).
    apply addPlayer_inv in Hadd
      as [(? & _)|(_ & _ & p & _ & _ & _ & _ & Hps & _ & Hturn & _ & _ & _ & _ & Hid)];
      [done|].
    split; [done|]. split; [done|]. cbn. rewrite Hps, Hturn. cbn.
    split; [lia|]. split; [|lia].
    eapply perform_host_first; [|exact Hrun]. exact I. }
  split.
  - rewrite (create_Permutation roomId game' gameRooms). cbn.
    apply NoDup_cons. split; [by apply own_None|done].
  - rewrite (create_Permutation roomId game' gameRooms). by apply Forall_cons.
Qed.

Lemma handle_ok socketId m gameRooms effects gameRooms' :
  registry_ok gameRooms ->
  Server.handle socketId m gameRooms = Returns (effects, gameRooms') ->
  registry_ok gameRooms'.
Proof.
  intros Hok.
  destruct m as [rnd roomId name|roomId name|roomId|roomId pts|roomId|rnd roomId ids
                |now roomId text name|]; cbn [Server.handle].
  - unfold Server.createRoom.
    destruct (Server.read roomId gameRooms) as [game| |] eqn:Hread.
    + rewrite Hread. apply read_Own in Hread. by apply enter_ok.
    + by rewrite Hread.
    + assert (Server.own roomId gameRooms = None) as Hown
        by (unfold Server.read in Hread; by destruct (Server.own roomId gameRooms)).
      destruct (own_create roomId (newGame rnd roomId) gameRooms Hown) as [Hnew Hstore].
      apply read_Own in Hnew. rewrite Hnew.
      destruct (addPlayer_room socketId name (newGame rnd roomId)) as [game' Hadd];
        [cbn; lia|].
      rewrite (enter_room _ _ _ _ _ _ Hadd), Hstore. intros [= <- <-].
      by eapply create_ok.
  - unfold Server.joinRoom.
    destruct (Server.read roomId gameRooms) as [game| |] eqn:Hread; [| done |].
    + apply read_Own in Hread. destruct (gameStarted game).
      * by intros [= <- <-].
      * by apply enter_ok.
    + by intros [= <- <-].
  - unfold Server.startGame.
    destruct (Server.read roomId gameRooms) as [game| |] eqn:Hread;
      [|by intros [= <- <-]..].
    apply read_Own in Hread. case_decide; [by intros [= <- <-]|].
    destruct (startGame game) as [[started game']|] eqn:Hstart; [|done]. cbn.
    assert (perform StartGame game = Returns (tt, game')) as Hrun
      by (cbn [perform]; run_monad; by rewrite Hstart).
    pose proof (perform_players_length _ _ _ Hrun) as Hlen. cbn in Hlen.
    pose proof (store_ok _ _ _ _ _ Hok Hread Hrun ltac:(lia)).
    destruct started; by intros [= <- <-].
  - unfold Server.playMove.
    destruct (Server.read roomId gameRooms) as [game| |] eqn:Hread;
      [|done|by intros [= <- <-]].
    apply read_Own in Hread.
    destruct (playMove socketId pts game) as [[r game']|] eqn:Hm; [|done]. cbn.
    assert (perform (PlayMove socketId pts) game = Returns (tt, game')) as Hrun
      by (cbn [perform]; run_monad; by rewrite Hm).
    pose proof (perform_players_length _ _ _ Hrun) as Hlen. cbn in Hlen.
    pose proof (store_ok _ _ _ _ _ Hok Hread Hrun ltac:(lia)).
    destruct r; by intros [= <- <-].
  - unfold Server.passTurn.
    destruct (Server.read roomId gameRooms) as [game| |] eqn:Hread;
      [|done|by intros [= <- <-]].
    apply read_Own in Hread.
    destruct (passTurn socketId game) as [[r game']|] eqn:Hm; [|done]. cbn.
    assert (perform (PassTurn socketId) game = Returns (tt, game')) as Hrun
      by (cbn [perform]; run_monad; by rewrite Hm).
    pose proof (perform_players_length _ _ _ Hrun) as Hlen. cbn in Hlen.
    pose proof (store_ok _ _ _ _ _ Hok Hread Hrun ltac:(lia)).
    destruct r; by intros [= <- <-].
  - unfold Server.exchangeTiles.
    destruct (Server.read roomId gameRooms) as [game| |] eqn:Hread;
      [|done|by intros [= <- <-]].
    apply read_Own in Hread.
    destruct (exchangeTiles rnd socketId ids game) as [[r game']|] eqn:Hm; [|done]. cbn.
    assert (perform (ExchangeTiles rnd socketId ids) game = Returns (tt, game')) as Hrun
      by (cbn [perform]; run_monad; by rewrite Hm).
    pose proof (perform_players_length _ _ _ Hrun) as Hlen. cbn in Hlen.
    pose proof (store_ok _ _ _ _ _ Hok Hread Hrun ltac:(lia)).
    destruct r; by intros [= <- <-].
  - by intros [= <- <-].
  - rewrite disconnect_run. intros [= <- <-]. by apply vacated_ok.
Qed.

(** X22.  Whatever the sockets send, in a registry that is in order, as
    the empty registry is, every room that [gameRooms] holds afterwards is
    filed under the id of its session and under no other key, has from one
    to four players, has its first player as its host and no other, and has
    a turn index that names a player; no room is filed under a name that
    the registry inherits. *)
Theorem registry_stays_in_order (traffic : list (string * Server.message))
    (gameRooms : Server.rooms) (effects : list Server.effect) (gameRooms' : Server.rooms) :
  registry_ok gameRooms ->
  Server.serve traffic gameRooms = Returns (effects, gameRooms') ->
  registry_ok gameRooms'.
Proof.
  revert gameRooms effects. induction traffic as [|[socketId m] rest IH];
    intros gameRooms effects Hok.
  - cbn. by intros [= <- <-].
  - cbn [Server.serve].
    destruct (Server.handle socketId m gameRooms) as [[sent gameRooms1]|] eqn:Hh; [|done].
    cbn. destruct (Server.serve rest gameRooms1) as [[later gameRooms2]|] eqn:Hs; [|done].
    cbn. intros [= <- <-]. eapply IH; [|done]. by eapply handle_ok.
Qed.

Lemma registry_stays_in_order_witness :
  exists effects gameRooms,
    Server.serve sample_traffic [] = Returns (effects, gameRooms) ∧
    registry_ok gameRooms ∧ gameRooms.*1 = ["7"; "room"].
Proof.
  destruct (Server.serve sample_traffic []) as [[effects gameRooms]|] eqn:Hs;
    [|vm_compute in Hs; discriminate].
  exists effects, gameRooms. split; [reflexivity|]. split.
  - apply (registry_stays_in_order sample_traffic [] effects gameRooms); [|exact Hs].
    split; constructor.
  - vm_compute in Hs. injection Hs as _ <-. reflexivity.
Defined.

(** ** To whom a rack is sent *)

Lemma store_elem roomId game game' gameRooms :
  Server.own roomId gameRooms = Some game ->
  (roomId, game') ∈ Server.store roomId game' gameRooms.
Proof.
  intros Hown. apply own_lookup in Hown as (i & Hf & Hl).
  unfold Server.store. rewrite Hf. apply list_elem_of_lookup. exists i.
  apply list_lookup_insert_eq. by eapply lookup_lt_Some.
Qed.

Lemma player_states_addressed game :
  Forall (fun e =>
            exists p, p ∈ players game ∧
              e = Server.EmitTo (Player.id p)
                    (Server.Event.playerState (getPlayerState game (Player.id p))))
         (Server.player_states game).
Proof.
  unfold Server.player_states. apply Forall_fmap, Forall_forall.
  intros p Hin. by exists p.
Qed.

(** X23.  Whatever a handler sends, the state of a player (the rack) travels
    only in [roomJoined] and [playerState], and each such message carries
    the state that a session of the registry gives for the id it is
    addressed to: it goes to the sender, with the sender's state, or to the
    id of a player of the session, with the state of that id. *)
Theorem racks_go_to_their_sockets (socketId : string) (m : Server.message)
    (gameRooms : Server.rooms) (effects : list Server.effect) (gameRooms' : Server.rooms) :
  Server.handle socketId m gameRooms = Returns (effects, gameRooms') ->
  Forall (rack_to_owner socketId gameRooms') effects.
Proof.
  assert (forall roomId playerName game rooms0 effects0 rooms1,
            Server.own roomId rooms0 = Some game ->
            Server.enter socketId roomId playerName game rooms0 = Returns (effects0, rooms1) ->
            Forall (rack_to_owner socketId rooms1) effects0) as Henter.
  { intros roomId name game rooms0 effects0 rooms1 Hown. unfold Server.enter.
    destruct (addPlayer socketId name game) as [[[] game']|]; [| |done]; cbn;
      intros [= <- <-]; repeat constructor; try done.
    intros address state [= <- <-]. exists roomId, game'.
    split; [by eapply store_elem|]. split; [done|]. by left. }
  assert (forall roomId game game' rooms0,
            Server.own roomId rooms0 = Some game ->
            Forall (rack_to_owner socketId (Server.store roomId game' rooms0))
                   (Server.player_states game')) as Hstates.
  { intros roomId game game' rooms0 Hown.
    eapply Forall_impl; [apply player_states_addressed|].
    intros e (p & Hin & ->) address state [= <- <-].
    exists roomId, game'. split; [by eapply store_elem|]. split; [done|].
    right. right. split; [done|]. apply list_elem_of_fmap. by exists p. }
  destruct m as [rnd roomId name|roomId name|roomId|roomId pts|roomId|rnd roomId ids
                |now roomId text name|]; cbn [Server.handle].
  - unfold Server.createRoom.
    destruct (Server.read roomId gameRooms) as [game| |] eqn:Hread.
    + rewrite Hread. apply read_Own in Hread. by apply Henter.
    + by rewrite Hread.
    + assert (Server.own roomId gameRooms = None) as Hown
        by (unfold Server.read in Hread; by destruct (Server.own roomId gameRooms)).
      destruct (own_create roomId (newGame rnd roomId) gameRooms Hown) as [Hnew _].
      pose proof Hnew as Hnew'. apply read_Own in Hnew'. rewrite Hnew'. by apply Henter.
  - unfold Server.joinRoom.
    destruct (Server.read roomId gameRooms) as [game| |] eqn:Hread; [|done|].
    + apply read_Own in Hread. destruct (gameStarted game).
      * intros [= <- <-]. by repeat constructor.
      * by apply Henter.
    + intros [= <- <-]. by repeat constructor.
  - unfold Server.startGame.
    destruct (Server.read roomId gameRooms) as [game| |] eqn:Hread;
      [|intros [= <- <-]; by repeat constructor..].
    apply read_Own in Hread. case_decide; [intros [= <- <-]; by repeat constructor|].
    destruct (startGame game) as [[[] game']|]; [| |done]; cbn; intros [= <- <-];
      [|done].
    apply Forall_cons. split; [done|]. by eapply Hstates.
  - unfold Server.playMove.
    destruct (Server.read roomId gameRooms) as [game| |] eqn:Hread;
      [|done|intros [= <- <-]; by repeat constructor].
    apply read_Own in Hread.
    destruct (playMove socketId pts game) as [[[score|error] game']|]; [| |done]; cbn;
      intros [= <- <-]; [|by repeat constructor].
    apply Forall_cons. split; [done|]. apply Forall_app. split; [by eapply Hstates|].
    by repeat constructor.
  - unfold Server.passTurn.
    destruct (Server.read roomId gameRooms) as [game| |] eqn:Hread;
      [|done|intros [= <- <-]; by repeat constructor].
    destruct (passTurn socketId game) as [[[score|error] game']|]; [| |done]; cbn;
      intros [= <- <-]; by repeat constructor.
  - unfold Server.exchangeTiles.
    destruct (Server.read roomId gameRooms) as [game| |] eqn:Hread;
      [|done|intros [= <- <-]; by repeat constructor].
    apply read_Own in Hread.
    destruct (exchangeTiles rnd socketId ids game) as [[[score|error] game']|];
      [| |done]; cbn; intros [= <- <-]; [|by repeat constructor].
    repeat constructor; [done|].
    intros address state [= <- <-]. exists roomId, game'.
    split; [by eapply store_elem|]. split; [done|]. right. by left.
  - intros [= <- <-]. by repeat constructor.
  - rewrite disconnect_run. intros [= <- <-].
    apply Forall_fmap, Forall_forall. done.
Qed.

Lemma racks_go_to_their_sockets_witness :
  exists effects gameRooms,
    Server.handle "a" (Server.StartGame "room") [("room", three_in_lobby)]
      = Returns (effects, gameRooms) ∧
    Forall (rack_to_owner "a" gameRooms) effects.
Proof.
  destruct (Server.handle "a" (Server.StartGame "room") [("room", three_in_lobby)])
    as [[effects gameRooms]|] eqn:Hh; [|vm_compute in Hh; discriminate].
  exists effects, gameRooms. split; [reflexivity|].
  exact (racks_go_to_their_sockets _ _ _ _ _ Hh).
Defined.

(** ** Whose turn it is *)

(** X14.  Turns go round: when each pass is made by the player whose turn
    it is, [k] passes move the turn index by [k] modulo the number of
    players and change nothing else, so as many passes as there are players
    lead back to the very session they started from. *)
Theorem passes_go_round (s : ScrabbleGame) (k : nat) :
  (currentPlayerIndex s < length (players s))%nat ->
  passes k s =
    Returns (set_currentPlayerIndex ((currentPlayerIndex s + k) mod length (players s))%nat s) ∧
  passes (length (players s)) s = Returns s.
Proof.
  intros Hturn.
  assert (forall k s, (currentPlayerIndex s < length (players s))%nat ->
            passes k s =
              Returns (set_currentPlayerIndex
                         ((currentPlayerIndex s + k) mod length (players s))%nat s)) as Hk.
  { clear. intros k. induction k as [|k IH]; intros s Hturn.
    - cbn [passes]. rewrite Nat.add_0_r, Nat.mod_small by done. by destruct s.
    - cbn [passes]. unfold getCurrentPlayer.
      destruct (players s !! currentPlayerIndex s) as [p|] eqn:Hp.
      2:{ apply lookup_ge_None in Hp. lia. }
      rewrite (passTurn_current s p Hp). cbn.
      rewrite IH.
      + unfold turn_advanced, set_currentPlayerIndex. cbn. do 2 f_equal.
        rewrite Nat.Div0.add_mod_idemp_l. f_equal. lia.
      + unfold turn_advanced. cbn. apply Nat.mod_upper_bound. lia. }
  split; [by apply Hk|].
  rewrite Hk by done.
  replace (currentPlayerIndex s + length (players s))%nat
    with (currentPlayerIndex s + 1 * length (players s))%nat by lia.
  rewrite Nat.Div0.mod_add, Nat.mod_small by done. by destruct s.
Qed.

Lemma passes_go_round_witness : passes 3 three_playing = Returns three_playing.
Proof.
  refine (proj2 (passes_go_round three_playing 3 _)). vm_compute. lia.
Defined.

Lemma id_lookup_alter (f : Player.t -> Player.t) (i j : nat) (ps : list Player.t) :
  (forall p, Player.id (f p) = Player.id p) ->
  Player.id <$> alter f i ps !! j = Player.id <$> ps !! j.
Proof.
  intros Hf. rewrite <- !list_lookup_fmap. by rewrite ids_alter.
Qed.

(** X15.  Who has the turn after [removePlayer]: when the player who leaves
    stood after the current player, the turn stays with the current player;
    when the player who leaves is the current player or stood before, the
    turn goes to the player who stood after the current one, and to the
    first of the players who remain when the current player was the last of
    the list.  So a player whose turn it is loses it when a player who
    stands earlier in the list leaves. *)
Theorem removePlayer_passes_the_turn (s : ScrabbleGame) (socketId : string) (index : nat)
    (p : Player.t) :
  find_player socketId (players s) = Some (index, p) ->
  (currentPlayerIndex s < length (players s))%nat ->
  exists s',
    removePlayer socketId s = Returns (tt, s') ∧
    Player.id <$> getCurrentPlayer s' =
      Player.id <$>
        (if decide (currentPlayerIndex s < index)%nat
         then players s !! currentPlayerIndex s
         else if decide (S (currentPlayerIndex s) < length (players s))%nat
              then players s !! S (currentPlayerIndex s)
              else delete index (players s) !! 0%nat).
Proof.
  intros Hf Hturn. rewrite removePlayer_run, Hf. eexists. split; [done|].
  apply list_find_Some in Hf as (Hl & _). apply lookup_lt_Some in Hl as Hindex.
  assert (length (delete index (players s)) = (length (players s) - 1)%nat) as Hlen
    by (apply length_delete; eauto).
  unfold getCurrentPlayer, removed. cbn [players currentPlayerIndex].
  set (ps' := if _ : bool then _ else _).
  assert (length ps' = (length (players s) - 1)%nat) as Hlen'.
  { unfold ps'. destruct (_ && _); by rewrite ?length_alter. }
  assert (forall j, Player.id <$> ps' !! j = Player.id <$> delete index (players s) !! j)
    as Hids.
  { intros j. unfold ps'. destruct (_ && _); [|done]. by apply id_lookup_alter. }
  rewrite Hlen'.
  destruct (decide (currentPlayerIndex s < index)%nat).
  - rewrite decide_False by lia. rewrite Hids. by rewrite list_lookup_delete_lt.
  - destruct (decide (S (currentPlayerIndex s) < length (players s))%nat).
    + rewrite decide_False by lia. rewrite Hids. by rewrite list_lookup_delete_ge by lia.
    + rewrite decide_True by lia. by rewrite Hids.
Qed.

Lemma removePlayer_passes_the_turn_witness :
  exists s',
    removePlayer "a" (turn_advanced three_playing) = Returns (tt, s') ∧
    Player.id <$> getCurrentPlayer s' = Some "c".
Proof.
  destruct (find_player "a" (players (turn_advanced three_playing))) as [[index p]|] eqn:Hf;
    [|vm_compute in Hf; discriminate].
  destruct (removePlayer_passes_the_turn (turn_advanced three_playing) "a" index p Hf)
    as (s' & Hrun & Hturn).
  - vm_compute. lia.
  - exists s'. split; [exact Hrun|]. rewrite Hturn. clear Hrun Hturn.
    vm_compute in Hf. injection Hf as <- _. vm_compute. reflexivity.
Defined.

(** ** The tiles in hand *)

#[local] Arguments Client.placement : simpl never.
#[local] Arguments Client.assign : simpl never.
#[local] Arguments Client.remove : simpl never.

Lemma placement_elem k pt (placements : list (string * PlayedTile.t)) :
  Client.placement k placements = Some pt -> (k, pt) ∈ placements.
Proof.
  unfold Client.placement. destruct (list_find _ placements) as [[i [k' pt']]|] eqn:Hf; [|done].
  intros [= ->]. apply list_find_Some in Hf as (Hl & Hk & _). cbn in Hk. subst k'.
  by eapply list_elem_of_lookup_2.
Qed.

Lemma placement_None k (placements : list (string * PlayedTile.t)) :
  Client.placement k placements = None -> k ∉ placements.*1.
Proof.
  unfold Client.placement. destruct (list_find _ placements) as [found|] eqn:Hf; [done|].
  intros _ Hin. apply list_elem_of_fmap in Hin as ([k' pt] & -> & Hin).
  apply list_find_None in Hf. rewrite Forall_forall in Hf. by apply (Hf _ Hin).
Qed.

Lemma assign_new k pt (placements : list (string * PlayedTile.t)) :
  Client.placement k placements = None ->
  Client.assign k pt placements = placements ++ [(k, pt)].
Proof.
  unfold Client.placement, Client.assign.
  by destruct (list_find _ placements) as [[i found]|].
Qed.

Lemma remove_keys k (placements : list (string * PlayedTile.t)) :
  NoDup placements.*1 -> NoDup (Client.remove k placements).*1 ∧ k ∉ (Client.remove k placements).*1.
Proof.
  unfold Client.remove. intros Hnodup. split.
  - induction placements as [|[k' pt] rest IH]; [done|].
    cbn in Hnodup. apply NoDup_cons in Hnodup as [Hnew Hrest].
    rewrite filter_cons. case_decide; [|by apply IH].
    cbn. apply NoDup_cons. split; [|by apply IH].
    intros Hin. apply Hnew. apply list_elem_of_fmap in Hin as (entry & -> & Hin).
    apply list_elem_of_filter in Hin as [_ Hin]. apply list_elem_of_fmap. by exists entry.
  - intros Hin. apply list_elem_of_fmap in Hin as (entry & -> & Hin).
    by apply list_elem_of_filter in Hin as [Hne _].
Qed.

Lemma remove_Permutation k pt (placements : list (string * PlayedTile.t)) :
  NoDup placements.*1 -> (k, pt) ∈ placements ->
  placements ≡ₚ (k, pt) :: Client.remove k placements.
Proof.
  unfold Client.remove. intros Hnodup Hin.
  induction placements as [|[k' pt'] rest IH]; [by apply elem_of_nil in Hin|].
  cbn in Hnodup. apply NoDup_cons in Hnodup as [Hnew Hrest].
  rewrite filter_cons. apply elem_of_cons in Hin as [[= <- <-]|Hin].
  - rewrite decide_False by (cbn; auto).
    rewrite filter_all; [done|]. apply Forall_forall. intros [k2 pt2] Hin2. cbn.
    intros ->. apply Hnew. apply list_elem_of_fmap. by exists (k, pt2).
  - assert (k' ≠ k) as Hne.
    { intros ->. apply Hnew. apply list_elem_of_fmap. by exists (k, pt). }
    rewrite decide_True by done. rewrite (IH Hrest Hin) at 1. apply perm_swap.
Qed.

Lemma remove_absent k (placements : list (string * PlayedTile.t)) :
  k ∉ placements.*1 -> Client.remove k placements = placements.
Proof.
  intros Hnot. unfold Client.remove. apply filter_all, Forall_forall.
  intros [k' pt] Hin. cbn. intros ->. apply Hnot. apply list_elem_of_fmap. by exists (k, pt).
Qed.

Lemma rack_without (tile : Tile.t) (rack : list Tile.t) :
  NoDup (Tile.id <$> rack) -> tile ∈ rack ->
  rack ≡ₚ tile :: filter (fun t => Tile.id t ≠ Tile.id tile) rack.
Proof.
  intros Hnodup Hin. induction rack as [|t rest IH]; [by apply elem_of_nil in Hin|].
  cbn in Hnodup. apply NoDup_cons in Hnodup as [Hnew Hrest].
  rewrite filter_cons. apply elem_of_cons in Hin as [<-|Hin].
  - rewrite decide_False by auto.
    rewrite filter_all; [done|]. apply Forall_forall. intros t Ht Heq.
    apply Hnew. rewrite <- Heq. apply list_elem_of_fmap. by exists t.
  - assert (Tile.id t ≠ Tile.id tile) as Hne.
    { intros Heq. apply Hnew. rewrite Heq. apply list_elem_of_fmap. by exists tile. }
    rewrite decide_True by done. rewrite (IH Hrest Hin) at 1. apply perm_swap.
Qed.

Lemma tidy_Permutation c c' :
  tidy c -> NoDup (Client.boardPlacements c').*1 -> held c' ≡ₚ held c -> tidy c'.
Proof. intros [_ Hids] Hkeys Hperm. split; [done|]. by rewrite Hperm. Qed.

Lemma dash_in_append (a b : string) : mentions "-" (a +:+ "-" +:+ b) = true.
Proof.
  induction a as [|x a IH]; [done|].
  change (String x a +:+ "-" +:+ b) with (String x (a +:+ "-" +:+ b)).
  cbn [mentions]. by rewrite IH, orb_true_r.
Qed.

Lemma key_not_a_source row col :
  Client.key row col ≠ "rack" ∧ Client.key row col ≠ "board".
Proof.
  pose proof (dash_in_append (pretty row) (pretty col)) as Hdash.
  fold (Client.key row col) in Hdash.
  split; intros Heq; rewrite Heq in Hdash; vm_compute in Hdash; discriminate.
Qed.

Lemma drop_on_board_from_rack board row col tile c c' :
  tidy c -> tile ∈ Client.playerTiles c ->
  Client.handleDropOnBoard board row col (Client.dragFromRack tile c) = Returns c' ->
  NoDup (Client.boardPlacements c').*1 ∧ held c' ≡ₚ held c.
Proof.
  intros [Hkeys Hids] Hin. unfold Client.handleDropOnBoard, Client.dragFromRack,
    Client.handleDragStart. cbn.
  destruct (readCell board row col) as [x|]; [|done]. cbn.
  destruct (Client.truthy x || _) eqn:Hocc; [intros [= <-]; by split|].
  apply orb_false_iff in Hocc as [_ Hfree]. apply bool_decide_eq_false in Hfree.
  assert (Client.placement (Client.key row col) (Client.boardPlacements c) = None) as Hnone.
  { destruct (Client.placement _ _); [|done]. exfalso. apply Hfree. by eexists. }
  rewrite decide_True by done.
  intros [= <-]. cbn. rewrite assign_new by done. split.
  - rewrite fmap_app. cbn. apply NoDup_app. split; [done|]. split.
    + intros k Hk Hk'. apply list_elem_of_singleton in Hk' as ->.
      by apply placement_None in Hnone.
    + apply NoDup_singleton.
  - unfold held, Client.values. cbn. rewrite !fmap_app. cbn.
    assert (NoDup (Tile.id <$> Client.playerTiles c)) as Hrack.
    { unfold held in Hids. rewrite fmap_app in Hids. by apply NoDup_app in Hids as [? _]. }
    rewrite (rack_without tile (Client.playerTiles c) Hrack Hin) at 2.
    cbn. rewrite (assoc_L (++)). rewrite <- Permutation_cons_append. done.
Qed.

Lemma drop_on_board_from_board board row col r c0 tile c c' :
  Client.handleDropOnBoard board row col
    (Client.handleDragStart tile (Client.key r c0) c) = Returns c' ->
  Client.playerTiles c' = Client.playerTiles c ∧
  Client.boardPlacements c' = Client.boardPlacements c.
Proof.
  destruct (key_not_a_source r c0) as [Hrack Hboard].
  unfold Client.handleDropOnBoard, Client.handleDragStart. cbn.
  destruct (readCell board row col) as [x|]; [|done]. cbn.
  destruct (Client.truthy x || _); [by intros [= <-]|].
  rewrite decide_False by done. rewrite decide_False by done. by intros [= <-].
Qed.

Lemma drop_on_rack_from_board k pt c :
  tidy c -> k ≠ "rack" -> Client.placement k (Client.boardPlacements c) = Some pt ->
  let c' := Client.handleDropOnRack (Client.handleDragStart (PlayedTile.tile pt) k c) in
  NoDup (Client.boardPlacements c').*1 ∧ held c' ≡ₚ held c.
Proof.
  intros [Hkeys Hids] Hne Hpt. unfold Client.handleDropOnRack, Client.handleDragStart. cbn.
  rewrite decide_False by done. cbn.
  apply placement_elem in Hpt. split; [by apply remove_keys|].
  unfold held, Client.values. cbn.
  rewrite (remove_Permutation _ _ _ Hkeys Hpt) at 2. cbn.
  by rewrite <- (assoc_L (++)).
Qed.

Lemma recallTiles_held c : held (Client.recallTiles c) = held c.
Proof. unfold held, Client.recallTiles, Client.values. cbn. by rewrite app_nil_r. Qed.

Lemma recallTiles_tidy c : tidy c -> tidy (Client.recallTiles c).
Proof.
  intros [_ Hids]. unfold tidy. rewrite recallTiles_held. split; [constructor|done].
Qed.

Lemma act_tidy g c c' :
  tidy c -> act g c = Returns c' -> tidy c' ∧ held c' ≡ₚ held c.
Proof.
  intros Htidy. destruct g as [i board row col|i|r c0 board row col|r c0| |roomId];
    cbn [act].
  - destruct (Client.playerTiles c !! i) as [tile|] eqn:Hi; [|by intros [= <-]].
    intros Hrun. apply list_elem_of_lookup_2 in Hi.
    destruct (drop_on_board_from_rack _ _ _ _ _ _ Htidy Hi Hrun) as [Hkeys Hperm].
    split; [by eapply tidy_Permutation|done].
  - destruct (Client.playerTiles c !! i) as [tile|]; intros [= <-]; done.
  - destruct (Client.placement (Client.key r c0) (Client.boardPlacements c)) as [pt|] eqn:Hpt;
      [|by intros [= <-]].
    unfold Client.dragFromBoard. rewrite Hpt. intros Hrun.
    destruct (drop_on_board_from_board _ _ _ _ _ _ _ _ Hrun) as [Hrack Hplaced].
    assert (held c' = held c) as Hheld by (unfold held; by rewrite Hrack, Hplaced).
    split; [|by rewrite Hheld]. destruct Htidy as [Hkeys Hids].
    split; [by rewrite Hplaced|by rewrite Hheld].
  - destruct (Client.placement (Client.key r c0) (Client.boardPlacements c)) as [pt|] eqn:Hpt;
      [|by intros [= <-]].
    unfold Client.dragFromBoard. rewrite Hpt. intros [= <-].
    destruct (drop_on_rack_from_board _ _ _ Htidy (proj1 (key_not_a_source r c0)) Hpt)
      as [Hkeys Hperm].
    split; [by eapply tidy_Permutation|done].
  - intros [= <-]. split; [by apply recallTiles_tidy|by rewrite recallTiles_held].
  - assert ((Client.passTurn roomId c).1 = Client.recallTiles c) as -> by reflexivity.
    intros [= <-]. split; [by apply recallTiles_tidy|by rewrite recallTiles_held].
Qed.

(** X24.  With no tile id twice among the tiles in hand, every sequence of
    drags of rendered tiles ended by a drop on the board or on the rack, of
    recalls and of passes leaves the tiles in hand, rack and placements
    together, the tiles they were: none is lost and none appears twice. *)
Theorem gestures_keep_tiles (gs : list gesture) (c c' : Client.t) :
  tidy c -> act_all gs c = Returns c' -> tidy c' ∧ held c' ≡ₚ held c.
Proof.
  revert c. induction gs as [|g rest IH]; intros c Htidy.
  - cbn. by intros [= <-].
  - cbn [act_all]. destruct (act g c) as [c1|] eqn:Hact; [|done]. cbn. intros Hrun.
    destruct (act_tidy _ _ _ Htidy Hact) as [Htidy1 Hperm1].
    destruct (IH _ Htidy1 Hrun) as [Htidy' Hperm']. split; [done|]. by rewrite Hperm'.
Qed.

Lemma gestures_keep_tiles_witness :
  exists c',
    act_all [RackToBoard 0 ∅ 7 8; BoardToRack 7 7; RackToBoard 1 ∅ 7 8; Recall] sample_client
      = Returns c' ∧
    held c' ≡ₚ held sample_client.
Proof.
  destruct (act_all [RackToBoard 0 ∅ 7 8; BoardToRack 7 7; RackToBoard 1 ∅ 7 8; Recall]
                    sample_client) as [c'|] eqn:Hrun; [|vm_compute in Hrun; discriminate].
  exists c'. split; [reflexivity|].
  refine (proj2 (gestures_keep_tiles _ _ _ _ Hrun)).
  split; apply (bool_decide_unpack _); vm_compute; exact I.
Defined.

(** X25.  A tile placed on a square cannot be moved to another square:
    the drag starts with the key of the square as its source, which is
    neither "rack" nor "board", so the drop on any square changes neither
    the rack nor the placements.  The drop on the rack takes the placement
    back. *)
Theorem placed_tile_stays (r c0 : Z) (c : Client.t) (pt : PlayedTile.t) :
  Client.placement (Client.key r c0) (Client.boardPlacements c) = Some pt ->
  (forall board row col c',
     act (BoardToBoard r c0 board row col) c = Returns c' ->
     Client.playerTiles c' = Client.playerTiles c ∧
     Client.boardPlacements c' = Client.boardPlacements c) ∧
  (forall c',
     act (BoardToRack r c0) c = Returns c' ->
     Client.playerTiles c' = Client.playerTiles c ++ [PlayedTile.tile pt] ∧
     Client.boardPlacements c' = Client.remove (Client.key r c0) (Client.boardPlacements c)).
Proof.
  intros Hpt. split.
  - intros board row col c'. cbn [act]. rewrite Hpt. unfold Client.dragFromBoard.
    rewrite Hpt. apply drop_on_board_from_board.
  - intros c'. cbn [act]. rewrite Hpt. unfold Client.dragFromBoard. rewrite Hpt.
    unfold Client.handleDropOnRack, Client.handleDragStart. cbn.
    rewrite decide_False by apply key_not_a_source. by intros [= <-].
Qed.

Lemma placed_tile_stays_witness :
  exists c',
    act (BoardToBoard 7 7 ∅ 3 3) sample_client = Returns c' ∧
    Client.boardPlacements c' = Client.boardPlacements sample_client.
Proof.
  destruct (act (BoardToBoard 7 7 ∅ 3 3) sample_client) as [c'|] eqn:Hrun;
    [|vm_compute in Hrun; discriminate].
  exists c'. split; [reflexivity|].
  refine (proj2 (proj1 (placed_tile_stays 7 7 sample_client _ _) ∅ 3 3 c' Hrun)).
  reflexivity.
Defined.

(** ** A refused move *)

(** X26.  In a tidy client state (no key and no tile id twice),
    [playMove] of the client, with placements on the board, sends
    them and empties [boardPlacements] at once, leaving the rack as it is.
    When the server refuses the move it answers with the error alone and
    leaves every room as it was, and the listener of the client shows the
    error: the tiles that were placed are then neither in the rack nor
    among the placements of the client. *)
Theorem refused_move_takes_tiles_off (roomId socketId : string) (c : Client.t)
    (gameRooms : Server.rooms) (game : ScrabbleGame) :
  tidy c ->
  Client.boardPlacements c ≠ [] ->
  Server.read roomId gameRooms = Server.Own game ->
  let playedTiles := Client.values (Client.boardPlacements c) in
  Client.playMove roomId c =
    (Client.set_boardPlacements [] c, Some (Server.PlayMove roomId playedTiles)) ∧
  (forall error game',
     playMove socketId playedTiles game = Returns (Failure error, game') ->
     Server.handle socketId (Server.PlayMove roomId playedTiles) gameRooms =
       Returns ([Server.Emit socketId (Server.Event.error error)], gameRooms) ∧
     let c' := Client.on (Server.Event.error error) (Client.playMove roomId c).1 in
     Client.playerTiles c' = Client.playerTiles c ∧
     Client.boardPlacements c' = [] ∧
     Client.errorMessage c' = error ∧
     Forall (fun pt => PlayedTile.tile pt ∉ held c') playedTiles).
Proof.
  intros [Hkeys Hids] Hsome Hread playedTiles.
  assert (Client.playMove roomId c =
            (Client.set_boardPlacements [] c, Some (Server.PlayMove roomId playedTiles)))
    as Hplay.
  { unfold Client.playMove. fold playedTiles. rewrite decide_False; [done|].
    unfold playedTiles, Client.values. rewrite length_fmap.
    destruct (Client.boardPlacements c); [done|]. cbn. lia. }
  split; [done|]. intros error game' Hm. split.
  - cbn [Server.handle]. unfold Server.playMove. rewrite Hread, Hm. cbn.
    apply read_Own in Hread.
    apply playMove_inv in Hm as [[-> _]|(i & p & sc & _ & _ & _ & ? & _)]; [|done].
    by rewrite store_own.
  - rewrite Hplay. cbn. split; [done|]. split; [done|]. split; [done|].
    unfold held. cbn. rewrite app_nil_r.
    apply Forall_forall. intros pt Hpt Hin.
    unfold held in Hids. rewrite fmap_app in Hids.
    apply NoDup_app in Hids as (_ & Hdisjoint & _).
    apply (Hdisjoint (Tile.id (PlayedTile.tile pt))).
    + apply list_elem_of_fmap. by exists (PlayedTile.tile pt).
    + apply list_elem_of_fmap. exists (PlayedTile.tile pt). split; [done|].
      apply list_elem_of_fmap. by exists pt.
Qed.

Lemma refused_move_takes_tiles_off_witness :
  Client.playerTiles
    (Client.on (Server.Event.error "Not your turn") (Client.playMove "room" sample_client).1)
    = Client.playerTiles sample_client.
Proof.
  refine (proj1 (proj2 (proj2 (refused_move_takes_tiles_off "room" "b" sample_client
                                 [("room", three_playing)] three_playing _ _ _)
                              "Not your turn" three_playing _))).
  - split; apply (bool_decide_unpack _); vm_compute; exact I.
  - discriminate.
  - reflexivity.
  - vm_compute. reflexivity.
Defined.

(** ** The premium squares that the client shows *)

(** X28.  The client and the server list the same premium squares: on every
    cell that holds no tile, the premium that the server scores is the type
    that [getPremiumType] gives the client to show. *)
Theorem shown_premium_is_scored (s : ScrabbleGame) (row col : Z) :
  readCell (board s) row col = Returns Null ->
  getPremiumSquare s row col = Returns (Client.getPremiumType row col).
Proof. intros Hnull. unfold getPremiumSquare. rewrite Hnull. reflexivity. Qed.

Lemma shown_premium_is_scored_witness :
  getPremiumSquare three_playing 7 7 = Returns (Client.getPremiumType 7 7).
Proof. apply shown_premium_is_scored. reflexivity. Defined.

(** ** An accepted move *)

Lemma deliver_player_states socketId joined game tiles (ps : list Player.t) c :
  getPlayerState game socketId = Some tiles ->
  Forall (fun p => Player.id p ∈ joined -> Player.id p = socketId) ps ->
  Client.playerTiles
    (Client.deliver socketId joined
       ((fun player =>
           Server.EmitTo (Player.id player)
             (Server.Event.playerState (getPlayerState game (Player.id player)))) <$> ps)
       c)
  = if existsb (fun p => bool_decide (Player.id p = socketId)) ps
    then tiles else Client.playerTiles c.
Proof.
  intros Hstate Hrooms. revert c. induction Hrooms as [|p ps Hp _ IH]; intros c; [done|].
  cbn [fmap list_fmap existsb]. unfold Client.deliver in *. cbn [foldl Client.receives].
  destruct (decide (Player.id p = socketId)) as [Heq|Hne].
  - rewrite decide_True by auto. rewrite Heq, Hstate. cbn [Client.on].
    rewrite bool_decide_eq_true_2 by done. cbn [orb]. rewrite IH.
    by destruct (existsb _ ps).
  - rewrite decide_False by (intros [?|?]; auto).
    rewrite bool_decide_eq_false_2 by done. cbn [orb]. apply IH.
Qed.

Lemma find_player_state game socketId i p :
  find_player socketId (players game) = Some (i, p) ->
  getPlayerState game socketId = Some (Player.tiles p) ∧
  existsb (fun q => bool_decide (Player.id q = socketId)) (players game) = true.
Proof.
  intros Hf. unfold getPlayerState. rewrite Hf. split; [done|].
  apply list_find_Some in Hf as (Hl & Hid & _).
  apply existsb_exists. exists p. split.
  - apply list_elem_of_In. by eapply list_elem_of_lookup_2.
  - by apply bool_decide_eq_true_2.
Qed.

Lemma find_player_ids socketId (ps ps' : list Player.t) i p :
  Player.id <$> ps' = Player.id <$> ps ->
  find_player socketId ps = Some (i, p) ->
  exists p', find_player socketId ps' = Some (i, p').
Proof.
  unfold find_player. revert ps' i. induction ps as [|q ps IH]; intros [|q' ps'] i; try done.
  cbn [fmap list_fmap]. intros [= Hq Hrest]. cbn [list_find].
  rewrite Hq. destruct (decide (Player.id q = socketId)).
  - intros [= <- _]. eauto.
  - destruct (list_find _ ps) as [[j r]|] eqn:Hf; [|done]. cbn. intros [= <- <-].
    destruct (IH ps' j Hrest eq_refl) as [p' ->]. cbn. eauto.
Qed.

Lemma moved_ids i score playedTiles s :
  Player.id <$> players (moved i score playedTiles s) = Player.id <$> players s.
Proof.
  unfold moved, tiles_dealt, dealt, turn_advanced. cbn. by rewrite !ids_alter.
Qed.

Lemma exchanged_ids rnd i p tileIds s :
  Player.id <$> players (exchanged rnd i p tileIds s) = Player.id <$> players s.
Proof.
  unfold exchanged, tiles_dealt, dealt, turn_advanced. cbn. by rewrite !ids_alter.
Qed.

Lemma deliver_app socketId joined (effects later : list Server.effect) c :
  Client.deliver socketId joined (effects ++ later) c =
    Client.deliver socketId joined later (Client.deliver socketId joined effects c).
Proof. unfold Client.deliver. by rewrite foldl_app. Qed.

Lemma deliver_to_room socketId joined room (event : Server.Event.t) c :
  (forall c0, Client.on event c0 = c0) ->
  Client.deliver socketId joined [Server.EmitTo room event] c = c.
Proof.
  intros Hon. unfold Client.deliver. cbn. by destruct (decide _).
Qed.

Lemma deliver_cons_room socketId joined room (event : Server.Event.t)
    (rest : list Server.effect) c :
  (forall c0, Client.on event c0 = c0) ->
  Client.deliver socketId joined (Server.EmitTo room event :: rest) c =
    Client.deliver socketId joined rest c.
Proof.
  intros Hon. unfold Client.deliver. cbn [foldl Client.receives].
  destruct (decide _); by rewrite ?Hon.
Qed.

(** X27.  After a move or an exchange that the session accepts, once the
    listeners of the client have run on what the handler sent, the rack that
    the client shows is the rack that the session holds for the socket;
    this for a socket that has joined no room named by the id of another
    player of the session. *)
Theorem accepted_request_resyncs_rack (socketId roomId : string) (gameRooms : Server.rooms)
    (game : ScrabbleGame) (joined : list string) (c : Client.t) :
  Server.read roomId gameRooms = Server.Own game ->
  Forall (fun id => id ∈ joined -> id = socketId) (Player.id <$> players game) ->
  (forall playedTiles score game',
     playMove socketId playedTiles game = Returns (Success score, game') ->
     exists effects tiles,
       Server.handle socketId (Server.PlayMove roomId playedTiles) gameRooms =
         Returns (effects, Server.store roomId game' gameRooms) ∧
       getPlayerState game' socketId = Some tiles ∧
       Client.playerTiles (Client.deliver socketId joined effects c) = tiles) ∧
  (forall rnd tileIds score game',
     exchangeTiles rnd socketId tileIds game = Returns (Success score, game') ->
     exists effects tiles,
       Server.handle socketId (Server.ExchangeTiles rnd roomId tileIds) gameRooms =
         Returns (effects, Server.store roomId game' gameRooms) ∧
       getPlayerState game' socketId = Some tiles ∧
       Client.playerTiles (Client.deliver socketId joined effects c) = tiles).
Proof.
  intros Hread Hrooms. split.
  - intros pts score game' Hm. cbn [Server.handle]. unfold Server.playMove.
    rewrite Hread, Hm. cbn.
    apply playMove_inv in Hm as [(_ & [[? _]|(error & ? & _)])|(i & p & sc & Hg & _ & _ & _ & ->)];
      [done..|].
    apply turn_guard_Some in Hg as (Hf & _).
    destruct (find_player_ids socketId (players game) _ i p (moved_ids i sc pts game) Hf)
      as [p' Hf'].
    destruct (find_player_state _ _ _ _ Hf') as [Hstate Hthere].
    eexists _, (Player.tiles p'). split; [done|]. split; [done|].
    rewrite deliver_cons_room by done.
    rewrite deliver_app, deliver_to_room by done.
    unfold Server.player_states. rewrite (deliver_player_states _ _ _ _ _ _ Hstate).
    + by rewrite Hthere.
    + rewrite <- (moved_ids i sc pts game) in Hrooms.
      by apply Forall_fmap in Hrooms.
  - intros rnd ids score game' Hm. cbn [Server.handle]. unfold Server.exchangeTiles.
    rewrite Hread, Hm. cbn.
    apply exchangeTiles_inv in Hm as [(_ & [[? _]|[? _]])|(i & p & Hg & _ & _ & ->)];
      [done..|].
    apply turn_guard_Some in Hg as (Hf & _).
    destruct (find_player_ids socketId (players game) _ i p
                (exchanged_ids rnd i p ids game) Hf) as [p' Hf'].
    destruct (find_player_state _ _ _ _ Hf') as [Hstate _].
    eexists _, (Player.tiles p'). split; [done|]. split; [done|].
    rewrite deliver_cons_room by done.
    unfold Client.deliver. cbn [foldl Client.receives].
    rewrite decide_True by done. by rewrite Hstate.
Qed.

Lemma accepted_request_resyncs_rack_witness :
  exists effects tiles,
    Server.handle "a" (Server.PlayMove "room" opening_move) [("room", three_playing)] =
      Returns (effects,
               Server.store "room" (after [PlayMove "a" opening_move] three_playing)
                            [("room", three_playing)]) ∧
    getPlayerState (after [PlayMove "a" opening_move] three_playing) "a" = Some tiles ∧
    Client.playerTiles (Client.deliver "a" ["room"] effects sample_client) = tiles.
Proof.
  refine (proj1 (accepted_request_resyncs_rack "a" "room" [("room", three_playing)]
                   three_playing ["room"] sample_client _ _)
                opening_move (Some 4) _ _).
  - reflexivity.
  - apply (bool_decide_unpack _). vm_compute. exact I.
  - vm_compute. reflexivity.
Defined.
